(** * Level-synchronous parallel BFS: a model of bfs_thread.cpp and bfs_seq.cpp

    The development follows the sources file by file:
    - [node], [Graph]: the graph view of graph.cpp;
    - [Chunked], [Static]: the two index partitioning policies of
      bfs_thread.cpp (the loops at the head of the worker routine);
    - [sequential_bfs]: the queue based oracle of bfs_seq.cpp;
    - [worker_step], [run_round], [round_body], [orch_loop]: the worker
      routine as interleaved atomic steps over the shared [visited] array,
      the merge phase and the sequence of rounds;
    - [Barrier]: the lock/condition-variable protocol of class Barrier as a
      transition system;
    - [WithBarrier]: the orchestrator's loop of bfs_thread.cpp with its calls
      of the barrier, and the two functions as they return or block.

    Machine integers.  Node ids, indices and counters are [nat]: every
    quantity the code computes is bounded by the node count (see
    [reach_count_le]), so for graphs of fewer than 2^31 nodes no [int]
    computation wraps.  Node payloads ([short]) and the search value ([int])
    are [Z]; they are only compared for equality after integer promotion.
    The barrier's generation counter, which grows without bound, is a [Z]
    with the wrap-around of [size_t] written out.

    Threads.  Between two rendezvous the workers' accesses to [visited]
    interleave in any order (sequential consistency).  [round_end],
    [state_at] and [orch_loop] give the rounds as they follow one another
    when every rendezvous completes: what each round computes.  Whether a
    rendezvous completes is decided by the barrier's own protocol, the
    subject of [Barrier]; [WithBarrier] puts its calls into the loop, where
    the merging phase is reached only if [MasterWait] has returned, and what
    the two functions of bfs_thread.cpp return, or that they block, is
    stated there.

    Out-of-range vector accesses are undefined behaviour in C++.  The model
    reads the default value and ignores the write there; all theorems assume
    [wf_graph], under which no such access happens. *)

From stdpp Require Import base numbers list sorting.
From Stdlib Require Import ZArith Lia.

Local Open Scope nat_scope.

(** ** graph.cpp: nodes and graphs *)

Record node := { value : Z; adj : list nat }.

Record Graph := { n_nodes : nat; nodes : list node }.

Global Instance node_inhabited : Inhabited node :=
  populate {| value := 0%Z; adj := [] |}.

(** [g->nodes[u]] *)
Definition node_at (g : Graph) (u : nat) : node := nodes g !!! u.

(** A graph as [Graph::generate_graph] builds it: [n_nodes] node objects,
    every adjacency entry a node id. *)
Definition wf_graph (g : Graph) : Prop :=
  length (nodes g) = n_nodes g ∧
  Forall (λ nd, Forall (λ v, v < n_nodes g) (adj nd)) (nodes g).

Global Instance wf_graph_dec g : Decision (wf_graph g).
Proof. unfold wf_graph. apply _. Defined.

(** Reachability along adjacency lists. *)
Inductive reach (g : Graph) (s : nat) : nat → Prop :=
  | reach_refl : reach g s s
  | reach_step u v : reach g s u → v ∈ adj (node_at g u) → reach g s v.

(** [g->nodes[u]->value == search_value] *)
Definition matches (g : Graph) (search_value : Z) (u : nat) : bool :=
  bool_decide (value (node_at g u) = search_value).

(** ** bfs_thread.cpp, worker routine of [parallel_bfs]: chunk indices *)

Module Chunked.
Section indices.
Variables (curr_size chunk_size n_workers thread_no : nat).

Definition number_of_chunks : nat := curr_size / chunk_size.

Definition extra_chunk : bool :=
  (thread_no =? 0) && (0 <? curr_size mod chunk_size).

(** [for (int j = start; j < stop; j++)] with [start = i * chunk_size]
    and [stop = start + chunk_size] *)
Definition chunk_range (i : nat) : list nat := seq (i * chunk_size) chunk_size.

(** [for (auto i = thread_no; i < number_of_chunks; i += n_workers)];
    [fuel] bounds the number of iterations, and [number_of_chunks] of them
    are enough as soon as [n_workers >= 1] (see [chunk_loop_fuel]). *)
Fixpoint chunk_loop (fuel i : nat) : list nat :=
  match fuel with
  | 0 => []
  | S fuel' =>
      if i <? number_of_chunks
      then chunk_range i ++ chunk_loop fuel' (i + n_workers)
      else []
  end.

(** [for (size_t i = number_of_chunks * chunk_size; i < curr_size; i++)] *)
Definition extra_range : list nat :=
  seq (number_of_chunks * chunk_size)
      (curr_size - number_of_chunks * chunk_size).

(** The frontier indices worker [thread_no] visits in one round, in the
    order it visits them. *)
Definition worker_indices : list nat :=
  chunk_loop number_of_chunks thread_no ++
  (if extra_chunk then extra_range else []).
End indices.
End Chunked.

(** ** bfs_thread.cpp, worker routine of [__parallel_bfs_static] *)

Module Static.
Section indices.
Variables (curr_size n_workers thread_no : nat).

Definition delta : nat :=
  if n_workers <? curr_size then curr_size / n_workers else 1.

Definition start : nat := thread_no * delta.

Definition stop : nat :=
  let stop := if thread_no =? n_workers - 1 then curr_size
              else (thread_no + 1) * delta in
  if start =? stop then stop + 1 else stop.

(** [if ((int)curr_size > thread_no) for (unsigned i = start; i < stop; i++)] *)
Definition worker_indices : list nat :=
  if thread_no <? curr_size then seq start (stop - start) else [].
End indices.
End Static.

(** The value of the macro in config.hpp. *)
Definition CHUNK_SIZE : nat := 2.

(** ** What the engine needs from a partitioning policy *)

(** A policy maps the frontier length, the worker count and the worker's
    ordinal to the indices that worker visits. *)
Definition policy : Type := nat → nat → nat → list nat.

Definition chunked_policy (chunk_size : nat) : policy :=
  λ curr_size n_workers thread_no,
    Chunked.worker_indices curr_size chunk_size n_workers thread_no.

Definition static_policy : policy := Static.worker_indices.

(** Disjoint coverage: the workers' index lists, put end to end, list every
    index below the frontier length exactly once. *)
Definition policy_ok (P : policy) : Prop :=
  ∀ L W, 1 ≤ W → seq 0 W ≫= P L W ≡ₚ seq 0 L.

(** * bfs_seq.cpp: the sequential oracle *)

(** [visited[val]] on the [vector<bool>] *)
Definition seq_marked (visited : list bool) (val : nat) : bool :=
  default false (visited !! val).

(** Body of the loop over [g->nodes[curr]->adj]:
    [if (!visited[val]) { q.push(val); visited[val] = true; }] *)
Definition seq_visit (qv : list nat * list bool) (val : nat)
    : list nat * list bool :=
  if seq_marked qv.2 val then qv else (qv.1 ++ [val], <[val := true]> qv.2).

(** State on leaving the [while] loop.  [dequeued] is a history variable: the
    values [curr] took, in order; the source keeps no such list. *)
Record seq_result := {
  seq_occ : nat;
  seq_visited : list bool;
  dequeued : list nat
}.

(** [while (!q.empty())]; [fuel] bounds the number of iterations. *)
Fixpoint seq_loop (fuel : nat) (g : Graph) (search_value : Z)
    (q : list nat) (visited : list bool) (occ : nat) (hist : list nat)
    : option seq_result :=
  match q with
  | [] => Some {| seq_occ := occ; seq_visited := visited; dequeued := hist |}
  | curr :: q' =>
      match fuel with
      | 0 => None
      | S fuel' =>
          let occ' := if matches g search_value curr then S occ else occ in
          let qv := foldl seq_visit (q', visited) (adj (node_at g curr)) in
          seq_loop fuel' g search_value qv.1 qv.2 occ' (hist ++ [curr])
      end
  end.

Definition sequential_bfs_run (fuel : nat) (g : Graph)
    (start_node : nat) (search_value : Z) : option seq_result :=
  seq_loop fuel g search_value [start_node]
    (<[start_node := true]> (replicate (n_nodes g) false)) 0 [].

Definition sequential_bfs (fuel : nat) (g : Graph)
    (start_node : nat) (search_value : Z) : option nat :=
  seq_occ <$> sequential_bfs_run fuel g start_node search_value.

(** The number of matching nodes among those reachable from [s], in the
    words of the specification: [c] counts the matches in a duplicate-free
    enumeration of the reachable nodes. *)
Definition reach_count (g : Graph) (s : nat) (search_value : Z) (c : nat)
    : Prop :=
  ∃ l, NoDup l ∧ (∀ u, u ∈ l ↔ reach g s u) ∧
       c = length (filter (λ u, matches g search_value u = true) l).

(** What the loop maintains: [hist ++ q] lists the nodes enqueued so far in
    the order they were pushed. *)
Record seq_inv (g : Graph) (start_node : nat) (search_value : Z)
    (q : list nat) (visited : list bool) (occ : nat)
    (hist : list nat) : Prop := {
  seq_inv_length : length visited = n_nodes g;
  seq_inv_nodup : NoDup (hist ++ q);
  seq_inv_marked : ∀ u, seq_marked visited u = true ↔ u ∈ hist ++ q;
  seq_inv_reach : ∀ u, u ∈ hist ++ q → reach g start_node u;
  seq_inv_closed :
    ∀ u v, u ∈ hist → v ∈ adj (node_at g u) → v ∈ hist ++ q;
  seq_inv_occ :
    occ = length (filter (λ u, matches g search_value u = true) hist);
  seq_inv_start : start_node ∈ hist ++ q
}.

(** * bfs_thread.cpp: the parallel engine *)

(** ** The worker routine as atomic steps

    Workers run concurrently between two rendezvous.  All they share is the
    read-only frontier and the [visited] array, which they read and write
    without a lock.  A worker's routine is therefore cut at every access to
    [visited]: the test [visited[val] == 0] is one step and the later write
    [visited[val] = 1] another, so two workers may both pass the test for
    the same [val] before either writes. *)

(** [visited[val] == 0] on the shared [vector<int>] *)
Definition unvisited (visited : list nat) (val : nat) : bool :=
  default 0 (visited !! val) =? 0.

(** Where a worker stands inside [f_node]. *)
Inductive phase :=
  | Scan              (* at a loop head: next adjacency entry or next index *)
  | Push (val : nat)  (* the test on [val] succeeded, [push_back(val)] is next *)
  | Mark (val : nat). (* [val] is pushed, [visited[val] = 1] is next *)

Record worker := {
  todo : list nat;                 (* frontier indices still to visit this round *)
  nbrs : list nat;                 (* rest of the adjacency list being scanned *)
  pc : phase;
  partial_new_frontier : list nat; (* [partial_new_frontier[thread_no]] *)
  partial_occurrences : nat;
  taken : list nat                 (* history: the nodes passed to [f_node] *)
}.

(** One atomic step of a worker on the shared [visited] array. *)
Definition worker_step (g : Graph) (search_value : Z) (frontier : list nat)
    (visited : list nat) (w : worker) : list nat * worker :=
  match pc w with
  | Push val =>
      (visited,
       {| todo := todo w; nbrs := nbrs w; pc := Mark val;
          partial_new_frontier := partial_new_frontier w ++ [val];
          partial_occurrences := partial_occurrences w; taken := taken w |})
  | Mark val =>
      (<[val := 1]> visited,
       {| todo := todo w; nbrs := nbrs w; pc := Scan;
          partial_new_frontier := partial_new_frontier w;
          partial_occurrences := partial_occurrences w; taken := taken w |})
  | Scan =>
      match nbrs w with
      | val :: rest =>
          (visited,
           {| todo := todo w; nbrs := rest;
              pc := if unvisited visited val then Push val else Scan;
              partial_new_frontier := partial_new_frontier w;
              partial_occurrences := partial_occurrences w;
              taken := taken w |})
      | [] =>
          match todo w with
          | j :: rest =>
              let curr_node := default 0 (frontier !! j) in
              (visited,
               {| todo := rest; nbrs := adj (node_at g curr_node); pc := Scan;
                  partial_new_frontier := partial_new_frontier w;
                  partial_occurrences :=
                    if matches g search_value curr_node
                    then S (partial_occurrences w)
                    else partial_occurrences w;
                  taken := taken w ++ [curr_node] |})
          | [] => (visited, w)
          end
      end
  end.

(** The worker has left its index loops and is about to call
    [barrier->WorkerWait()]. *)
Definition worker_done (w : worker) : Prop :=
  pc w = Scan ∧ nbrs w = [] ∧ todo w = [].

(** An upper bound on the steps a worker still takes this round. *)
Definition steps_left (g : Graph) (frontier : list nat) (w : worker) : nat :=
  match pc w with Scan => 0 | Push _ => 2 | Mark _ => 1 end +
  3 * length (nbrs w) +
  sum_list ((λ j, 1 + 3 * length (adj (node_at g (default 0 (frontier !! j)))))
              <$> todo w).

Section round.
Variables (g : Graph) (search_value : Z) (frontier : list nat).

(** The scheduler lets worker [t] take one step. *)
Definition sched_step (t : nat) (st : list nat * list worker)
    : list nat * list worker :=
  match st.2 !! t with
  | Some w =>
      let r := worker_step g search_value frontier st.1 w in
      (r.1, <[t := r.2]> st.2)
  | None => st
  end.

(** Worker [t] runs on its own until it reaches the barrier. *)
Definition drain (st : list nat * list worker) (t : nat)
    : list nat * list worker :=
  Nat.iter (from_option (steps_left g frontier) 0 (st.2 !! t)) (sched_step t) st.

(** One round between two rendezvous: the workers' steps interleave as
    [schedule] says, one entry per step; workers the schedule leaves short of
    the barrier then run to it.  Every complete interleaving is of this form
    (see [run_round_complete]). *)
Definition run_round (schedule : list nat) (st : list nat * list worker)
    : list nat * list worker :=
  foldl drain (foldl (λ st t, sched_step t st) st schedule)
    (seq 0 (length st.2)).
End round.

(** ** The orchestrator *)

Record orch := {
  curr_frontier : list nat;
  visited : list nat;
  workers : list worker
}.

Definition idle_worker : worker :=
  {| todo := []; nbrs := []; pc := Scan;
     partial_new_frontier := []; partial_occurrences := 0; taken := [] |}.

(** [partial_new_frontier[i].clear()] *)
Definition clear_buffer (w : worker) : worker :=
  {| todo := todo w; nbrs := nbrs w; pc := pc w;
     partial_new_frontier := []; partial_occurrences := partial_occurrences w;
     taken := taken w |}.

Section engine.
Variables (g : Graph) (search_value : Z) (n_workers : nat).
(** What the two functions of bfs_thread.cpp differ in: the index loops at
    the head of the worker routine, and whether the new frontier is sorted. *)
Variable assign : policy.
Variable normalize : list nat → list nat.
(** The interleaving of each round. *)
Variable sched : nat → list nat.
(** The order in which [merging_set], an [unordered_set], is iterated in
    each round, given what was inserted. *)
Variable uset_iter : nat → list nat → list nat.

(** Head of the worker's [while] body: [curr_size], [number_of_chunks] and
    [extra_chunk] fix the indices the worker visits this round. *)
Definition begin_round (frontier : list nat) (thread_no : nat) (w : worker)
    : worker :=
  {| todo := assign (length frontier) n_workers thread_no;
     nbrs := []; pc := Scan;
     partial_new_frontier := partial_new_frontier w;
     partial_occurrences := partial_occurrences w;
     taken := taken w |}.

(** The merging phase: every buffer is inserted into [merging_set], the set
    is copied into [curr_frontier], which is then normalized. *)
Definition merge_frontier (k : nat) (ws : list worker) : list nat :=
  normalize (uset_iter k (ws ≫= partial_new_frontier)).

(** The [visited] array and the workers at the end of round [k], every
    worker having run its index loops and standing before
    [barrier->WorkerWait()]: what the orchestrator finds in iteration [k] if
    it returns from [MasterWait] (whether it does is
    [WithBarrier.rendezvous]). *)
Definition round_end (k : nat) (st : orch) : list nat * list worker :=
  run_round g search_value (curr_frontier st) (sched k)
    (visited st, imap (begin_round (curr_frontier st)) (workers st)).

(** The round and the merging phase of one iteration of the
    orchestrator's [while (!curr_frontier.empty())]; the calls of the barrier
    between the two are in [WithBarrier.orch_loop]. *)
Definition round_body (k : nat) (st : orch) : orch :=
  let r := round_end k st in
  {| curr_frontier := merge_frontier k r.2;
     visited := r.1;
     workers := clear_buffer <$> r.2 |}.

Definition init_state (start_node : nat) : orch :=
  {| curr_frontier := [start_node];
     visited := <[start_node := 1]> (replicate (n_nodes g) 0);
     workers := replicate n_workers idle_worker |}.

(** The rounds from round [k] on, up to the first empty frontier, every
    rendezvous taken as complete; [fuel] bounds the number of rounds.  This
    is the loop of [ff_bfs], where a round is one call of the library's
    parallel loop.  The loop of bfs_thread.cpp also calls [StartWorkers] and
    [MasterWait], which may block: that loop is [WithBarrier.orch_loop],
    which ends in the state given here whenever it ends
    ([WithBarrierFacts.run_orch_loop]). *)
Fixpoint orch_loop (fuel k : nat) (st : orch) : option orch :=
  match curr_frontier st with
  | [] => Some st
  | _ :: _ =>
      match fuel with
      | 0 => None
      | S fuel' => orch_loop fuel' (S k) (round_body k st)
      end
  end.

(** The state at the head of the [k]-th iteration. *)
Fixpoint state_at (start_node k : nat) : orch :=
  match k with
  | 0 => init_state start_node
  | S k' => round_body k' (state_at start_node k')
  end.

(** The frontier nodes of the rounds before the [k]-th, in the order the
    rounds took them. *)
Fixpoint processed (start_node k : nat) : list nat :=
  match k with
  | 0 => []
  | S k' => processed start_node k' ++ curr_frontier (state_at start_node k')
  end.

(** The local reduce: [total_occurrences += partial_results[i]]. *)
Definition total_occurrences (st : orch) : nat :=
  sum_list (partial_occurrences <$> workers st).

(** The count after the rounds: what the search returns if every
    rendezvous completes. *)
Definition engine (fuel : nat) (start_node : nat) : option nat :=
  total_occurrences <$> orch_loop fuel 0 (init_state start_node).
End engine.

(** [sort(curr_frontier.begin(), curr_frontier.end())] *)
Definition sort : list nat → list nat := merge_sort (≤).

(** The rounds of [parallel_bfs] and the count after them, every
    rendezvous taken as complete; the function with its barrier, which may
    block instead of returning, is [WithBarrier.parallel_bfs]. *)
Definition parallel_bfs (fuel : nat) (sched : nat → list nat)
    (uset_iter : nat → list nat → list nat)
    (g : Graph) (start_node : nat) (search_value : Z) (n_workers : nat)
    : option nat :=
  engine g search_value n_workers (chunked_policy CHUNK_SIZE) sort
    sched uset_iter fuel start_node.

(** The state of [parallel_bfs] at the head of the [k]-th iteration of the
    orchestrator's loop, when the loop gets there, and the state the rounds
    end in. *)
Definition parallel_bfs_state (sched : nat → list nat)
    (uset_iter : nat → list nat → list nat)
    (g : Graph) (start_node : nat) (search_value : Z) (n_workers k : nat)
    : orch :=
  state_at g search_value n_workers (chunked_policy CHUNK_SIZE) sort
    sched uset_iter start_node k.

Definition parallel_bfs_run (fuel : nat) (sched : nat → list nat)
    (uset_iter : nat → list nat → list nat)
    (g : Graph) (start_node : nat) (search_value : Z) (n_workers : nat)
    : option orch :=
  orch_loop g search_value n_workers (chunked_policy CHUNK_SIZE) sort
    sched uset_iter fuel 0 (init_state g n_workers start_node).

(** The static variant (its marker array is called [d]) leaves the frontier
    in the set's iteration order.  As for [parallel_bfs], these are its
    rounds; with its barrier it is [WithBarrier.__parallel_bfs_static]. *)
Definition __parallel_bfs_static (fuel : nat) (sched : nat → list nat)
    (uset_iter : nat → list nat → list nat)
    (g : Graph) (start_node : nat) (search_value : Z) (n_workers : nat)
    : option nat :=
  engine g search_value n_workers static_policy id
    sched uset_iter fuel start_node.

(** An iteration order of an [unordered_set]: each inserted element once. *)
Definition uset_iter_ok (uset_iter : nat → list nat → list nat) : Prop :=
  ∀ k l, uset_iter k l ≡ₚ remove_dups l.

(** * Invariants of a round *)

Definition marked (vis : list nat) (u : nat) : Prop := unvisited vis u = false.

(** The nodes a round discovers: unmarked when it starts and adjacent to a
    frontier node.  [V] is the [visited] array at the start of the round. *)
Definition discovered (g : Graph) (frontier V : list nat) (u : nat) : Prop :=
  unvisited V u = true ∧ ∃ x, x ∈ frontier ∧ u ∈ adj (node_at g x).

(** The worker has tested [u] and not yet marked it. *)
Definition in_flight (w : worker) (u : nat) : Prop :=
  pc w = Push u ∨ pc w = Mark u.

(** The worker will still come across [u] this round. *)
Definition pending (g : Graph) (frontier : list nat) (w : worker) (u : nat)
    : Prop :=
  in_flight w u ∨ u ∈ nbrs w ∨
  ∃ j x, j ∈ todo w ∧ frontier !! j = Some x ∧ u ∈ adj (node_at g x).

Definition worker_valid (g : Graph) (frontier : list nat) (w : worker) : Prop :=
  (∀ j, j ∈ todo w → j < length frontier) ∧
  (∀ u, u ∈ nbrs w → ∃ x, x ∈ frontier ∧ u ∈ adj (node_at g x)).

Record round_inv (g : Graph) (frontier V : list nat)
    (st : list nat * list worker) : Prop := {
  ri_length : length st.1 = length V;
  ri_mono : ∀ u, marked V u → marked st.1 u;
  ri_marked : ∀ u, marked st.1 u →
    marked V u ∨ Exists (λ w, u ∈ partial_new_frontier w) st.2;
  ri_sound : Forall (λ w, ∀ u, u ∈ partial_new_frontier w ∨ in_flight w u →
                      discovered g frontier V u) st.2;
  ri_complete : ∀ u, discovered g frontier V u →
    marked st.1 u ∨ Exists (λ w, pending g frontier w u) st.2;
  ri_pushed : Forall (λ w, ∀ u, pc w = Mark u → u ∈ partial_new_frontier w) st.2;
  ri_valid : Forall (worker_valid g frontier) st.2
}.

(** Matches a worker has counted plus those among the frontier nodes it has
    still to visit: constant during a round. *)
Definition worker_account (g : Graph) (search_value : Z) (frontier : list nat)
    (w : worker) : nat :=
  partial_occurrences w +
  length (filter (λ u, matches g search_value u = true)
            ((λ j, default 0 (frontier !! j)) <$> todo w)).

(** The nodes a worker has passed to [f_node] followed by the frontier nodes
    it has still to visit: constant during a round. *)
Definition worker_trace (frontier : list nat) (w : worker) : list nat :=
  taken w ++ ((λ j, default 0 (frontier !! j)) <$> todo w).

(** * Invariant of the orchestrator's loop

    [done_] lists the frontier nodes of the rounds already run. *)
Record orch_inv (g : Graph) (start_node : nat) (search_value : Z)
    (n_workers : nat) (done_ : list nat) (st : orch) : Prop := {
  oi_length : length (visited st) = n_nodes g;
  oi_workers : length (workers st) = n_workers;
  oi_buffers : Forall (λ w, partial_new_frontier w = []) (workers st);
  oi_nodup : NoDup (done_ ++ curr_frontier st);
  oi_marked : ∀ u, marked (visited st) u ↔ u ∈ done_ ++ curr_frontier st;
  oi_reach : ∀ u, u ∈ done_ ++ curr_frontier st → reach g start_node u;
  oi_closed : ∀ u v, u ∈ done_ → v ∈ adj (node_at g u) →
    v ∈ done_ ++ curr_frontier st;
  oi_occ : total_occurrences st =
    length (filter (λ u, matches g search_value u = true) done_);
  oi_start : start_node ∈ done_ ++ curr_frontier st;
  oi_taken : concat (taken <$> workers st) ≡ₚ done_
}.

(** * The scenarios of the specification *)

(** Five nodes, edges 0-1, 0-2, 1-3, 2-4 in both directions, every value 7. *)
Definition g5 : Graph :=
  {| n_nodes := 5;
     nodes := [ {| value := 7; adj := [1; 2] |};
                {| value := 7; adj := [0; 3] |};
                {| value := 7; adj := [0; 4] |};
                {| value := 7; adj := [1] |};
                {| value := 7; adj := [2] |} ] |}.

(** A single node. *)
Definition g1 : Graph :=
  {| n_nodes := 1; nodes := [ {| value := 5; adj := [] |} ] |}.

(** Schedules: workers run one after the other; workers 0 and 1 alternate. *)
Definition sched_in_turn : nat → list nat := λ _, [].

Definition sched_alternate : nat → list nat :=
  λ _, [0; 1; 0; 1; 0; 1; 1; 0; 0; 1; 0; 1; 0; 1; 1; 0].

(** Iteration orders of the set: insertion order, and its reverse. *)
Definition uset_insertion : nat → list nat → list nat := λ _, remove_dups.

Definition uset_reverse : nat → list nat → list nat :=
  λ _ l, reverse (remove_dups l).

(** Nodes 0 and 1 joined by an edge, nodes 2 and 3 on their own. *)
Definition g4 : Graph :=
  {| n_nodes := 4;
     nodes := [ {| value := 1; adj := [1] |}; {| value := 1; adj := [0] |};
                {| value := 9; adj := [] |}; {| value := 1; adj := [] |} ] |}.

(** Node 3 is a neighbour of both nodes of the frontier [[1; 2]]. *)
Definition diamond : Graph :=
  {| n_nodes := 4;
     nodes := [ {| value := 1; adj := [1; 2] |}; {| value := 1; adj := [3] |};
                {| value := 1; adj := [3] |}; {| value := 1; adj := [] |} ] |}.

(** Workers 0 and 1 in lockstep: both test a flag before either sets it. *)
Definition sched_lockstep : nat → list nat := λ _, [0; 1; 0; 1; 0; 1; 0; 1].

(** * bfs_thread.cpp: class Barrier

    The protocol between the orchestrator (the master) and the workers as a
    transition system.  A step is one statement of [MasterWait],
    [StartWorkers] or [WorkerWait]; taking a lock is a step that is enabled
    only while the mutex is free.  [cond.wait(lock, pred)] is the loop
    [while (!pred()) cond.wait(lock)]: the predicate is evaluated with the
    mutex held, and [cond.wait(lock)] releases the mutex and blocks in one
    step; a thread that was notified takes the mutex again before it
    re-evaluates the predicate.  A notification wakes only threads that are
    blocked at that moment.

    [m_count] and [m_generation] are read and written with [w_mutex] held
    only, so the statements of [WorkerWait] from taking the lock to the
    decrement (with the reset, if it applies) form one step.  [stop_master]
    is written with [w_mutex] held and read with [m_mutex] held: its
    accesses are steps of their own. *)

Module Barrier.

Inductive thread := Master | Worker (t : nat).

Global Instance thread_eq_dec : EqDecision thread.
Proof. solve_decision. Defined.

(** Program points of the orchestrator. *)
Inductive master_pc :=
  | MLockM      (* MasterWait: [unique_lock m_lock{m_mutex}] *)
  | MCheck      (* the predicate [stop_master] *)
  | MBlock      (* predicate false: [m_cond.wait(m_lock)] *)
  | MWaiting    (* blocked on [m_cond] *)
  | MWoken      (* notified: take [m_mutex] again *)
  | MReset      (* [stop_master = false] *)
  | MUnlockM    (* end of MasterWait: [m_lock] released *)
  | MMerge      (* the merging phase *)
  | MLockW      (* StartWorkers: [unique_lock w_lock{w_mutex}] *)
  | MInc        (* [m_generation++] *)
  | MNotifyAll  (* [w_cond.notify_all()] *)
  | MUnlockW.   (* end of StartWorkers: [w_lock] released *)

(** Program points of a worker. *)
Inductive worker_pc :=
  | WWork       (* the index loops of the round *)
  | WLock       (* WorkerWait: lock, [l_gen = m_generation], [--m_count] *)
  | WSetStop    (* last to arrive: [stop_master = true] *)
  | WNotify     (* [m_cond.notify_one()] *)
  | WCheck      (* the predicate [l_gen != m_generation] *)
  | WBlock      (* predicate false: [w_cond.wait(w_lock)] *)
  | WWaiting    (* blocked on [w_cond] *)
  | WWoken      (* notified: take [w_mutex] again *)
  | WUnlock.    (* end of WorkerWait: [w_lock] released *)

Global Instance master_pc_eq_dec : EqDecision master_pc.
Proof. solve_decision. Defined.

Global Instance worker_pc_eq_dec : EqDecision worker_pc.
Proof. solve_decision. Defined.

(** A worker: [wround] counts the calls of [WorkerWait] it has returned
    from, the index of the round it works on (a history variable). *)
Record wstate := { wpc : worker_pc; l_gen : Z; wround : nat }.

(** The barrier object and the threads around it.  [m_generation] is a
    [size_t], a [Z] below [2^64]; [mround] counts the executions of
    [m_generation++] (a history variable). *)
Record system := {
  m_threshold : nat;
  m_count : nat;
  m_generation : Z;
  stop_master : bool;
  w_mutex : option thread;
  m_mutex : option thread;
  mpc : master_pc;
  mround : nat;
  wks : list wstate
}.

Definition size_max : Z := 2 ^ 64.

(** [Barrier(n_workers)], the workers created and running round 0, the
    orchestrator entering its first [MasterWait]. *)
Definition init (n_workers : nat) : system :=
  {| m_threshold := n_workers; m_count := n_workers; m_generation := 0;
     stop_master := false; w_mutex := None; m_mutex := None;
     mpc := MLockM; mround := 0;
     wks := replicate n_workers {| wpc := WWork; l_gen := 0; wround := 0 |} |}.

Definition set_mpc (pc : master_pc) (s : system) : system :=
  {| m_threshold := m_threshold s; m_count := m_count s;
     m_generation := m_generation s; stop_master := stop_master s;
     w_mutex := w_mutex s; m_mutex := m_mutex s;
     mpc := pc; mround := mround s; wks := wks s |}.

Definition set_worker (t : nat) (w : wstate) (s : system) : system :=
  {| m_threshold := m_threshold s; m_count := m_count s;
     m_generation := m_generation s; stop_master := stop_master s;
     w_mutex := w_mutex s; m_mutex := m_mutex s;
     mpc := mpc s; mround := mround s; wks := <[t := w]> (wks s) |}.

Definition set_w_mutex (o : option thread) (s : system) : system :=
  {| m_threshold := m_threshold s; m_count := m_count s;
     m_generation := m_generation s; stop_master := stop_master s;
     w_mutex := o; m_mutex := m_mutex s;
     mpc := mpc s; mround := mround s; wks := wks s |}.

Definition set_m_mutex (o : option thread) (s : system) : system :=
  {| m_threshold := m_threshold s; m_count := m_count s;
     m_generation := m_generation s; stop_master := stop_master s;
     w_mutex := w_mutex s; m_mutex := o;
     mpc := mpc s; mround := mround s; wks := wks s |}.

Definition set_stop_master (b : bool) (s : system) : system :=
  {| m_threshold := m_threshold s; m_count := m_count s;
     m_generation := m_generation s; stop_master := b;
     w_mutex := w_mutex s; m_mutex := m_mutex s;
     mpc := mpc s; mround := mround s; wks := wks s |}.

Definition set_m_count (n : nat) (s : system) : system :=
  {| m_threshold := m_threshold s; m_count := n;
     m_generation := m_generation s; stop_master := stop_master s;
     w_mutex := w_mutex s; m_mutex := m_mutex s;
     mpc := mpc s; mround := mround s; wks := wks s |}.

(** [m_generation++] on a [size_t] *)
Definition incr_generation (s : system) : system :=
  {| m_threshold := m_threshold s; m_count := m_count s;
     m_generation := (m_generation s + 1) mod size_max;
     stop_master := stop_master s;
     w_mutex := w_mutex s; m_mutex := m_mutex s;
     mpc := mpc s; mround := S (mround s); wks := wks s |}.

Definition set_wpc (pc : worker_pc) (w : wstate) : wstate :=
  {| wpc := pc; l_gen := l_gen w; wround := wround w |}.

(** A notification reaches the worker only if it is blocked. *)
Definition wake (w : wstate) : wstate :=
  if decide (wpc w = WWaiting) then set_wpc WWoken w else w.

Definition notify_all (s : system) : system :=
  {| m_threshold := m_threshold s; m_count := m_count s;
     m_generation := m_generation s; stop_master := stop_master s;
     w_mutex := w_mutex s; m_mutex := m_mutex s;
     mpc := mpc s; mround := mround s; wks := wake <$> wks s |}.

Definition notify_master (s : system) : system :=
  if decide (mpc s = MWaiting) then set_mpc MWoken s else s.

(** The next statement of the orchestrator; [None] when it is blocked. *)
Definition master_next (s : system) : option system :=
  match mpc s with
  | MLockM =>
      match m_mutex s with
      | Some _ => None
      | None => Some (set_mpc MCheck (set_m_mutex (Some Master) s))
      end
  | MCheck => Some (set_mpc (if stop_master s then MReset else MBlock) s)
  | MBlock => Some (set_mpc MWaiting (set_m_mutex None s))
  | MWaiting => None
  | MWoken =>
      match m_mutex s with
      | Some _ => None
      | None => Some (set_mpc MCheck (set_m_mutex (Some Master) s))
      end
  | MReset => Some (set_mpc MUnlockM (set_stop_master false s))
  | MUnlockM => Some (set_mpc MMerge (set_m_mutex None s))
  | MMerge => Some (set_mpc MLockW s)
  | MLockW =>
      match w_mutex s with
      | Some _ => None
      | None => Some (set_mpc MInc (set_w_mutex (Some Master) s))
      end
  | MInc => Some (set_mpc MNotifyAll (incr_generation s))
  | MNotifyAll => Some (set_mpc MUnlockW (notify_all s))
  | MUnlockW => Some (set_mpc MLockM (set_w_mutex None s))
  end.

(** The next statement of worker [t]; [None] when it is blocked. *)
Definition worker_next (t : nat) (s : system) : option system :=
  match wks s !! t with
  | None => None
  | Some w =>
      match wpc w with
      | WWork => Some (set_worker t (set_wpc WLock w) s)
      | WLock =>
          match w_mutex s with
          | Some _ => None
          | None =>
              let last := bool_decide (m_count s - 1 = 0) in
              Some (set_worker t
                      {| wpc := if last then WSetStop else WCheck;
                         l_gen := m_generation s; wround := wround w |}
                      (set_m_count (if last then m_threshold s
                                    else m_count s - 1)
                         (set_w_mutex (Some (Worker t)) s)))
          end
      | WSetStop =>
          Some (set_worker t (set_wpc WNotify w) (set_stop_master true s))
      | WNotify => Some (set_worker t (set_wpc WCheck w) (notify_master s))
      | WCheck =>
          Some (set_worker t
                  (set_wpc (if bool_decide (l_gen w ≠ m_generation s)
                            then WUnlock else WBlock) w) s)
      | WBlock =>
          Some (set_worker t (set_wpc WWaiting w) (set_w_mutex None s))
      | WWaiting => None
      | WWoken =>
          match w_mutex s with
          | Some _ => None
          | None => Some (set_worker t (set_wpc WCheck w)
                            (set_w_mutex (Some (Worker t)) s))
          end
      | WUnlock =>
          Some (set_worker t
                  {| wpc := WWork; l_gen := l_gen w; wround := S (wround w) |}
                  (set_w_mutex None s))
      end
  end.

(** What the scheduler may pick: a thread to run its next statement, or a
    blocked thread to wake up spuriously. *)
Inductive action := Run (th : thread) | Spurious (th : thread).

Definition exec (a : action) (s : system) : option system :=
  match a with
  | Run Master => master_next s
  | Run (Worker t) => worker_next t s
  | Spurious Master =>
      if decide (mpc s = MWaiting) then Some (set_mpc MWoken s) else None
  | Spurious (Worker t) =>
      match wks s !! t with
      | Some w =>
          if decide (wpc w = WWaiting)
          then Some (set_worker t (set_wpc WWoken w) s) else None
      | None => None
      end
  end.

Fixpoint run (trace : list action) (s : system) : option system :=
  match trace with
  | [] => Some s
  | a :: trace' =>
      match exec a s with
      | Some s' => run trace' s'
      | None => None
      end
  end.

(** No thread can run: only a spurious wake-up would let the system move. *)
Definition stuck (s : system) : Prop := ∀ th, exec (Run th) s = None.

(** ** Invariant *)

(** Program points of [WorkerWait] past the decrement of [m_count] at which
    the worker has not seen a new generation. *)
Definition at_barrier (pc : worker_pc) : bool :=
  match pc with
  | WSetStop | WNotify | WCheck | WBlock | WWaiting | WWoken => true
  | WWork | WLock | WUnlock => false
  end.

(** Worker [w] has announced its arrival in round [r]. *)
Definition arrivedb (r : nat) (w : wstate) : bool :=
  bool_decide (wround w = r) && at_barrier (wpc w).

Definition arrived (s : system) (w : wstate) : Prop :=
  wround w = mround s ∧ l_gen w = m_generation s ∧ at_barrier (wpc w) = true.

(** Worker [w] is at the work of the current round. *)
Definition working (s : system) (w : wstate) : Prop :=
  wround w = mround s ∧
  match wpc w with WWork | WLock => True | _ => False end.

(** The generation has advanced and worker [w] has not yet left
    [WorkerWait]. *)
Definition released (s : system) (w : wstate) : Prop :=
  S (wround w) = mround s ∧ l_gen w ≠ m_generation s ∧
  match wpc w with WCheck | WWaiting | WWoken | WUnlock => True | _ => False end.

(** The number of workers still to arrive in the current round. *)
Definition missing (s : system) : nat :=
  length (filter (λ w, arrivedb (mround s) w = false) (wks s)).

Definition holds_w_mutex (pc : worker_pc) : Prop :=
  match pc with
  | WSetStop | WNotify | WCheck | WBlock | WUnlock => True
  | WWork | WLock | WWaiting | WWoken => False
  end.

Definition master_holds_w_mutex (pc : master_pc) : Prop :=
  match pc with MInc | MNotifyAll | MUnlockW => True | _ => False end.

(** The orchestrator has seen the round complete and has not yet advanced
    the generation. *)
Definition round_over (pc : master_pc) : Prop :=
  match pc with
  | MReset | MUnlockM | MMerge | MLockW | MInc => True
  | _ => False
  end.

(** Between the reset of [stop_master] and the next [MasterWait]. *)
Definition after_reset (pc : master_pc) : Prop :=
  match pc with
  | MUnlockM | MMerge | MLockW | MInc | MNotifyAll | MUnlockW => True
  | _ => False
  end.

Record inv (s : system) : Prop := {
  inv_workers : length (wks s) = m_threshold s;
  inv_generation : (0 ≤ m_generation s < size_max)%Z;
  inv_w_mutex_master :
    master_holds_w_mutex (mpc s) ↔ w_mutex s = Some Master;
  inv_w_mutex_worker : ∀ t w, wks s !! t = Some w →
    holds_w_mutex (wpc w) ↔ w_mutex s = Some (Worker t);
  inv_class : ∀ t w, wks s !! t = Some w →
    arrived s w ∨ working s w ∨ released s w;
  inv_count :
    (0 < missing s → m_count s = missing s) ∧
    (missing s = 0 → m_count s = m_threshold s);
  inv_round_over : round_over (mpc s) →
    missing s = 0 ∧ ∀ t w, wks s !! t = Some w → wpc w ≠ WSetStop;
  inv_stop_master : stop_master s = true →
    missing s = 0 ∧ ∀ t w, wks s !! t = Some w → wpc w ≠ WSetStop;
  inv_set_stop : ∀ t w, wks s !! t = Some w → wpc w = WSetStop →
    missing s = 0 ∧ stop_master s = false;
  inv_reset : after_reset (mpc s) → stop_master s = false
}.

(** The trace on which the completion notification is lost, with one
    worker: the orchestrator evaluates the predicate of its wait, the worker
    then goes through [WorkerWait] up to its own wait, and only then does
    the orchestrator block. *)
Definition lost_wakeup_trace : list action :=
  [ Run Master;      (* MasterWait: m_mutex taken *)
    Run Master;      (* predicate: stop_master is false *)
    Run (Worker 0);  (* the work of round 0 is done *)
    Run (Worker 0);  (* WorkerWait: m_count drops to 0 and is reset *)
    Run (Worker 0);  (* stop_master = true *)
    Run (Worker 0);  (* m_cond.notify_one(): nobody is blocked on m_cond *)
    Run (Worker 0);  (* predicate: l_gen == m_generation *)
    Run (Worker 0);  (* w_cond.wait: the worker blocks *)
    Run Master ].    (* m_cond.wait: the orchestrator blocks *)

End Barrier.
(** * bfs_thread.cpp: the orchestrator's loop with its barrier calls

    [orch_loop] and [engine] above are the loop with every rendezvous taken
    as complete.  Here the loop carries the [Barrier] object along: each
    iteration runs the statements of [StartWorkers], [MasterWait] and
    [WorkerWait] that a schedule of the threads picks, and goes on to the
    merging phase only if [MasterWait] has returned.  When it has, the
    workers have finished the round and are inside [WorkerWait]
    ([BarrierFacts.barrier_safe]), so the arrays the orchestrator merges are
    those of [round_end]. *)

Module WithBarrier.

(** How a call ends under the schedule it is given. *)
Inductive call (A : Type) : Type :=
  | Done (a : A)  (* the call returns *)
  | Deadlock      (* no thread can run ([Barrier.stuck]): short of a spurious
                     wake-up the call never returns *)
  | Unfinished.   (* the schedule (or the fuel) ends before the call returns *)

Arguments Done {A} a.
Arguments Deadlock {A}.
Arguments Unfinished {A}.

Definition call_bind {A B : Type} (c : call A) (f : A → call B) : call B :=
  match c with
  | Done a => f a
  | Deadlock => Deadlock
  | Unfinished => Unfinished
  end.

Definition blocked (next : option Barrier.system) : bool :=
  match next with None => true | Some _ => false end.

(** No thread of the system can run its next statement: [Barrier.stuck] as
    a test. *)
Definition stuckb (b : Barrier.system) : bool :=
  blocked (Barrier.master_next b) &&
  forallb (λ t, blocked (Barrier.worker_next t b))
    (seq 0 (length (Barrier.wks b))).

(** Where the threads stand once [trace] has run: at the test [ready], or
    with no thread able to run, or somewhere on the way. *)
Definition await (ready : Barrier.system → bool) (trace : list Barrier.action)
    (b : Barrier.system) : call Barrier.system :=
  match Barrier.run trace b with
  | Some b' =>
      if ready b' then Done b'
      else if stuckb b' then Deadlock
      else Unfinished
  | None => Unfinished
  end.

(** [MasterWait] of iteration [k] has returned: the orchestrator is at the
    merging phase and has called [StartWorkers] [k] times. *)
Definition at_merge (k : nat) (b : Barrier.system) : bool :=
  bool_decide (Barrier.mpc b = Barrier.MMerge) &&
  bool_decide (Barrier.mround b = k).

(** Iteration [k] of the loop up to the merging phase:
    [if (!first_iteration) barrier->StartWorkers();] and
    [barrier->MasterWait();] on the orchestrator's side, the end of the
    previous [WorkerWait], the round and the next [WorkerWait] on the
    workers' side. *)
Definition rendezvous (k : nat) (trace : list Barrier.action)
    (b : Barrier.system) : call Barrier.system :=
  await (at_merge k) trace b.

(** After the loop: [game_over = 1; barrier->StartWorkers();] has returned
    ([K] calls of [StartWorkers] in all) and every worker has left
    [WorkerWait]; it then finds [game_over] set, stores its count and ends,
    so that [join] returns. *)
Definition all_left (K : nat) (b : Barrier.system) : bool :=
  bool_decide (Barrier.mpc b = Barrier.MLockM) &&
  bool_decide (Barrier.mround b = K) &&
  forallb (λ w, bool_decide (Barrier.wpc w = Barrier.WWork) &&
                bool_decide (Barrier.wround w = K)) (Barrier.wks b).

Definition release (K : nat) (trace : list Barrier.action)
    (b : Barrier.system) : call Barrier.system :=
  await (all_left K) trace b.

Section engine.
Variables (g : Graph) (search_value : Z) (n_workers : nat).
Variable assign : policy.
Variable normalize : list nat → list nat.
(** The schedule of the barrier's statements, iteration by iteration, and
    after the loop. *)
Variable bsched : nat → list Barrier.action.
Variable bexit : list Barrier.action.
(** The interleaving of the workers' steps on [visited] in each round. *)
Variable sched : nat → list nat.
Variable uset_iter : nat → list nat → list nat.

(** The orchestrator's [while (!curr_frontier.empty())] from iteration [k]
    on: the number of iterations made, the arrays and the barrier on leaving
    the loop. *)
Fixpoint orch_loop (fuel k : nat) (st : orch) (b : Barrier.system)
    : call (nat * orch * Barrier.system) :=
  match curr_frontier st with
  | [] => Done (k, st, b)
  | _ :: _ =>
      match fuel with
      | 0 => Unfinished
      | S fuel' =>
          call_bind (rendezvous k (bsched k) b) (λ b',
            orch_loop fuel' (S k)
              (round_body g search_value n_workers assign normalize
                 sched uset_iter k st) b')
      end
  end.

Definition run (fuel : nat) (start_node : nat)
    : call (nat * orch * Barrier.system) :=
  orch_loop fuel 0 (init_state g n_workers start_node)
    (Barrier.init n_workers).

(** The whole function: threads created, the loop, the workers released
    and joined, the local reduce. *)
Definition engine (fuel : nat) (start_node : nat) : call nat :=
  call_bind (run fuel start_node) (λ '(K, st, b),
    call_bind (release K bexit b) (λ _, Done (total_occurrences st))).
End engine.

Definition parallel_bfs (fuel : nat) (bsched : nat → list Barrier.action)
    (bexit : list Barrier.action) (sched : nat → list nat)
    (uset_iter : nat → list nat → list nat)
    (g : Graph) (start_node : nat) (search_value : Z) (n_workers : nat)
    : call nat :=
  engine g search_value n_workers (chunked_policy CHUNK_SIZE) sort
    bsched bexit sched uset_iter fuel start_node.

Definition parallel_bfs_run (fuel : nat) (bsched : nat → list Barrier.action)
    (sched : nat → list nat) (uset_iter : nat → list nat → list nat)
    (g : Graph) (start_node : nat) (search_value : Z) (n_workers : nat)
    : call (nat * orch * Barrier.system) :=
  run g search_value n_workers (chunked_policy CHUNK_SIZE) sort
    bsched sched uset_iter fuel start_node.

Definition __parallel_bfs_static (fuel : nat)
    (bsched : nat → list Barrier.action) (bexit : list Barrier.action)
    (sched : nat → list nat) (uset_iter : nat → list nat → list nat)
    (g : Graph) (start_node : nat) (search_value : Z) (n_workers : nat)
    : call nat :=
  engine g search_value n_workers static_policy id
    bsched bexit sched uset_iter fuel start_node.

(** ** Schedules *)

Definition steps (n : nat) (th : Barrier.thread) : list Barrier.action :=
  replicate n (Barrier.Run th).

(** [StartWorkers] from the merging phase on: the lock, the increment, the
    notification, the unlock. *)
Definition start_workers : list Barrier.action := steps 5 Barrier.Master.

(** [MasterWait] with [stop_master] already set: the lock, the predicate,
    the reset, the unlock. *)
Definition master_wait : list Barrier.action := steps 4 Barrier.Master.

(** The workers, woken, leave [WorkerWait] one after the other. *)
Definition leave_in_turn (n_workers : nat) : list Barrier.action :=
  t ← seq 0 n_workers; steps 3 (Barrier.Worker t).

(** The workers finish the round and go through [WorkerWait] to its wait
    one after the other; the last one sets [stop_master] and notifies. *)
Definition arrive_in_turn (n_workers : nat) : list Barrier.action :=
  (t ← seq 0 (n_workers - 1); steps 4 (Barrier.Worker t)) ++
  steps 6 (Barrier.Worker (n_workers - 1)).

(** The schedule on which the orchestrator calls [MasterWait] only when
    every worker is blocked in [WorkerWait]. *)
Definition bsched_in_turn (n_workers : nat) (k : nat) : list Barrier.action :=
  match k with
  | 0 => []
  | S _ => start_workers ++ leave_in_turn n_workers
  end ++ arrive_in_turn n_workers ++ master_wait.

Definition bexit_in_turn (n_workers : nat) : list Barrier.action :=
  start_workers ++ leave_in_turn n_workers.

(** The value of [m_generation] after [r] calls of [StartWorkers]. *)
Definition generation (r : nat) : Z := Z.of_nat r mod Barrier.size_max.

(** The threads while the workers arrive in round [r], [t] of them blocked
    in [WorkerWait] and the others at their work ([l_gen] as their last
    [WorkerWait] left it), the orchestrator at [pc] with [m_mutex] in the
    state [m_mutex]; and when all have arrived. *)
Definition arriving (n_workers r : nat) (l_gen : Z) (pc : Barrier.master_pc)
    (m_mutex : option Barrier.thread) (t : nat) : Barrier.system :=
  {| Barrier.m_threshold := n_workers; Barrier.m_count := n_workers - t;
     Barrier.m_generation := generation r; Barrier.stop_master := false;
     Barrier.w_mutex := None; Barrier.m_mutex := m_mutex;
     Barrier.mpc := pc; Barrier.mround := r;
     Barrier.wks :=
       replicate t {| Barrier.wpc := Barrier.WWaiting;
                      Barrier.l_gen := generation r; Barrier.wround := r |} ++
       replicate (n_workers - t)
         {| Barrier.wpc := Barrier.WWork; Barrier.l_gen := l_gen;
            Barrier.wround := r |} |}.

Definition all_arrived (n_workers r : nat) (pc : Barrier.master_pc)
    (m_mutex : option Barrier.thread) (stop : bool) : Barrier.system :=
  {| Barrier.m_threshold := n_workers; Barrier.m_count := n_workers;
     Barrier.m_generation := generation r; Barrier.stop_master := stop;
     Barrier.w_mutex := None; Barrier.m_mutex := m_mutex;
     Barrier.mpc := pc; Barrier.mround := r;
     Barrier.wks :=
       replicate n_workers
         {| Barrier.wpc := Barrier.WWaiting;
            Barrier.l_gen := generation r; Barrier.wround := r |} |}.

(** [MasterWait] of round [r] has returned on the schedule in turn. *)
Definition round_merged (n_workers r : nat) : Barrier.system :=
  all_arrived n_workers r Barrier.MMerge None false.

(** ... and while the workers, woken in round [r], leave [WorkerWait]. *)
Definition leaving (n_workers r t : nat) : Barrier.system :=
  {| Barrier.m_threshold := n_workers; Barrier.m_count := n_workers;
     Barrier.m_generation := generation (S r); Barrier.stop_master := false;
     Barrier.w_mutex := None; Barrier.m_mutex := None;
     Barrier.mpc := Barrier.MLockM; Barrier.mround := S r;
     Barrier.wks :=
       replicate t {| Barrier.wpc := Barrier.WWork;
                      Barrier.l_gen := generation r;
                      Barrier.wround := S r |} ++
       replicate (n_workers - t)
         {| Barrier.wpc := Barrier.WWoken; Barrier.l_gen := generation r;
            Barrier.wround := r |} |}.

(** The barrier at the head of iteration [k] on that schedule. *)
Definition barrier_at (n_workers k : nat) : Barrier.system :=
  match k with
  | 0 => Barrier.init n_workers
  | S r => round_merged n_workers r
  end.

(** The schedule on which the completion notification is lost, in the
    first iteration: the orchestrator takes [m_mutex] and evaluates the
    predicate of its wait, the workers then finish the round and go through
    [WorkerWait] one after the other, and only then does the orchestrator
    block.  With one worker it is [Barrier.lost_wakeup_trace]. *)
Definition lost_wakeup (n_workers : nat) : list Barrier.action :=
  steps 2 Barrier.Master ++ arrive_in_turn n_workers ++ steps 1 Barrier.Master.

Definition bsched_lost_wakeup (n_workers : nat) (k : nat)
    : list Barrier.action :=
  match k with
  | 0 => lost_wakeup n_workers
  | S _ => []
  end.

End WithBarrier.

From stdpp Require Import strings.

(** * utils.cpp: command line options

    [argv .. argv + argc] is the list of the arguments; an iterator into it
    is an index, [end] the length of the list.  A [char*] result that may be
    the null pointer is an [option]. *)

Module Utils.

(** [std::find(begin, end, option)]: the position of the first argument equal
    to [opt], or [end]. *)
Fixpoint std_find (args : list string) (opt : string) : nat :=
  match args with
  | [] => 0
  | a :: args' => if decide (a = opt) then 0 else S (std_find args' opt)
  end.

(** [if (itr != end && ++itr != end) return *itr; return 0;] *)
Definition getCmdOption (args : list string) (opt : string) : option string :=
  let itr := std_find args opt in
  if negb (itr =? length args) && negb (S itr =? length args)
  then args !! S itr
  else None.

(** [return std::find(begin, end, option) != end;] *)
Definition cmdOptionExists (args : list string) (opt : string) : bool :=
  negb (std_find args opt =? length args).

End Utils.

(** * graph.cpp: the generator

    [uint] is 32 bits wide and [short] 16: the wrap-around of [g_seed] and
    the narrowing to the node's [short] payload are written out.  The
    global [g_seed] is passed in and returned. *)

Definition to_uint (z : Z) : Z := (z mod 2 ^ 32)%Z.

Definition to_short (z : Z) : Z := ((z + 2 ^ 15) mod 2 ^ 16 - 2 ^ 15)%Z.

(** [fastrand()]: the value returned and the new [g_seed]. *)
Definition fastrand (g_seed : Z) : Z * Z :=
  let g_seed' := to_uint (214013 * g_seed + 2531011) in
  (Z.land (Z.shiftr g_seed' 16) 0x7FFF, g_seed').

(** [Graph::Graph(n_nodes)]: one value-initialised [node] per slot.  The
    constructor reserves the vector's storage and fills it through
    [operator[]], as every later access reads it; the model takes the
    [n_nodes] slots as the list. *)
Definition new_Graph (n : nat) : Graph :=
  {| n_nodes := n; nodes := replicate n {| value := 0; adj := [] |} |}.

(** [nodes[n1]->adj.push_back(n2)] *)
Definition add_edge (g : Graph) (n1 n2 : nat) : Graph :=
  {| n_nodes := n_nodes g;
     nodes := alter (λ nd, {| value := value nd; adj := adj nd ++ [n2] |})
                    n1 (nodes g) |}.

(** [nodes[node_i]->value = value] *)
Definition set_value (g : Graph) (node_i : nat) (v : Z) : Graph :=
  {| n_nodes := n_nodes g;
     nodes := alter (λ nd, {| value := v; adj := adj nd |}) node_i (nodes g) |}.

(** A counting loop whose body may fail: [range] lists the values the loop
    variable takes. *)
Fixpoint for_loop {St : Type} (body : nat → St → option St)
    (range : list nat) (st : St) : option St :=
  match range with
  | [] => Some st
  | i :: range' => st' ← body i st; for_loop body range' st'
  end.

Section generate_graph.
Variables (n : nat) (max_value percent : Z).

(** [rr = fastrand(); if ((int) (rr % 100) < percent) g->add_edge(i, j);] *)
Definition edge_body (i : nat) (st : Graph * Z) (j : nat) : Graph * Z :=
  let '(rr, g_seed) := fastrand st.2 in
  (if (rr mod 100 <? percent)%Z then add_edge st.1 i j else st.1, g_seed).

(** [for (uint j = (i + 1); j < n_nodes; j++)] *)
Definition edge_loop (i : nat) (st : Graph * Z) : Graph * Z :=
  foldl (edge_body i) st (seq (S i) (n - S i)).

(** The body of the loop on [i].  The parameter [max_value] is a [short]:
    what the caller passes (the mains pass an [int]) reaches the code
    narrowed, so that 65536 is read as 0.  [fastrand() % max_value] is a
    division of [int]s, truncated towards zero; by zero it is undefined, and
    the model stops with [None]. *)
Definition node_body (i : nat) (st : Graph * Z) : option (Graph * Z) :=
  let st := edge_loop i st in
  let '(r, g_seed) := fastrand st.2 in
  let max_value := to_short max_value in
  if decide (max_value = 0%Z) then None
  else Some (set_value st.1 i (to_short (Z.rem r max_value + 1)), g_seed).

End generate_graph.

(** [Graph::generate_graph(n_nodes, seed, max_value, percent)] with [n] for
    [n_nodes], called with the global at [g_seed]: the graph and the global
    on return.  [seed] is stored into the [uint] global and [max_value] is
    read as a [short]: [to_uint] here and [to_short] in [node_body] are the
    conversions of the arguments. *)
Definition generate_graph (g_seed : Z) (n : nat) (seed max_value percent : Z)
    : option (Graph * Z) :=
  let old_seed := g_seed in
  st ← for_loop (node_body n max_value percent) (seq 0 n)
         (new_Graph n, to_uint seed);
  Some (st.1, old_seed).

(** The generator's random stream, for the statements about it. *)

(** [g_seed] after one call of [fastrand]. *)
Definition next_seed (g_seed : Z) : Z := (fastrand g_seed).2.

(** [g_seed] at the head of the iteration for node [u]: the iteration for
    node [u'] draws once per candidate edge and once for the value. *)
Fixpoint seed_at (n : nat) (seed : Z) (u : nat) : Z :=
  match u with
  | 0 => to_uint seed
  | S u' => Nat.iter (n - u') next_seed (seed_at n seed u')
  end.

(** The candidates [js] that pass the test, drawing from [g_seed] on. *)
Fixpoint rand_edges (percent : Z) (g_seed : Z) (js : list nat) : list nat :=
  match js with
  | [] => []
  | j :: js' =>
      (if ((fastrand g_seed).1 mod 100 <? percent)%Z then [j] else []) ++
      rand_edges percent (next_seed g_seed) js'
  end.

(** The node the generator leaves at index [u]. *)
Definition rand_node (n : nat) (seed max_value percent : Z) (u : nat) : node :=
  let s := seed_at n seed u in
  {| value := to_short (Z.rem (fastrand (Nat.iter (n - S u) next_seed s)).1
                              (to_short max_value) + 1);
     adj := rand_edges percent s (seq (S u) (n - S u)) |}.

(** * Distances, for the statements about the rounds *)

(** A path of [n] edges leads from [s] to the node. *)
Inductive walk (g : Graph) (s : nat) : nat → nat → Prop :=
  | walk_O : walk g s 0 s
  | walk_S n u v : walk g s n u → v ∈ adj (node_at g u) → walk g s (S n) v.

(** The shortest path from [s] to [u] has [k] edges. *)
Definition at_distance (g : Graph) (s k u : nat) : Prop :=
  walk g s k u ∧ ∀ n, n < k → ¬ walk g s n u.

(** * bfs_ff.cpp

    [ff_bfs] is the orchestrator's loop of [parallel_bfs] with the rendezvous
    left to FastFlow: each round is one call
    [pfr.parallel_for_thid(0, curr_frontier.size(), 1, -CHUNK_SIZE, f)],
    which returns when [f(i, thread_no)] has run for every index [i].  The
    body of [f] is the body of [f_node] on [curr_frontier[i]]; the count of
    a node is added to the thread's own slot [partial_results[thread_no]].
    Which thread runs which index is the library's choice: [parallel_for]
    gives, for a frontier length and a thread count, the indices each thread
    is handed, in the order it runs them. *)
Definition ff_bfs (parallel_for : policy) (fuel : nat) (sched : nat → list nat)
    (uset_iter : nat → list nat → list nat)
    (g : Graph) (start_node : nat) (search_value : Z) (n_workers : nat)
    : option nat :=
  engine g search_value n_workers parallel_for sort
    sched uset_iter fuel start_node.

(** The state of [__parallel_bfs_static] at the head of the [k]-th iteration
    of the orchestrator's loop. *)
Definition static_bfs_state (sched : nat → list nat)
    (uset_iter : nat → list nat → list nat)
    (g : Graph) (start_node : nat) (search_value : Z) (n_workers k : nat)
    : orch :=
  state_at g search_value n_workers static_policy id
    sched uset_iter start_node k.

(** * bfs_seq.cpp: levels

    What the loop of [sequential_bfs] maintains about distances.  [lv]
    assigns a level to every node enqueued so far: the nodes were enqueued in
    the order of their levels, a node of the queue is at most one level
    above the node at its front, and the level is the length of a path from
    the start node. *)
Record seq_level_inv (g : Graph) (start_node : nat) (lv : nat → nat)
    (q hist : list nat) : Prop := {
  sl_walk : ∀ u, u ∈ hist ++ q → walk g start_node (lv u) u;
  sl_sorted : StronglySorted (λ u v, lv u ≤ lv v) (hist ++ q);
  sl_closed : ∀ u v, u ∈ hist → v ∈ adj (node_at g u) →
    v ∈ hist ++ q ∧ lv v ≤ S (lv u);
  sl_queue : ∀ c v, head q = Some c → v ∈ q → lv v ≤ S (lv c);
  sl_start : lv start_node = 0
}.

(** * class Barrier: when can the system stop

    What the analysis of a blocked system needs beyond [Barrier.inv]: who
    can hold the mutexes, that a worker blocked on [w_cond] after the
    generation has advanced is about to be notified, and that a complete
    round is on record in [stop_master] unless a worker is about to set it
    or the orchestrator has already consumed it. *)

Module BarrierProgress.
Import Barrier.

Definition holds_m_mutex (pc : master_pc) : Prop :=
  match pc with MCheck | MBlock | MReset | MUnlockM => True | _ => False end.

Record progress_inv (s : system) : Prop := {
  pi_m_mutex : m_mutex s = None ∨ holds_m_mutex (mpc s);
  pi_w_owner : ∀ t, w_mutex s = Some (Worker t) → t < length (wks s);
  pi_released : ∀ t w, wks s !! t = Some w →
    released s w → wpc w = WWaiting → mpc s = MNotifyAll;
  pi_complete : 1 ≤ m_threshold s → missing s = 0 →
    stop_master s = true ∨
    (∃ t w, wks s !! t = Some w ∧ wpc w = WSetStop) ∨
    round_over (mpc s)
}.

End BarrierProgress.

(** * graph.cpp: the generator by edge count

    [generate_graph_fast] draws from the C library's [rand()], which is not
    part of the sources: [rand c] is the value of the [c]-th call after
    [srand(seed)], a number from 0 to [RAND_MAX].  A [std::set<int>] is the
    strictly increasing list of its elements, the order in which it is
    iterated. *)

Inductive outcome (A : Type) : Type :=
  | Returns (a : A)
  | Undefined   (* a division by zero *)
  | OutOfFuel.  (* the loop is still running *)

Arguments Returns {A} a.
Arguments Undefined {A}.
Arguments OutOfFuel {A}.

(** [s.insert(x)]: the set afterwards, and [.second], whether [x] is new. *)
Fixpoint set_insert (x : nat) (s : list nat) : list nat * bool :=
  match s with
  | [] => ([x], true)
  | y :: s' =>
      if x <? y then (x :: s, true)
      else if x =? y then (s, false)
      else let r := set_insert x s' in (y :: r.1, r.2)
  end.

(** [nodes[i]->adj.insert(nodes[i]->adj.end(), first, last)] *)
Definition append_adj (g : Graph) (i : nat) (l : list nat) : Graph :=
  {| n_nodes := n_nodes g;
     nodes := alter (λ nd, {| value := value nd; adj := adj nd ++ l |})
                    i (nodes g) |}.

Section generate_graph_fast.
Variable rand : nat → nat.
(** In [(i = ran(n_nodes)) == (j = ran(n_nodes))] the order of the two calls
    is unspecified: [order k] tells whether the [k]-th evaluation calls the
    right operand's [ran] first. *)
Variable order : nat → bool.
Variables (n n_edges : nat) (max_value : Z).

(** [ran(k)], the [c]-th call of [rand()]: [rand() % k] *)
Definition ran (k c : nat) : nat := rand c mod k.

(** [i] and [j] after the two assignments of the [k]-th evaluation. *)
Definition draw (k : nat) : nat * nat :=
  if order k then (ran n (2 * k + 1), ran n (2 * k))
  else (ran n (2 * k), ran n (2 * k + 1)).

(** [for (uint count = 0; count < n_edges;)]: the sets and the number of
    evaluations on leaving the loop.  [ran(0)] divides by zero. *)
Fixpoint fast_loop (fuel count : nat) (temp : list (list nat)) (k : nat)
    : outcome (list (list nat) * nat) :=
  if n_edges <=? count then Returns (temp, k)
  else
    match fuel with
    | 0 => OutOfFuel
    | S fuel' =>
        if n =? 0 then Undefined
        else
          let '(i, j) := draw k in
          if i =? j then fast_loop fuel' count temp (S k)
          else
            let '(i, j) := if j <? i then (j, i) else (i, j) in
            let r := set_insert j (temp !!! i) in
            fast_loop fuel' (if r.2 then S count else count)
              (<[i := r.1]> temp) (S k)
    end.

(** The body of the loop of [clear_duplicates], [c] calls of [rand()]
    having been made before the loop.  [max_value] is a [short] parameter,
    read narrowed as in [node_body]. *)
Definition clear_body (dup_set : list (list nat)) (c : nat) (i : nat)
    (g : Graph) : option Graph :=
  let max_value := to_short max_value in
  if decide (max_value = 0%Z) then None
  else Some (set_value (append_adj g i (dup_set !!! i)) i
               (to_short (Z.rem (Z.of_nat (rand (c + i))) max_value + 1))).

Definition clear_duplicates (g : Graph) (dup_set : list (list nat)) (c : nat)
    : option Graph :=
  for_loop (clear_body dup_set c) (seq 0 n) g.

(** [Graph::generate_graph_fast(n_nodes, n_edges, seed, max_value)] with
    [n] for [n_nodes]; the seed has selected [rand]. *)
Definition generate_graph_fast (fuel : nat) : outcome Graph :=
  match fast_loop fuel 0 (replicate n []) 0 with
  | Returns (temp, k) =>
      match clear_duplicates (new_Graph n) temp (2 * k) with
      | Some g => Returns g
      | None => Undefined
      end
  | Undefined => Undefined
  | OutOfFuel => OutOfFuel
  end.
End generate_graph_fast.

(** What the loop of [generate_graph_fast] maintains: one set per node,
    holding higher node ids only, [count] elements in all. *)
Definition fast_inv (n count : nat) (temp : list (list nat)) : Prop :=
  length temp = n ∧
  (∀ i s, temp !! i = Some s →
     StronglySorted lt s ∧ ∀ j, j ∈ s → i < j < n) ∧
  count = sum_list (length <$> temp).

(** * The workers' buffers during a round

    A worker's own buffer holds no node twice: what it has pushed is marked,
    except for the node it has pushed and is about to mark, and a node it is
    about to push is not in the buffer yet. *)
Definition buffer_ok (vis : list nat) (w : worker) : Prop :=
  NoDup (partial_new_frontier w) ∧
  (∀ u, u ∈ partial_new_frontier w → marked vis u ∨ pc w = Mark u) ∧
  (∀ u, pc w = Push u → u ∉ partial_new_frontier w).
(** * Partition lemmas *)

Module ChunkedFacts.
Import Chunked.
Section facts.
Variables (L cs W : nat).
Hypothesis HW : 1 ≤ W.
Hypothesis Hcs : 1 ≤ cs.

Lemma elem_of_chunk_range i j : j ∈ chunk_range cs i ↔ j / cs = i.
Proof.
  unfold chunk_range. rewrite elem_of_seq. split.
  - intros [? ?]. symmetry. apply (Nat.div_unique j cs i (j - i * cs)); lia.
  - intros <-. pose proof (Nat.div_mod_eq j cs).
    pose proof (Nat.mod_upper_bound j cs). nia.
Qed.

Lemma elem_of_chunk_loop fuel i j :
  number_of_chunks L cs - i ≤ fuel →
  j ∈ chunk_loop L cs W fuel i ↔
  j / cs < number_of_chunks L cs ∧ ∃ k, j / cs = i + k * W.
Proof.
  revert i. induction fuel as [|fuel IH]; intros i Hf; simpl.
  - split; [by intros ?%elem_of_nil|]. intros [? [k ?]]. nia.
  - destruct (Nat.ltb_spec i (number_of_chunks L cs)) as [Hi|Hi].
    + rewrite elem_of_app, elem_of_chunk_range, IH by lia. split.
      * intros [<-|[? [k ?]]]; [split; [done|exists 0; lia]|].
        split; [done|]. exists (S k). lia.
      * intros [? [[|k] ?]]; [left; lia|right].
        split; [done|]. exists k. lia.
    + split; [by intros ?%elem_of_nil|]. intros [? [k ?]]. nia.
Qed.

Lemma chunk_loop_fuel fuel fuel' i :
  number_of_chunks L cs - i ≤ fuel → number_of_chunks L cs - i ≤ fuel' →
  chunk_loop L cs W fuel i = chunk_loop L cs W fuel' i.
Proof.
  revert fuel' i. induction fuel as [|fuel IH]; intros [|fuel'] i ??; simpl;
    try done.
  - destruct (Nat.ltb_spec i (number_of_chunks L cs)); [lia|done].
  - destruct (Nat.ltb_spec i (number_of_chunks L cs)); [lia|done].
  - destruct (Nat.ltb_spec i (number_of_chunks L cs)); [|done].
    f_equal. apply IH; lia.
Qed.

Lemma NoDup_chunk_loop fuel i :
  number_of_chunks L cs - i ≤ fuel → NoDup (chunk_loop L cs W fuel i).
Proof.
  revert i. induction fuel as [|fuel IH]; intros i Hf; simpl.
  - constructor.
  - destruct (Nat.ltb_spec i (number_of_chunks L cs)); [|constructor].
    apply NoDup_app. split; [apply NoDup_seq|]. split; [|apply IH; lia].
    intros j Hj%elem_of_chunk_range.
    rewrite elem_of_chunk_loop by lia. intros [_ [k ?]]. lia.
Qed.

Lemma elem_of_extra_range j :
  j ∈ extra_range L cs ↔ j < L ∧ ¬ j / cs < number_of_chunks L cs.
Proof.
  unfold extra_range, number_of_chunks. rewrite elem_of_seq.
  pose proof (Nat.div_mod_eq L cs). pose proof (Nat.mod_upper_bound L cs).
  pose proof (Nat.div_mod_eq j cs). pose proof (Nat.mod_upper_bound j cs).
  split.
  - intros [? ?]. split; [lia|]. intros ?. nia.
  - intros [? ?]. split; [|lia].
    destruct (Nat.le_gt_cases (L / cs * cs) j); [done|].
    exfalso. apply H4. apply Nat.Div0.div_lt_upper_bound. lia.
Qed.

Lemma chunk_lt_curr_size j : j / cs < number_of_chunks L cs → j < L.
Proof.
  unfold number_of_chunks. intros.
  pose proof (Nat.div_mod_eq L cs). pose proof (Nat.mod_upper_bound L cs).
  pose proof (Nat.div_mod_eq j cs). pose proof (Nat.mod_upper_bound j cs).
  nia.
Qed.

Lemma extra_chunk_spec t :
  extra_chunk L cs t = true ↔ t = 0 ∧ number_of_chunks L cs * cs < L.
Proof.
  unfold extra_chunk, number_of_chunks.
  rewrite andb_true_iff, Nat.eqb_eq, Nat.ltb_lt.
  pose proof (Nat.div_mod_eq L cs). split; intros [? ?]; split; lia.
Qed.

(** Membership in a worker's index list, in the words of the policy:
    index [j] lies in full chunk [j / cs], which goes to worker
    [(j / cs) mod W]; indices past the last full chunk go to worker 0. *)
Lemma elem_of_worker_indices t j :
  t < W →
  j ∈ worker_indices L cs W t ↔
  j < L ∧ if decide (j / cs < L / cs) then (j / cs) mod W = t else t = 0.
Proof.
  intros Ht. unfold worker_indices.
  rewrite elem_of_app, elem_of_chunk_loop by lia.
  fold (number_of_chunks L cs).
  assert (j ∈ (if extra_chunk L cs t then extra_range L cs else []) ↔
          t = 0 ∧ j < L ∧ ¬ j / cs < number_of_chunks L cs) as ->.
  { destruct (extra_chunk L cs t) eqn:He.
    - apply extra_chunk_spec in He as [-> ?].
      rewrite elem_of_extra_range. tauto.
    - split; [by intros ?%elem_of_nil|]. intros (-> & ? & ?).
      assert (extra_chunk L cs 0 = true); [|congruence].
      apply extra_chunk_spec. split; [done|].
      destruct (Nat.le_gt_cases L (number_of_chunks L cs * cs)); [|done].
      exfalso. apply H0. unfold number_of_chunks in *.
      pose proof (Nat.div_mod_eq L cs). pose proof (Nat.mod_upper_bound L cs).
      assert (L = L / cs * cs) by lia.
      apply Nat.Div0.div_lt_upper_bound.
      pose proof (Nat.div_mod_eq j cs). pose proof (Nat.mod_upper_bound j cs).
      nia. }
  case_decide as Hc.
  - split.
    + intros [[? [k Hk]]|(? & ? & ?)]; [|done].
      split; [by apply chunk_lt_curr_size|].
      rewrite Hk, Nat.Div0.mod_add. by apply Nat.mod_small.
    + intros [? Hm]. left. split; [done|].
      exists (j / cs / W). pose proof (Nat.div_mod_eq (j / cs) W). lia.
  - split.
    + intros [[? ?]|(? & ? & ?)]; done.
    + intros [? ->]. right. done.
Qed.

Lemma NoDup_worker_indices t : t < W → NoDup (worker_indices L cs W t).
Proof.
  intros Ht. unfold worker_indices. apply NoDup_app.
  split; [by apply NoDup_chunk_loop; lia|]. split.
  - intros j. rewrite elem_of_chunk_loop by lia. intros [? _].
    destruct (extra_chunk L cs t); [|by intros ?%elem_of_nil].
    rewrite elem_of_extra_range. tauto.
  - destruct (extra_chunk L cs t); [apply NoDup_seq|constructor].
Qed.

Lemma worker_indices_disjoint t1 t2 j :
  t1 < W → t2 < W →
  j ∈ worker_indices L cs W t1 → j ∈ worker_indices L cs W t2 → t1 = t2.
Proof.
  intros ??. rewrite !elem_of_worker_indices by done.
  intros [_ H1] [_ H2]. case_decide; congruence.
Qed.

Lemma worker_indices_cover j :
  j < L ↔ ∃ t, t < W ∧ j ∈ worker_indices L cs W t.
Proof.
  split.
  - intros Hj. destruct (decide (j / cs < L / cs)) as [Hc|Hc].
    + exists ((j / cs) mod W). split; [apply Nat.mod_upper_bound; lia|].
      rewrite elem_of_worker_indices by (apply Nat.mod_upper_bound; lia).
      split; [done|]. by rewrite decide_True.
    + exists 0. split; [lia|]. rewrite elem_of_worker_indices by lia.
      split; [done|]. by rewrite decide_False.
  - intros (t & Ht & Hj). by apply elem_of_worker_indices in Hj as [? _].
Qed.
End facts.
End ChunkedFacts.

Lemma policy_ok_intro (P : policy) :
  (∀ L W t, 1 ≤ W → t < W → NoDup (P L W t)) →
  (∀ L W t1 t2 j, 1 ≤ W → t1 < W → t2 < W →
     j ∈ P L W t1 → j ∈ P L W t2 → t1 = t2) →
  (∀ L W j, 1 ≤ W → j < L ↔ ∃ t, t < W ∧ j ∈ P L W t) →
  policy_ok P.
Proof.
  intros Hnd Hdis Hcov L W HW. apply NoDup_Permutation.
  - apply NoDup_bind; [|by intros t [_ ?]%elem_of_seq; apply Hnd; lia|apply NoDup_seq].
    intros t1 t2 j [_ ?]%elem_of_seq [_ ?]%elem_of_seq. apply Hdis; lia.
  - apply NoDup_seq.
  - intros j. rewrite list_elem_of_bind, elem_of_seq. split.
    + intros (t & ? & [_ ?]%elem_of_seq). split; [lia|]. simpl.
      apply (Hcov L W j HW). exists t. split; [lia|done].
    + intros [_ Hj]. simpl in Hj.
      apply (Hcov L W j HW) in Hj as (t & ? & ?). exists t.
      split; [done|]. apply elem_of_seq. lia.
Qed.

Lemma chunked_policy_ok cs : 1 ≤ cs → policy_ok (chunked_policy cs).
Proof.
  intros Hcs. apply policy_ok_intro; unfold chunked_policy.
  - intros. by apply ChunkedFacts.NoDup_worker_indices.
  - intros L W t1 t2 j ???. by apply ChunkedFacts.worker_indices_disjoint.
  - intros. by apply ChunkedFacts.worker_indices_cover.
Qed.

Module StaticFacts.
Import Static.
Section facts.
Variables (L W : nat).
Hypothesis HW : 1 ≤ W.

Lemma static_elem_of_worker_indices t j :
  t < W →
  j ∈ worker_indices L W t ↔
  j < L ∧ if decide (W < L)
          then (if decide (j / (L / W) < W - 1) then j / (L / W) = t
                else t = W - 1)
          else j = t.
Proof.
  intros Ht. unfold worker_indices, stop, start, delta.
  destruct (Nat.ltb_spec t L) as [HtL|HtL].
  2:{ split; [by intros ?%elem_of_nil|]. intros [? Hj].
      case_decide; [lia|]. lia. }
  rewrite elem_of_seq.
  destruct (Nat.ltb_spec W L) as [HWL|HWL].
  - rewrite decide_True by done.
    assert (1 ≤ L / W) as Hd.
    { apply Nat.div_le_lower_bound; lia. }
    pose proof (Nat.div_mod_eq L W) as HL.
    pose proof (Nat.mod_upper_bound L W ltac:(lia)) as HLm.
    pose proof (Nat.div_mod_eq j (L / W)) as Hj.
    pose proof (Nat.mod_upper_bound j (L / W) ltac:(lia)) as Hjm.
    set (d := L / W) in *. set (q := j / d) in *.
    destruct (Nat.eqb_spec t (W - 1)) as [->|Hne].
    + destruct (Nat.eqb_spec ((W - 1) * d) L) as [He|He]; [nia|].
      split.
      * intros [? ?]. split; [nia|]. case_decide; [nia|done].
      * intros [? Hc]. case_decide; [lia|]. nia.
    + destruct (Nat.eqb_spec (t * d) ((t + 1) * d)) as [He|He]; [nia|].
      split.
      * intros [? ?]. split; [nia|]. case_decide; [nia|nia].
      * intros [? Hc]. case_decide; [nia|lia].
  - rewrite decide_False by lia.
    destruct (Nat.eqb_spec t (W - 1)) as [->|Hne].
    + destruct (Nat.eqb_spec ((W - 1) * 1) L) as [He|He]; lia.
    + destruct (Nat.eqb_spec (t * 1) ((t + 1) * 1)) as [He|He]; lia.
Qed.

Lemma static_NoDup_worker_indices t : NoDup (worker_indices L W t).
Proof. unfold worker_indices. case_match; [apply NoDup_seq|constructor]. Qed.

Lemma static_worker_indices_disjoint t1 t2 j :
  t1 < W → t2 < W →
  j ∈ worker_indices L W t1 → j ∈ worker_indices L W t2 → t1 = t2.
Proof.
  intros ??. rewrite !static_elem_of_worker_indices by done.
  intros [_ H1] [_ H2]. repeat case_decide; congruence.
Qed.

Lemma static_worker_indices_cover j :
  j < L ↔ ∃ t, t < W ∧ j ∈ worker_indices L W t.
Proof.
  split.
  - intros Hj. destruct (decide (W < L)) as [Hc|Hc].
    + destruct (decide (j / (L / W) < W - 1)) as [Hq|Hq].
      * exists (j / (L / W)). split; [lia|].
        rewrite static_elem_of_worker_indices by lia.
        by rewrite decide_True, decide_True.
      * exists (W - 1). split; [lia|].
        rewrite static_elem_of_worker_indices by lia.
        by rewrite decide_True, decide_False.
    + exists j. split; [lia|]. rewrite static_elem_of_worker_indices by lia.
      by rewrite decide_False.
  - intros (t & Ht & Hj). by apply static_elem_of_worker_indices in Hj as [? _].
Qed.
End facts.
End StaticFacts.

Lemma static_policy_ok : policy_ok static_policy.
Proof.
  apply policy_ok_intro; unfold static_policy.
  - intros. apply StaticFacts.static_NoDup_worker_indices.
  - intros L W t1 t2 j ???. by apply StaticFacts.static_worker_indices_disjoint.
  - intros. by apply StaticFacts.static_worker_indices_cover.
Qed.

Lemma reach_count_unique g s sv c1 c2 :
  reach_count g s sv c1 → reach_count g s sv c2 → c1 = c2.
Proof.
  intros (l1 & Hnd1 & Hl1 & ->) (l2 & Hnd2 & Hl2 & ->).
  assert (l1 ≡ₚ l2) as ->; [|done].
  apply NoDup_Permutation; [done..|]. intros u. by rewrite Hl1, Hl2.
Qed.

Lemma wf_graph_adj g u :
  wf_graph g → u < n_nodes g →
  Forall (λ v, v < n_nodes g) (adj (node_at g u)).
Proof.
  intros [Hlen Hadj] Hu. rewrite <-Hlen in Hu.
  destruct (lookup_lt_is_Some_2 _ _ Hu) as [nd Hnd].
  unfold node_at. rewrite (list_lookup_total_correct _ _ _ Hnd).
  by apply (Forall_lookup_1 _ _ _ _ Hadj Hnd).
Qed.

Lemma reach_lt g s u : wf_graph g → s < n_nodes g → reach g s u → u < n_nodes g.
Proof.
  intros Hwf Hs. induction 1 as [|u v _ IH Hv]; [done|].
  pose proof (wf_graph_adj g u Hwf IH) as Hadj.
  rewrite Forall_forall in Hadj. by apply Hadj.
Qed.

(** A set of nodes containing [s] and closed under adjacency contains every
    node reachable from [s]. *)
Lemma reach_closed g s (P : nat → Prop) :
  P s → (∀ u v, P u → v ∈ adj (node_at g u) → P v) → ∀ u, reach g s u → P u.
Proof. intros Hs Hcl u. induction 1; eauto. Qed.

Lemma NoDup_lt_length (l : list nat) n :
  NoDup l → (∀ x, x ∈ l → x < n) → length l ≤ n.
Proof.
  intros Hnd Hlt. transitivity (length (seq 0 n)); [|by rewrite length_seq].
  apply submseteq_length, NoDup_submseteq; [done|].
  intros x Hx. apply elem_of_seq. specialize (Hlt x Hx). lia.
Qed.

(** The count of matching reachable nodes is at most the node count: the
    counters of the code stay within [int] on graphs of fewer than 2^31
    nodes. *)
Lemma reach_count_le g s sv c :
  wf_graph g → s < n_nodes g → reach_count g s sv c → c ≤ n_nodes g.
Proof.
  intros Hwf Hs (l & Hnd & Hl & ->).
  etrans; [apply length_filter|]. apply NoDup_lt_length; [done|].
  intros u Hu%Hl. by eapply reach_lt.
Qed.

Section sequential.
Variables (g : Graph) (start_node : nat) (search_value : Z).
Hypothesis Hwf : wf_graph g.
Hypothesis Hstart : start_node < n_nodes g.


Lemma seq_marked_insert visited u v :
  u < length visited →
  seq_marked (<[u := true]> visited) v = true ↔
  v = u ∨ seq_marked visited v = true.
Proof.
  intros Hu. unfold seq_marked. destruct (decide (v = u)) as [->|Hne].
  - rewrite list_lookup_insert_eq by done. tauto.
  - rewrite list_lookup_insert_ne by done. tauto.
Qed.

Lemma seq_marked_lt visited u :
  seq_marked visited u = true → u < length visited.
Proof.
  unfold seq_marked. destruct (visited !! u) eqn:E; [|done].
  intros _. by eapply lookup_lt_Some.
Qed.

Lemma seq_inv_init :
  seq_inv g start_node search_value [start_node] (<[start_node := true]> (replicate (n_nodes g) false))
    0 [].
Proof.
  split; simpl.
  - by rewrite length_insert, length_replicate.
  - apply NoDup_singleton.
  - intros u. rewrite seq_marked_insert by (by rewrite length_replicate).
    rewrite list_elem_of_singleton. split; [|by left]. intros [?|Hu]; [done|].
    unfold seq_marked in Hu. destruct (replicate _ _ !! u) eqn:E; [|done].
    apply lookup_replicate in E as [-> _]. done.
  - intros u ->%list_elem_of_singleton. constructor.
  - intros u v []%elem_of_nil.
  - done.
  - by apply list_elem_of_singleton.
Qed.

Lemma seq_visit_marked q visited val :
  seq_marked visited val = true → seq_visit (q, visited) val = (q, visited).
Proof. unfold seq_visit. simpl. by intros ->. Qed.

Lemma seq_visit_unmarked q visited val :
  seq_marked visited val = false →
  seq_visit (q, visited) val = (q ++ [val], <[val := true]> visited).
Proof. unfold seq_visit. simpl. by intros ->. Qed.

(** The scan of one adjacency list appends to the queue exactly the
    unmarked entries, each once, and marks them. *)
Lemma seq_visit_fold (done_ : list nat) l q visited :
  length visited = n_nodes g →
  NoDup (done_ ++ q) →
  (∀ u, seq_marked visited u = true ↔ u ∈ done_ ++ q) →
  Forall (λ v, v < n_nodes g) l →
  let qv := foldl seq_visit (q, visited) l in
  length qv.2 = n_nodes g ∧
  NoDup (done_ ++ qv.1) ∧
  (∀ u, seq_marked qv.2 u = true ↔ u ∈ done_ ++ qv.1) ∧
  (∀ u, u ∈ done_ ++ qv.1 ↔ u ∈ done_ ++ q ∨ u ∈ l).
Proof.
  revert q visited. induction l as [|val l IH]; intros q visited Hlen Hnd Hm Hl;
    simpl.
  - split_and!; try done. intros u. rewrite elem_of_nil. tauto.
  - apply Forall_cons in Hl as [Hval Hl].
    destruct (seq_marked visited val) eqn:E.
    + rewrite (seq_visit_marked _ _ _ E).
      destruct (IH q visited) as (? & ? & ? & Hin); [done..|].
      split_and!; try done. intros u. rewrite Hin, elem_of_cons.
      apply Hm in E. split; [tauto|]. intros [?|[->|?]]; tauto.
    + assert (val ∉ done_ ++ q) as Hnin.
      { intros Hin%Hm. congruence. }
      rewrite (seq_visit_unmarked _ _ _ E).
      destruct (IH (q ++ [val]) (<[val:=true]> visited))
        as (? & ? & ? & Hin); [| | |done|].
      * by rewrite length_insert.
      * rewrite app_assoc. apply NoDup_app. split; [done|].
        split; [|apply NoDup_singleton].
        intros u ? ->%list_elem_of_singleton. done.
      * intros u. rewrite seq_marked_insert by lia.
        rewrite Hm, app_assoc, (elem_of_app _ [val]), list_elem_of_singleton.
        tauto.
      * split_and!; try done. intros u. rewrite Hin, elem_of_cons.
        rewrite app_assoc, (elem_of_app _ [val]), list_elem_of_singleton.
        tauto.
Qed.

Lemma seq_inv_step curr q visited occ hist :
  seq_inv g start_node search_value (curr :: q) visited occ hist →
  let qv := foldl seq_visit (q, visited) (adj (node_at g curr)) in
  seq_inv g start_node search_value qv.1 qv.2
    (if matches g search_value curr then S occ else occ) (hist ++ [curr]).
Proof.
  intros [Hlen Hnd Hm Hr Hcl Hocc Hs]. simpl.
  assert (curr < n_nodes g) as Hcurr.
  { rewrite <-Hlen. apply seq_marked_lt, Hm. rewrite elem_of_app.
    right. left. }
  assert (∀ u, u ∈ (hist ++ [curr]) ++ q ↔ u ∈ hist ++ curr :: q) as Hsame.
  { intros u. by rewrite <-app_assoc. }
  destruct (seq_visit_fold (hist ++ [curr]) (adj (node_at g curr)) q visited)
    as (Hlen' & Hnd' & Hm' & Hin).
  { done. } { by rewrite <-app_assoc. }
  { intros u. by rewrite Hsame. } { by apply wf_graph_adj. }
  split; try done.
  - intros u [Hu|Hu]%Hin.
    + by apply Hr, Hsame.
    + eapply reach_step; [|done]. apply Hr. rewrite elem_of_app. right. left.
  - intros u v [Hu| ->%list_elem_of_singleton]%elem_of_app Hv.
    + apply Hin. left. apply Hsame. by eapply Hcl.
    + apply Hin. by right.
  - rewrite filter_app, length_app, <-Hocc.
    destruct (matches g search_value curr) eqn:E.
    + rewrite filter_cons_True by done. simpl. lia.
    + rewrite filter_cons_False by congruence. simpl. lia.
  - apply Hin. left. by apply Hsame.
Qed.

Lemma seq_loop_correct fuel q visited occ hist :
  seq_inv g start_node search_value q visited occ hist →
  n_nodes g ≤ fuel + length hist →
  ∃ r, seq_loop fuel g search_value q visited occ hist = Some r ∧
       seq_inv g start_node search_value [] (seq_visited r) (seq_occ r) (dequeued r) ∧
       ∃ rest, dequeued r = hist ++ rest.
Proof.
  revert q visited occ hist.
  induction fuel as [|fuel IH]; intros q visited occ hist Hinv Hfuel.
  - destruct q as [|curr q].
    + eexists. split; [done|]. split; [done|]. exists []. simpl.
      by rewrite app_nil_r.
    + exfalso. destruct Hinv as [Hlen Hnd Hm _ _ _ _].
      assert (length (hist ++ curr :: q) ≤ n_nodes g) as Hle.
      { apply NoDup_lt_length; [done|]. intros u Hu%Hm.
        rewrite <-Hlen. by apply seq_marked_lt. }
      rewrite length_app in Hle. simpl in *. lia.
  - destruct q as [|curr q]; simpl.
    + eexists. split; [done|]. split; [done|]. exists []. simpl.
      by rewrite app_nil_r.
    + apply seq_inv_step in Hinv. simpl in Hinv.
      destruct (IH _ _ _ _ Hinv) as (r & Hr & Hinv' & rest & Hrest).
      { rewrite length_app. simpl. lia. }
      exists r. split; [done|]. split; [done|]. exists (curr :: rest).
      by rewrite Hrest, <-app_assoc.
Qed.

Lemma sequential_bfs_run_correct fuel :
  n_nodes g ≤ fuel →
  ∃ r, sequential_bfs_run fuel g start_node search_value = Some r ∧
       NoDup (dequeued r) ∧
       (∀ u, u ∈ dequeued r ↔ reach g start_node u) ∧
       (∀ u, seq_marked (seq_visited r) u = true ↔ reach g start_node u) ∧
       seq_occ r =
         length (filter (λ u, matches g search_value u = true) (dequeued r)).
Proof.
  intros Hfuel.
  destruct (seq_loop_correct fuel _ _ _ _ seq_inv_init) as (r & Hr & Hinv & _).
  { simpl. lia. }
  exists r. split; [done|]. destruct Hinv as [Hlen Hnd Hm Hre Hcl Hocc Hs].
  rewrite app_nil_r in *.
  assert (∀ u, u ∈ dequeued r ↔ reach g start_node u) as Hiff.
  { intros u. split; [apply Hre|].
    apply (reach_closed g start_node (λ u, u ∈ dequeued r)); [done|].
    intros u' v Hu' Hv. specialize (Hcl u' v Hu' Hv).
    by rewrite ?app_nil_r in Hcl. }
  split_and!; try done. intros u. by rewrite Hm, Hiff.
Qed.
End sequential.

(** * The worker routine: one round under any interleaving *)

Lemma unvisited_insert vis val u :
  val < length vis →
  marked (<[val := 1]> vis) u ↔ u = val ∨ marked vis u.
Proof.
  intros Hval. unfold marked, unvisited. destruct (decide (u = val)) as [->|Hne].
  - rewrite list_lookup_insert_eq by done. simpl. tauto.
  - rewrite list_lookup_insert_ne by done. tauto.
Qed.

Lemma marked_lt vis u : marked vis u → u < length vis.
Proof.
  unfold marked, unvisited. destruct (vis !! u) eqn:E; [|done].
  intros _. by eapply lookup_lt_Some.
Qed.

Lemma marked_dec vis u : marked vis u ∨ unvisited vis u = true.
Proof. unfold marked. destruct (unvisited vis u); auto. Qed.

Lemma Exists_insert_or {A} (Q : A → Prop) (R : Prop) ws t w w' :
  ws !! t = Some w → (Q w → Q w' ∨ R) →
  Exists Q ws → Exists Q (<[t := w']> ws) ∨ R.
Proof.
  intros Hw HQ (x & [i Hi]%list_elem_of_lookup & Hx)%Exists_exists.
  destruct (decide (i = t)) as [->|Hne].
  - assert (x = w) as -> by congruence. destruct (HQ Hx) as [?|?]; [left|by right].
    apply Exists_exists. exists w'. split; [|done].
    apply list_elem_of_lookup. exists t. apply list_lookup_insert_eq.
    by eapply lookup_lt_Some.
  - left. apply Exists_exists. exists x. split; [|done].
    apply list_elem_of_lookup. exists i. by rewrite list_lookup_insert_ne.
Qed.

Lemma Exists_insert_here {A} (Q : A → Prop) ws t w' :
  t < length ws → Q w' → Exists Q (<[t := w']> ws).
Proof.
  intros Ht HQ. apply Exists_exists. exists w'. split; [|done].
  apply list_elem_of_lookup. exists t. by apply list_lookup_insert_eq.
Qed.

Section round_facts.
Variables (g : Graph) (search_value : Z) (frontier V : list nat).
Hypothesis Hwf : wf_graph g.
Hypothesis HV : length V = n_nodes g.
Hypothesis Hfrontier : ∀ x, x ∈ frontier → x < n_nodes g.

Lemma discovered_lt u : discovered g frontier V u → u < n_nodes g.
Proof.
  intros [_ (x & Hx & Hu)].
  pose proof (wf_graph_adj g x Hwf (Hfrontier x Hx)) as Hadj.
  rewrite Forall_forall in Hadj. auto.
Qed.

(** A step of worker [t] that respects the local conditions below keeps the
    invariant of the round. *)
Lemma round_inv_update vis ws t w vis' w' :
  round_inv g frontier V (vis, ws) →
  ws !! t = Some w →
  length vis' = length vis →
  (∀ u, marked vis u → marked vis' u) →
  (∀ u, marked vis' u → marked vis u ∨ u ∈ partial_new_frontier w') →
  (∀ u, u ∈ partial_new_frontier w → u ∈ partial_new_frontier w') →
  (∀ u, u ∈ partial_new_frontier w' ∨ in_flight w' u →
        discovered g frontier V u) →
  (∀ u, pending g frontier w u → pending g frontier w' u ∨ marked vis' u) →
  (∀ u, pc w' = Mark u → u ∈ partial_new_frontier w') →
  worker_valid g frontier w' →
  round_inv g frontier V (vis', <[t := w']> ws).
Proof.
  intros [Hlen Hmono Hmk Hsound Hcompl Hpushed Hvalid] Hw H1 H2 H3 H4 H5 H6 H7 H8.
  simpl in *. assert (t < length ws) as Ht by (by eapply lookup_lt_Some).
  split; simpl.
  - congruence.
  - auto.
  - intros u [Hu|Hu]%H3.
    + destruct (Hmk u Hu) as [?|Hex]; [by left|right].
      by destruct (Exists_insert_or (λ w0, u ∈ partial_new_frontier w0) False
                  ws t w w' Hw (λ H, or_introl (H4 u H)) Hex) as [?|[]].
    + right. by apply Exists_insert_here.
  - by apply Forall_insert.
  - intros u Hu. destruct (Hcompl u Hu) as [?|Hex]; [left; auto|].
    destruct (Exists_insert_or _ (marked vis' u) ws t w w' Hw (H6 u) Hex);
      auto.
  - by apply Forall_insert.
  - by apply Forall_insert.
Qed.

Lemma sched_step_inv t st :
  round_inv g frontier V st →
  round_inv g frontier V (sched_step g search_value frontier t st).
Proof.
  destruct st as [vis ws]. intros Hinv. unfold sched_step. simpl.
  destruct (ws !! t) as [w|] eqn:Hw; [|done].
  pose proof Hinv as [Hlen Hmono Hmk Hsound Hcompl Hpushed Hvalid]. simpl in *.
  pose proof (Forall_lookup_1 _ _ _ _ Hsound Hw) as Hs.
  pose proof (Forall_lookup_1 _ _ _ _ Hpushed Hw) as Hp.
  pose proof (Forall_lookup_1 _ _ _ _ Hvalid Hw) as [Hv1 Hv2].
  unfold worker_step.
  destruct (pc w) as [|val|val] eqn:Hpc; [destruct (nbrs w) as [|val rest] eqn:Hn;
    [destruct (todo w) as [|j rest] eqn:Htd|]|..]; simpl.
  - (* at the barrier *)
    rewrite list_insert_id by done. done.
  - (* next frontier index *)
    assert (j < length frontier) as Hj by (apply Hv1; left).
    destruct (lookup_lt_is_Some_2 _ _ Hj) as [x Hx].
    eapply round_inv_update; eauto; simpl; unfold pending, in_flight; simpl.
    + intros u [?|[?|?]]; [|done..]. apply Hs. by left.
    + intros u [[Hu|Hu]|[Hu|(j' & x' & Hj' & Hx' & Hu)]]; try congruence.
      * rewrite Hn in Hu. by apply elem_of_nil in Hu.
      * rewrite Htd in Hj'. apply elem_of_cons in Hj' as [->|Hj'].
        -- left. right. left. rewrite Hx. simpl. congruence.
        -- left. right. right. eauto.
    + intros u ?. done.
    + split; simpl.
      * intros j' Hj'. apply Hv1. by right.
      * intros u Hu. exists x. rewrite Hx in Hu.
        split; [by eapply list_elem_of_lookup_2|done].
  - (* the test visited[val] == 0 *)
    assert (∃ x, x ∈ frontier ∧ val ∈ adj (node_at g x)) as Hval
      by (apply Hv2; left).
    eapply round_inv_update; eauto; simpl; unfold pending, in_flight; simpl.
    + intros u [Hu|Hu]; [apply Hs; by left|].
      destruct (unvisited vis val) eqn:Hun; [|by destruct Hu].
      assert (u = val) as -> by (destruct Hu; congruence).
      split; [|done]. destruct (marked_dec V val) as [Hm|?]; [|done].
      apply Hmono in Hm. unfold marked in Hm. congruence.
    + intros u [[Hu|Hu]|[Hu|Hu]]; try congruence.
      * rewrite Hn in Hu. apply elem_of_cons in Hu as [->|Hu].
        -- destruct (unvisited vis val) eqn:Hun; [left; left; by left|by right].
        -- left. right. by left.
      * left. right. by right.
    + intros u. destruct (unvisited vis val); done.
    + split; simpl; [done|]. intros u Hu. apply Hv2. by right.
  - (* push_back(val) *)
    assert (discovered g frontier V val) as Hd by (apply Hs; right; by left).
    eapply round_inv_update; eauto; simpl; unfold pending, in_flight; simpl.
    + intros u ?. apply elem_of_app. by left.
    + intros u [[Hu| ->%list_elem_of_singleton]%elem_of_app|[?|Hu]];
        [apply Hs; by left|done|done|]. by assert (u = val) as -> by congruence.
    + intros u [[Hu|Hu]|[Hu|Hu]]; try congruence.
      * left. left. right. congruence.
      * left. right. by left.
      * left. right. by right.
    + intros u [= ->]. apply elem_of_app. right. by apply list_elem_of_singleton.
    + done.
  - (* visited[val] = 1 *)
    assert (discovered g frontier V val) as Hd by (apply Hs; right; by right).
    assert (val < length vis) as Hlt.
    { rewrite Hlen, HV. by apply discovered_lt. }
    eapply round_inv_update; eauto; simpl; unfold pending, in_flight; simpl.
    + by rewrite length_insert.
    + intros u ?. apply unvisited_insert; auto.
    + intros u [->|?]%unvisited_insert; [|by left|done]. right. by apply Hp.
    + intros u [?|[?|?]]; [|done..]. apply Hs. by left.
    + intros u [[Hu|Hu]|[Hu|Hu]]; try congruence.
      * right. apply unvisited_insert; [done|]. left. congruence.
      * left. right. by left.
      * left. right. by right.
    + intros u ?. done.
    + done.
Qed.
End round_facts.

Section round_run.
Variables (g : Graph) (search_value : Z) (frontier : list nat).

Local Abbreviation step := (sched_step g search_value frontier).

Lemma worker_step_done vis w :
  worker_done w → worker_step g search_value frontier vis w = (vis, w).
Proof. intros (Hpc & Hn & Ht). unfold worker_step. by rewrite Hpc, Hn, Ht. Qed.

Lemma steps_left_0 w : steps_left g frontier w = 0 → worker_done w.
Proof.
  unfold steps_left, worker_done. intros H.
  destruct (pc w); [|lia..]. destruct (nbrs w); [|simpl in H; lia].
  destruct (todo w); [done|]. simpl in H. lia.
Qed.

Lemma worker_step_decr vis w :
  steps_left g frontier (worker_step g search_value frontier vis w).2
    ≤ steps_left g frontier w - 1.
Proof.
  unfold worker_step, steps_left.
  destruct (pc w) eqn:Hpc;
    [destruct (nbrs w) as [|val rest] eqn:Hn;
       [destruct (todo w) as [|j rest] eqn:Ht|]|..];
    cbn [snd pc nbrs todo]; rewrite ?Hpc, ?Hn, ?Ht, ?fmap_cons, ?fmap_nil;
    cbn [length sum_list sum_list_with]; unfold id; try lia.
  destruct (unvisited vis val); lia.
Qed.

Lemma sched_step_length t st : length (step t st).2 = length st.2.
Proof.
  unfold sched_step. destruct (st.2 !! t); [|done]. simpl. by rewrite length_insert.
Qed.

Lemma sched_step_account t st :
  worker_account g search_value frontier <$> (step t st).2 =
  worker_account g search_value frontier <$> st.2.
Proof.
  unfold sched_step. destruct (st.2 !! t) as [w|] eqn:Hw; [|done]. simpl.
  rewrite list_fmap_insert. apply list_insert_id.
  rewrite list_lookup_fmap, Hw. simpl. f_equal.
  unfold worker_step, worker_account.
  destruct (pc w) eqn:Hpc;
    [destruct (nbrs w) as [|val rest] eqn:Hn;
       [destruct (todo w) as [|j rest] eqn:Ht|]|..];
    cbn [snd todo partial_occurrences]; rewrite ?Ht; try done.
  rewrite fmap_cons.
  destruct (matches g search_value (default 0 (frontier !! j))) eqn:E.
  - rewrite filter_cons_True by done. simpl. lia.
  - rewrite filter_cons_False by congruence. done.
Qed.

Lemma sched_step_done_stable t t' st w :
  st.2 !! t' = Some w → worker_done w → (step t st).2 !! t' = Some w.
Proof.
  intros Hw Hd. unfold sched_step. destruct (st.2 !! t) as [w0|] eqn:Hw0; [|done].
  simpl. destruct (decide (t = t')) as [->|Hne].
  - assert (w0 = w) as -> by congruence. rewrite worker_step_done by done.
    simpl. by rewrite list_insert_id.
  - by rewrite list_lookup_insert_ne.
Qed.

(** Whatever every single step preserves holds after a round. *)
Lemma steps_ind (P : list nat * list worker → Prop) :
  (∀ t st, P st → P (step t st)) →
  ∀ schedule st, P st → P (foldl (λ st t, step t st) st schedule).
Proof. intros HP schedule. induction schedule; simpl; auto. Qed.

Lemma iter_ind (P : list nat * list worker → Prop) t :
  (∀ t st, P st → P (step t st)) →
  ∀ n st, P st → P (Nat.iter n (step t) st).
Proof. intros HP n. induction n; simpl; auto. Qed.

Lemma drain_ind (P : list nat * list worker → Prop) :
  (∀ t st, P st → P (step t st)) →
  ∀ ts st, P st → P (foldl (drain g search_value frontier) st ts).
Proof.
  intros HP ts. induction ts as [|t ts IH]; simpl; [done|].
  intros st Hst. apply IH. unfold drain. by apply iter_ind.
Qed.

Lemma run_round_ind (P : list nat * list worker → Prop) :
  (∀ t st, P st → P (step t st)) →
  ∀ schedule st, P st → P (run_round g search_value frontier schedule st).
Proof.
  intros HP schedule st Hst. unfold run_round.
  by apply drain_ind, steps_ind.
Qed.

Lemma iter_steps_left t n st w :
  st.2 !! t = Some w →
  ∃ w', (Nat.iter n (step t) st).2 !! t = Some w' ∧
        steps_left g frontier w' ≤ steps_left g frontier w - n.
Proof.
  intros Hw. induction n as [|n (w' & Hw' & Hle)]; simpl.
  - exists w. split; [done|lia].
  - unfold sched_step at 1. rewrite Hw'. simpl.
    eexists. split.
    + apply list_lookup_insert_eq. by eapply lookup_lt_Some.
    + pose proof (worker_step_decr (Nat.iter n (step t) st).1 w'). lia.
Qed.

Lemma drain_done t st :
  t < length st.2 →
  ∃ w, (drain g search_value frontier st t).2 !! t = Some w ∧ worker_done w.
Proof.
  intros [w Hw]%lookup_lt_is_Some_2. unfold drain. rewrite Hw. simpl.
  destruct (iter_steps_left t (steps_left g frontier w) st w Hw)
    as (w' & Hw' & Hle).
  exists w'. split; [done|]. apply steps_left_0. lia.
Qed.

Lemma foldl_drain_done ts st t :
  t ∈ ts → t < length st.2 →
  ∃ w, (foldl (drain g search_value frontier) st ts).2 !! t = Some w ∧
       worker_done w.
Proof.
  revert st. induction ts as [|t0 ts IH]; intros st Hin Ht; simpl.
  { by apply elem_of_nil in Hin. }
  destruct (decide (t = t0)) as [->|Hne].
  - destruct (drain_done t0 st Ht) as (w & Hw & Hd). exists w. split; [|done].
    apply (drain_ind (λ st, st.2 !! t0 = Some w)); [|done].
    intros t st' Hst'. by apply sched_step_done_stable.
  - apply elem_of_cons in Hin as [?|Hin]; [done|]. apply IH; [done|].
    unfold drain.
    apply (iter_ind (λ st', t < length st'.2)); [|done].
    intros t' st' Hst'. by rewrite sched_step_length.
Qed.

Lemma run_round_length schedule st :
  length (run_round g search_value frontier schedule st).2 = length st.2.
Proof.
  apply (run_round_ind (λ st', length st'.2 = length st.2)); [|done].
  intros t st' Hst'. by rewrite sched_step_length.
Qed.

(** Every worker is at the barrier when the round is over. *)
Lemma run_round_done schedule st :
  Forall worker_done (run_round g search_value frontier schedule st).2.
Proof.
  apply Forall_lookup. intros t w Hw.
  assert (t < length st.2) as Ht.
  { rewrite <-(run_round_length schedule). by eapply lookup_lt_Some. }
  unfold run_round in *.
  set (st1 := foldl (λ st t, step t st) st schedule) in *.
  assert (length st1.2 = length st.2) as Hlen.
  { apply (steps_ind (λ st', length st'.2 = length st.2)); [|done].
    intros t' st' Hst'. by rewrite sched_step_length. }
  destruct (foldl_drain_done (seq 0 (length st.2)) st1 t) as (w' & Hw' & Hd).
  { apply elem_of_seq. lia. } { lia. }
  congruence.
Qed.

(** A schedule that already brings every worker to the barrier is run as
    it stands. *)
Lemma run_round_complete schedule st :
  Forall worker_done (foldl (λ st t, step t st) st schedule).2 →
  run_round g search_value frontier schedule st =
  foldl (λ st t, step t st) st schedule.
Proof.
  unfold run_round. generalize (foldl (λ st t, step t st) st schedule).
  generalize (seq 0 (length st.2)). intros ts.
  induction ts as [|t ts IH]; intros st' Hd; simpl; [done|].
  assert (drain g search_value frontier st' t = st') as ->; [|by apply IH].
  unfold drain. destruct (st'.2 !! t) as [w|] eqn:Hw; simpl; [|done].
  assert (worker_done w) as Hwd by by eapply Forall_lookup_1.
  destruct Hwd as (Hpc & Hn & Ht). unfold steps_left. by rewrite Hpc, Hn, Ht.
Qed.

Lemma run_round_account schedule st :
  worker_account g search_value frontier
    <$> (run_round g search_value frontier schedule st).2 =
  worker_account g search_value frontier <$> st.2.
Proof.
  apply (run_round_ind (λ st',
    worker_account g search_value frontier <$> st'.2 =
    worker_account g search_value frontier <$> st.2)); [|done].
  intros t st' Hst'. by rewrite sched_step_account.
Qed.

Lemma sched_step_trace t st :
  worker_trace frontier <$> (step t st).2 = worker_trace frontier <$> st.2.
Proof.
  unfold sched_step. destruct (st.2 !! t) as [w|] eqn:Hw; [|done]. simpl.
  rewrite list_fmap_insert. apply list_insert_id.
  rewrite list_lookup_fmap, Hw. simpl. f_equal.
  unfold worker_step, worker_trace.
  destruct (pc w) eqn:Hpc;
    [destruct (nbrs w) as [|val rest] eqn:Hn;
       [destruct (todo w) as [|j rest] eqn:Ht|]|..];
    cbn [snd todo taken]; rewrite ?Ht; try done.
  by rewrite fmap_cons, <-app_assoc.
Qed.

Lemma run_round_trace schedule st :
  worker_trace frontier <$> (run_round g search_value frontier schedule st).2 =
  worker_trace frontier <$> st.2.
Proof.
  apply (run_round_ind (λ st',
    worker_trace frontier <$> st'.2 = worker_trace frontier <$> st.2)); [|done].
  intros t st' Hst'. by rewrite sched_step_trace.
Qed.

Lemma worker_trace_done w : worker_done w → worker_trace frontier w = taken w.
Proof.
  intros (_ & _ & Ht). unfold worker_trace. rewrite Ht. simpl.
  by rewrite app_nil_r.
Qed.

Lemma worker_account_done w :
  worker_done w →
  worker_account g search_value frontier w = partial_occurrences w.
Proof.
  intros (_ & _ & Ht). unfold worker_account. rewrite Ht. simpl. lia.
Qed.
End round_run.

(** * The orchestrator *)

Lemma fmap_lookup_seq (F : list nat) :
  (λ j, default 0 (F !! j)) <$> seq 0 (length F) = F.
Proof.
  apply list_eq. intros i. rewrite list_lookup_fmap.
  destruct (decide (i < length F)) as [Hi|Hi].
  - rewrite lookup_seq_lt by done. simpl.
    destruct (lookup_lt_is_Some_2 _ _ Hi) as [x ->]. done.
  - rewrite lookup_seq_ge by lia. simpl. symmetry. apply lookup_ge_None_2. lia.
Qed.

Lemma total_occurrences_idle F V n :
  total_occurrences
    {| curr_frontier := F; visited := V; workers := replicate n idle_worker |}
  = 0.
Proof. unfold total_occurrences. simpl. induction n; simpl; auto. Qed.

Lemma taken_idle n : concat (taken <$> replicate n idle_worker) = [].
Proof. induction n; simpl; auto. Qed.

Section engine_facts.
Variables (g : Graph) (search_value : Z) (n_workers : nat).
Variables (assign : policy) (normalize : list nat → list nat).
Variables (sched : nat → list nat) (uset_iter : nat → list nat → list nat).
Variable start_node : nat.
Hypothesis Hwf : wf_graph g.
Hypothesis Hworkers : 1 ≤ n_workers.
Hypothesis Hassign : policy_ok assign.
Hypothesis Hnormalize : ∀ l, normalize l ≡ₚ l.
Hypothesis Huset : uset_iter_ok uset_iter.
Hypothesis Hstart : start_node < n_nodes g.

Local Abbreviation round_body :=
  (round_body g search_value n_workers assign normalize sched uset_iter).
Local Abbreviation state_at :=
  (state_at g search_value n_workers assign normalize sched uset_iter start_node).
Local Abbreviation processed :=
  (processed g search_value n_workers assign normalize sched uset_iter start_node).
Local Abbreviation orch_loop :=
  (orch_loop g search_value n_workers assign normalize sched uset_iter).
Local Abbreviation orch_inv := (orch_inv g start_node search_value n_workers).
Local Abbreviation begin_round := (begin_round n_workers assign).
Local Abbreviation is_match := (λ u, matches g search_value u = true).

Lemma elem_of_assign L j :
  j < L ↔ ∃ t, t < n_workers ∧ j ∈ assign L n_workers t.
Proof.
  specialize (Hassign L n_workers Hworkers). split.
  - intros Hj. assert (j ∈ seq 0 L) as Hin by (apply elem_of_seq; lia).
    rewrite <-Hassign in Hin.
    apply list_elem_of_bind in Hin as (t & ? & [_ ?]%elem_of_seq).
    exists t. split; [lia|done].
  - intros (t & Ht & Hj).
    assert (j ∈ seq 0 n_workers ≫= assign L n_workers) as Hin.
    { apply list_elem_of_bind. exists t. split; [done|]. apply elem_of_seq. lia. }
    rewrite Hassign in Hin. apply elem_of_seq in Hin. lia.
Qed.

(** The state in which the workers start a round satisfies the invariant of
    the round. *)
Lemma round_inv_begin F V ws :
  length ws = n_workers →
  Forall (λ w, partial_new_frontier w = []) ws →
  round_inv g F V (V, imap (begin_round F) ws).
Proof.
  intros Hlen Hbuf. split; simpl.
  - done.
  - done.
  - intros u ?. by left.
  - apply Forall_lookup. intros t w. rewrite list_lookup_imap.
    destruct (ws !! t) as [w0|] eqn:Hw0; [|done]. intros [= <-] u. simpl.
    rewrite (Forall_lookup_1 _ _ _ _ Hbuf Hw0).
    intros [[]%elem_of_nil|[?|?]]; done.
  - intros u [_ (x & [j Hj]%list_elem_of_lookup & Hu)]. right.
    assert (j < length F) as Hlt by (by eapply lookup_lt_Some).
    apply elem_of_assign in Hlt as (t & Ht & Hin).
    destruct (lookup_lt_is_Some_2 ws t) as [w0 Hw0]; [lia|].
    apply Exists_exists. exists (begin_round F t w0). split.
    + apply list_elem_of_lookup. exists t. by rewrite list_lookup_imap, Hw0.
    + right. right. exists j, x. done.
  - apply Forall_lookup. intros t w. rewrite list_lookup_imap.
    destruct (ws !! t) as [w0|] eqn:Hw0; [|done]. by intros [= <-] u.
  - apply Forall_lookup. intros t w. rewrite list_lookup_imap.
    destruct (ws !! t) as [w0|] eqn:Hw0; [|done]. intros [= <-].
    split; simpl.
    + intros j Hj. apply elem_of_assign. exists t. split; [|done].
      rewrite <-Hlen. by eapply lookup_lt_Some.
    + intros u []%elem_of_nil.
Qed.

(** What a round leaves behind, whatever the interleaving. *)
Lemma round_outcome F V st :
  round_inv g F V st → Forall worker_done st.2 →
  (∀ u, marked st.1 u ↔ marked V u ∨ discovered g F V u) ∧
  (∀ u, u ∈ st.2 ≫= partial_new_frontier ↔ discovered g F V u).
Proof.
  intros [Hlen Hmono Hmk Hsound Hcompl Hpushed Hvalid] Hdone.
  assert (∀ u, Exists (λ w, u ∈ partial_new_frontier w) st.2 →
               discovered g F V u) as Hbuf.
  { intros u (w & Hw & Hu)%Exists_exists.
    rewrite Forall_forall in Hsound. apply (Hsound w Hw). by left. }
  assert (∀ u, discovered g F V u → marked st.1 u) as Hdisc.
  { intros u Hu. destruct (Hcompl u Hu) as [?|(w & Hw & Hp)%Exists_exists];
      [done|exfalso].
    rewrite Forall_forall in Hdone. destruct (Hdone w Hw) as (Hpc & Hn & Ht).
    destruct Hp as [[?|?]|[Hp|(j & x & Hj & _)]]; try congruence.
    - rewrite Hn in Hp. by apply elem_of_nil in Hp.
    - rewrite Ht in Hj. by apply elem_of_nil in Hj. }
  split; intros u.
  - split.
    + intros [?|?]%Hmk; [by left|right; auto].
    + intros [?|?]; auto.
  - rewrite list_elem_of_bind. split.
    + intros (w & Hu & Hw). apply Hbuf, Exists_exists. eauto.
    + intros Hu. destruct (Hmk u (Hdisc u Hu)) as [Hm|Hex].
      * destruct Hu as [Hu _]. unfold marked in Hm. congruence.
      * apply Exists_exists in Hex as (w & ? & ?). eauto.
Qed.

Lemma account_begin F ws i :
  sum_list (worker_account g search_value F
              <$> imap (λ t, begin_round F (i + t)) ws) =
  sum_list (partial_occurrences <$> ws) +
  length (filter is_match
            ((λ j, default 0 (F !! j))
               <$> (seq i (length ws) ≫= assign (length F) n_workers))).
Proof.
  revert i. induction ws as [|w ws IH]; intros i; [done|].
  rewrite imap_cons, !fmap_cons. cbn [sum_list_with].
  change (length (w :: ws)) with (S (length ws)).
  rewrite <-cons_seq, bind_cons, fmap_app, filter_app, length_app.
  rewrite (imap_ext _ (λ t, begin_round F (S i + t))).
  2:{ intros t w' _. simpl. f_equal. lia. }
  rewrite IH. unfold worker_account at 1. simpl. rewrite Nat.add_0_r. lia.
Qed.

Lemma round_body_occ k st :
  length (workers st) = n_workers →
  total_occurrences (round_body k st) =
  total_occurrences st + length (filter is_match (curr_frontier st)).
Proof.
  intros Hlen. unfold total_occurrences, round_body, round_end. simpl.
  set (F := curr_frontier st).
  set (r := run_round _ _ _ _ _).
  assert (partial_occurrences <$> (clear_buffer <$> r.2) =
          worker_account g search_value F <$> r.2) as ->.
  { rewrite <-list_fmap_compose. apply Forall_fmap_ext, Forall_forall.
    intros w Hw. simpl. symmetry. apply worker_account_done.
    pose proof (run_round_done g search_value F (sched k)
      (visited st, imap (begin_round F) (workers st))) as Hd.
    rewrite Forall_forall in Hd. by apply Hd. }
  unfold r. rewrite run_round_account. simpl.
  pose proof (account_begin F (workers st) 0) as Hacc. simpl in Hacc.
  etrans; [exact Hacc|]. f_equal.
  rewrite Hlen. rewrite (Hassign (length F) n_workers Hworkers).
  by rewrite fmap_lookup_seq.
Qed.

Lemma trace_begin F ws i :
  concat (worker_trace F <$> imap (λ t, begin_round F (i + t)) ws) ≡ₚ
  concat (taken <$> ws) ++
  ((λ j, default 0 (F !! j))
     <$> (seq i (length ws) ≫= assign (length F) n_workers)).
Proof.
  revert i. induction ws as [|w ws IH]; intros i; [done|].
  rewrite imap_cons, !fmap_cons. cbn [concat].
  change (length (w :: ws)) with (S (length ws)).
  rewrite <-cons_seq, bind_cons, fmap_app.
  rewrite (imap_ext _ (λ t, begin_round F (S i + t))).
  2:{ intros t w' _. simpl. f_equal. lia. }
  rewrite IH. unfold worker_trace at 1. simpl. rewrite Nat.add_0_r.
  rewrite <-!app_assoc. f_equiv. rewrite !app_assoc. f_equiv.
  apply Permutation_app_comm.
Qed.

Lemma round_body_taken k st :
  length (workers st) = n_workers →
  concat (taken <$> workers (round_body k st)) ≡ₚ
  concat (taken <$> workers st) ++ curr_frontier st.
Proof.
  intros Hlen. unfold round_body, round_end. simpl.
  set (F := curr_frontier st).
  set (r := run_round _ _ _ _ _).
  assert (taken <$> (clear_buffer <$> r.2) = worker_trace F <$> r.2) as ->.
  { rewrite <-list_fmap_compose. apply Forall_fmap_ext, Forall_forall.
    intros w Hw. simpl. symmetry. apply worker_trace_done.
    pose proof (run_round_done g search_value F (sched k)
      (visited st, imap (begin_round F) (workers st))) as Hd.
    rewrite Forall_forall in Hd. by apply Hd. }
  unfold r. rewrite run_round_trace. simpl.
  pose proof (trace_begin F (workers st) 0) as Htr. simpl in Htr.
  etrans; [exact Htr|]. f_equiv.
  rewrite Hlen. rewrite (Hassign (length F) n_workers Hworkers).
  by rewrite fmap_lookup_seq.
Qed.

Lemma merge_frontier_perm k ws :
  merge_frontier normalize uset_iter k ws
    ≡ₚ remove_dups (ws ≫= partial_new_frontier).
Proof. unfold merge_frontier. by rewrite Hnormalize, (Huset k). Qed.

(** One iteration of the orchestrator: the new frontier lists the discovered
    nodes once each, and exactly they get marked. *)
Lemma round_body_spec k done_ st :
  orch_inv done_ st →
  let st' := round_body k st in
  NoDup (curr_frontier st') ∧
  (∀ u, u ∈ curr_frontier st' ↔
        discovered g (curr_frontier st) (visited st) u) ∧
  (∀ u, marked (visited st') u ↔
        marked (visited st) u ∨ discovered g (curr_frontier st) (visited st) u) ∧
  length (visited st') = n_nodes g ∧
  length (workers st') = n_workers ∧
  Forall (λ w, partial_new_frontier w = []) (workers st').
Proof.
  intros [Hlen Hws Hbuf Hnd Hm Hre Hcl Hocc Hs Htk]. simpl. unfold round_end.
  set (F := curr_frontier st). set (V := visited st).
  set (st0 := (V, imap (begin_round F) (workers st))).
  set (r := run_round g search_value F (sched k) st0).
  assert (∀ x, x ∈ F → x < n_nodes g) as HF.
  { intros x Hx. rewrite <-Hlen. apply marked_lt, Hm, elem_of_app. by right. }
  assert (round_inv g F V r) as Hinv.
  { apply (run_round_ind g search_value F (round_inv g F V)).
    - intros t st'. by apply sched_step_inv.
    - by apply round_inv_begin. }
  destruct (round_outcome F V r Hinv) as [Hmarked Hbufs].
  { apply run_round_done. }
  split_and!.
  - rewrite merge_frontier_perm. apply NoDup_remove_dups.
  - intros u. rewrite merge_frontier_perm, elem_of_remove_dups. apply Hbufs.
  - done.
  - destruct Hinv as [Hl _ _ _ _ _ _]. unfold V in Hl. congruence.
  - rewrite length_fmap. unfold r. rewrite run_round_length. simpl.
    by rewrite length_imap.
  - apply Forall_fmap, Forall_forall. by intros w _.
Qed.

Lemma round_body_inv k done_ st :
  orch_inv done_ st →
  orch_inv (done_ ++ curr_frontier st) (round_body k st).
Proof.
  intros Hinv.
  destruct (round_body_spec k done_ st Hinv)
    as (Hnd' & Hfr & Hmk & Hlen' & Hws' & Hbuf').
  pose proof (round_body_occ k st (oi_workers _ _ _ _ _ _ Hinv)) as Hocc'.
  pose proof (round_body_taken k st (oi_workers _ _ _ _ _ _ Hinv)) as Htk'.
  destruct Hinv as [Hlen Hws Hbuf Hnd Hm Hre Hcl Hocc Hs Htk].
  split; try done.
  - apply NoDup_app. split; [done|]. split; [|done].
    intros u Hu%Hm [Hun _]%Hfr. unfold marked in Hu. congruence.
  - intros u. rewrite Hmk, elem_of_app, Hfr, Hm. done.
  - intros u [?|Hu]%elem_of_app; [by apply Hre|].
    apply Hfr in Hu as [_ (x & Hx & Hu)]. eapply reach_step; [|done].
    apply Hre, elem_of_app. by right.
  - intros u v [Hu|Hu]%elem_of_app Hv.
    + apply elem_of_app. left. by eapply Hcl.
    + destruct (marked_dec (visited st) v) as [Hv'|Hv'].
      * apply elem_of_app. left. by apply Hm.
      * apply elem_of_app. right. apply Hfr. split; [done|]. eauto.
  - rewrite Hocc', Hocc, filter_app, length_app. done.
  - apply elem_of_app. by left.
  - by rewrite Htk', Htk.
Qed.

Lemma init_state_inv : orch_inv [] (init_state g n_workers start_node).
Proof.
  split; simpl.
  - by rewrite length_insert, length_replicate.
  - by rewrite length_replicate.
  - by apply Forall_replicate.
  - apply NoDup_singleton.
  - intros u. rewrite unvisited_insert by (by rewrite length_replicate).
    rewrite list_elem_of_singleton. split; [|by left]. intros [?|Hu]; [done|].
    unfold marked, unvisited in Hu.
    destruct (replicate _ _ !! u) eqn:E; [|done].
    apply lookup_replicate in E as [-> _]. done.
  - intros u ->%list_elem_of_singleton. constructor.
  - intros u v []%elem_of_nil.
  - apply total_occurrences_idle.
  - by apply list_elem_of_singleton.
  - by rewrite taken_idle.
Qed.

(** The invariant holds at the head of every iteration. *)
Lemma state_at_inv k : orch_inv (processed k) (state_at k).
Proof.
  induction k as [|k IH]; simpl; [apply init_state_inv|].
  by apply round_body_inv.
Qed.

Lemma processed_bound k :
  length (processed k) + length (curr_frontier (state_at k)) ≤ n_nodes g.
Proof.
  destruct (state_at_inv k) as [Hlen _ _ Hnd Hm _ _ _ _ _].
  rewrite <-length_app. apply NoDup_lt_length; [done|].
  intros u Hu%Hm. rewrite <-Hlen. by apply marked_lt.
Qed.

Lemma processed_grows k :
  (∀ i, i < k → curr_frontier (state_at i) ≠ []) → k ≤ length (processed k).
Proof.
  induction k as [|k IH]; intros Hne; simpl; [lia|].
  rewrite length_app. specialize (Hne k (Nat.lt_succ_diag_r k)) as Hk.
  destruct (curr_frontier (state_at k)); [done|]. simpl.
  assert (k ≤ length (processed k)); [|lia]. apply IH. intros i ?. apply Hne. lia.
Qed.

(** The loop stops: from the head of iteration [k] it runs on to the first
    empty frontier, and [fuel] runs out no earlier. *)
Lemma orch_loop_terminates fuel k :
  n_nodes g ≤ fuel + length (processed k) →
  ∃ K, k ≤ K ∧
    orch_loop fuel k (state_at k) = Some (state_at K) ∧
    curr_frontier (state_at K) = [] ∧
    ∀ i, k ≤ i < K → curr_frontier (state_at i) ≠ [].
Proof.
  revert k. induction fuel as [|fuel IH]; intros k Hfuel.
  - pose proof (processed_bound k) as Hb.
    destruct (curr_frontier (state_at k)) eqn:E; [|simpl in *; lia].
    exists k. split; [done|]. split; [simpl; by rewrite E|].
    split; [done|]. intros i ?. lia.
  - destruct (curr_frontier (state_at k)) eqn:E.
    + exists k. split; [done|]. split; [simpl; by rewrite E|].
      split; [done|]. intros i ?. lia.
    + destruct (IH (S k)) as (K & HK & Hloop & Hempty & Hne).
      { simpl. rewrite length_app, E. simpl. lia. }
      exists K. split; [lia|]. split; [simpl; by rewrite E|].
      split; [done|]. intros i Hi. destruct (decide (i = k)) as [->|?].
      * by rewrite E.
      * apply Hne. lia.
Qed.

(** The run: it takes [K] iterations, at least one and at most as many as
    there are nodes, and ends in the state at the head of iteration [K]. *)
Lemma orch_loop_run fuel :
  n_nodes g ≤ fuel →
  ∃ K, 1 ≤ K ≤ n_nodes g ∧
    orch_loop fuel 0 (init_state g n_workers start_node) = Some (state_at K) ∧
    curr_frontier (state_at K) = [] ∧
    ∀ i, i < K → curr_frontier (state_at i) ≠ [].
Proof.
  intros Hfuel. destruct (orch_loop_terminates fuel 0) as (K & _ & Hl & He & Hne).
  { simpl. lia. }
  exists K. assert (∀ i, i < K → curr_frontier (state_at i) ≠ []) as Hne'.
  { intros i ?. apply Hne. lia. }
  split_and!; try done.
  - destruct K; [|lia]. simpl in He. done.
  - pose proof (processed_grows K Hne'). pose proof (processed_bound K). lia.
Qed.

(** At the end of the run the rounds have taken every reachable node once. *)
Lemma final_state K :
  curr_frontier (state_at K) = [] →
  NoDup (processed K) ∧
  (∀ u, u ∈ processed K ↔ reach g start_node u) ∧
  (∀ u, marked (visited (state_at K)) u ↔ reach g start_node u) ∧
  total_occurrences (state_at K) = length (filter is_match (processed K)).
Proof.
  intros He. destruct (state_at_inv K) as [Hlen _ _ Hnd Hm Hre Hcl Hocc Hs Htk].
  rewrite He, app_nil_r in *.
  assert (∀ u, u ∈ processed K ↔ reach g start_node u) as Hiff.
  { intros u. split; [apply Hre|].
    apply (reach_closed g start_node (λ u, u ∈ processed K)); [done|].
    intros u' v Hu' Hv. specialize (Hcl u' v Hu' Hv).
    by rewrite ?app_nil_r in Hcl. }
  split_and!; try done. intros u. by rewrite Hm, Hiff.
Qed.

(** The engine returns the number of matching reachable nodes, whatever the
    policy, the interleaving and the iteration order of the set. *)
Lemma engine_reach_count fuel :
  n_nodes g ≤ fuel →
  ∃ c, engine g search_value n_workers assign normalize sched uset_iter
         fuel start_node = Some c ∧
       reach_count g start_node search_value c.
Proof.
  intros Hfuel. destruct (orch_loop_run fuel Hfuel) as (K & _ & Hl & He & _).
  destruct (final_state K He) as (Hnd & Hiff & _ & Hocc).
  exists (total_occurrences (state_at K)). split.
  - unfold engine. by rewrite Hl.
  - exists (processed K). done.
Qed.
(** ** Consequences for the sequence of frontiers *)

Lemma elem_of_processed k u :
  u ∈ processed k ↔ ∃ i, i < k ∧ u ∈ curr_frontier (state_at i).
Proof.
  induction k as [|k IH]; simpl.
  - split; [by intros ?%elem_of_nil|]. intros (i & ? & _). lia.
  - rewrite elem_of_app, IH. split.
    + intros [(i & ? & ?)|?]; [exists i|exists k]; split; auto; lia.
    + intros (i & Hi & Hu). destruct (decide (i = k)) as [->|?]; [by right|].
      left. exists i. split; [lia|done].
Qed.

Lemma frontier_marked k u :
  u ∈ curr_frontier (state_at k) → marked (visited (state_at k)) u.
Proof.
  intros Hu. apply (oi_marked _ _ _ _ _ _ (state_at_inv k)), elem_of_app.
  by right.
Qed.

Lemma frontier_NoDup k : NoDup (curr_frontier (state_at k)).
Proof.
  pose proof (oi_nodup _ _ _ _ _ _ (state_at_inv k)) as Hnd.
  by apply NoDup_app in Hnd as (_ & _ & ?).
Qed.

Lemma visited_mono k u :
  marked (visited (state_at k)) u → marked (visited (state_at (S k))) u.
Proof.
  intros Hu. simpl.
  destruct (round_body_spec k _ _ (state_at_inv k)) as (_ & _ & Hmk & _).
  apply Hmk. by left.
Qed.

Lemma frontiers_disjoint k k' u :
  u ∈ curr_frontier (state_at k) → u ∈ curr_frontier (state_at k') → k = k'.
Proof.
  assert (∀ i j, i < j → u ∈ curr_frontier (state_at i) →
                 u ∈ curr_frontier (state_at j) → False) as Hlt.
  { intros i j Hij Hi Hj.
    pose proof (oi_nodup _ _ _ _ _ _ (state_at_inv j)) as Hnd.
    apply NoDup_app in Hnd as (_ & Hdis & _). apply (Hdis u); [|done].
    apply elem_of_processed. eauto. }
  intros Hk Hk'. destruct (Nat.lt_trichotomy k k') as [?|[?|?]]; [|done|];
    exfalso; eauto.
Qed.

Lemma round_progress k :
  curr_frontier (state_at (S k)) = [] ∨
  ∃ u, ¬ marked (visited (state_at k)) u ∧ marked (visited (state_at (S k))) u.
Proof.
  simpl. destruct (round_body_spec k _ _ (state_at_inv k))
    as (_ & Hfr & Hmk & _).
  destruct (curr_frontier (round_body k (state_at k))) as [|u F'] eqn:E;
    [by left|right].
  assert (discovered g (curr_frontier (state_at k)) (visited (state_at k)) u)
    as Hu by (apply Hfr; left).
  exists u. split.
  - destruct Hu as [Hu _]. unfold marked. congruence.
  - apply Hmk. by right.
Qed.

Lemma frontier_discovered k u :
  u ∈ curr_frontier (state_at (S k)) ↔
  discovered g (curr_frontier (state_at k)) (visited (state_at k)) u.
Proof.
  simpl. by destruct (round_body_spec k _ _ (state_at_inv k)) as (_ & Hfr & _).
Qed.

Lemma visited_discovered k u :
  marked (visited (state_at (S k))) u ↔
  marked (visited (state_at k)) u ∨
  discovered g (curr_frontier (state_at k)) (visited (state_at k)) u.
Proof.
  simpl. by destruct (round_body_spec k _ _ (state_at_inv k))
    as (_ & _ & Hmk & _).
Qed.

Lemma taken_processed k :
  concat (taken <$> workers (state_at k)) ≡ₚ processed k.
Proof. apply (oi_taken _ _ _ _ _ _ (state_at_inv k)). Qed.

Lemma first_round_occ :
  curr_frontier (state_at 0) = [start_node] ∧
  total_occurrences (state_at 1) =
    if matches g search_value start_node then 1 else 0.
Proof.
  split; [done|]. simpl. rewrite round_body_occ.
  2:{ simpl. by rewrite length_replicate. }
  assert (total_occurrences (init_state g n_workers start_node) = 0) as ->
    by apply total_occurrences_idle.
  simpl. destruct (matches g search_value start_node) eqn:E.
  - by rewrite filter_cons_True.
  - rewrite filter_cons_False by congruence. done.
Qed.
End engine_facts.

(** A step of a worker never clears a flag of [visited]. *)
Lemma worker_step_mono g search_value frontier vis w u :
  marked vis u → marked (worker_step g search_value frontier vis w).1 u.
Proof.
  intros Hu. unfold worker_step.
  destruct (pc w) as [|val|val];
    [destruct (nbrs w); [destruct (todo w)|]|..]; simpl; try done.
  destruct (decide (val < length vis)) as [Hlt|Hge].
  - apply unvisited_insert; auto.
  - by rewrite list_insert_ge by lia.
Qed.

(** ** Sorting *)

Lemma sort_Permutation l : sort l ≡ₚ l.
Proof. apply merge_sort_Permutation. Qed.

Lemma sort_Sorted l : Sorted (≤) (sort l).
Proof. apply (Sorted_merge_sort _). Qed.

Lemma Sorted_le_NoDup_lt l : Sorted (≤) l → NoDup l → StronglySorted (<) l.
Proof.
  intros Hs%(Sorted_StronglySorted _) Hnd.
  induction Hs as [|x l Hs IH Hx]; [constructor|].
  apply NoDup_cons in Hnd as [Hnin Hnd]. constructor; [by apply IH|].
  rewrite Forall_forall in *. intros y Hy. specialize (Hx y Hy).
  assert (x ≠ y) by (by intros ->). lia.
Qed.

(** * The barrier protocol *)

Module BarrierFacts.
Import Barrier.

Lemma filter_insert_length {A} (P : A → Prop) `{∀ x, Decision (P x)}
    (l : list A) t x y :
  l !! t = Some x →
  length (filter P (<[t := y]> l)) + (if decide (P x) then 1 else 0) =
  length (filter P l) + (if decide (P y) then 1 else 0).
Proof.
  revert t. induction l as [|a l IH]; intros [|t] Hl; simplify_eq/=.
  - rewrite !filter_cons. repeat case_decide; simpl; lia.
  - rewrite !filter_cons. specialize (IH t Hl).
    destruct (decide (P a)); simpl; lia.
Qed.

Lemma missing_update r (ws : list wstate) t w w' :
  ws !! t = Some w →
  length (filter (λ w, arrivedb r w = false) (<[t := w']> ws)) +
    (if arrivedb r w then 0 else 1) =
  length (filter (λ w, arrivedb r w = false) ws) +
    (if arrivedb r w' then 0 else 1).
Proof.
  intros Hw.
  pose proof (filter_insert_length (λ w, arrivedb r w = false) ws t w w' Hw)
    as H.
  cbv beta in H.
  destruct (arrivedb r w), (arrivedb r w'); repeat case_decide; try done; lia.
Qed.

Lemma missing_0 r (ws : list wstate) :
  length (filter (λ w, arrivedb r w = false) ws) = 0 →
  ∀ t w, ws !! t = Some w → arrivedb r w = true.
Proof.
  intros H%nil_length_inv t w Hw%list_elem_of_lookup_2.
  destruct (arrivedb r w) eqn:E; [done|].
  assert (w ∈ filter (λ w, arrivedb r w = false) ws) as Hin
    by (by apply list_elem_of_filter).
  rewrite H in Hin. by apply elem_of_nil in Hin.
Qed.

Lemma missing_all r (ws : list wstate) :
  (∀ t w, ws !! t = Some w → arrivedb r w = false) →
  length (filter (λ w, arrivedb r w = false) ws) = length ws.
Proof.
  induction ws as [|w ws IH]; intros Hall; [done|].
  rewrite filter_cons_True by (by apply (Hall 0)). simpl. f_equal.
  apply IH. intros t w' Hw'. by apply (Hall (S t)).
Qed.

Lemma arrivedb_wake r w : arrivedb r (wake w) = arrivedb r w.
Proof.
  unfold wake. case_decide as Hpc; [|done]. unfold arrivedb, set_wpc. simpl.
  by rewrite Hpc.
Qed.

Lemma missing_wake r (ws : list wstate) :
  length (filter (λ w, arrivedb r w = false) (wake <$> ws)) =
  length (filter (λ w, arrivedb r w = false) ws).
Proof.
  induction ws as [|w ws IH]; [done|]. rewrite fmap_cons, !filter_cons.
  rewrite arrivedb_wake. case_decide; simpl; by rewrite IH.
Qed.

Lemma next_generation_ne G :
  (0 ≤ G < size_max)%Z →
  (0 ≤ (G + 1) mod size_max < size_max)%Z ∧ G ≠ ((G + 1) mod size_max)%Z.
Proof.
  unfold size_max. change (2 ^ 64)%Z with 18446744073709551616%Z. intros HG.
  destruct (decide (G + 1 = 18446744073709551616)%Z) as [E|E].
  - rewrite E, Z.mod_same by lia. lia.
  - rewrite Z.mod_small by lia. lia.
Qed.

Ltac inv_fields H :=
  destruct H as [Hlen Hgen Hmm Hmw Hcl Hcnt Hover Hstop Hset Hreset].

Ltac easy_fields :=
  split; unfold missing, arrived, working, released in *; simpl in *;
  try done; try tauto; try (intros; exfalso; tauto); try congruence.

Lemma wake_cases w :
  (wpc w = WWaiting ∧ wake w = set_wpc WWoken w) ∨ (wpc w ≠ WWaiting ∧ wake w = w).
Proof. unfold wake. case_decide; auto. Qed.

Lemma lookup_wake (ws : list wstate) t w :
  (wake <$> ws) !! t = Some w → ∃ w0, ws !! t = Some w0 ∧ w = wake w0.
Proof.
  rewrite list_lookup_fmap. destruct (ws !! t) as [w0|]; [|done].
  intros [= <-]. eauto.
Qed.

Lemma master_next_inv s s' : inv s → master_next s = Some s' → inv s'.
Proof.
  intros Hinv Hstep. inv_fields Hinv. unfold master_next in Hstep.
  destruct (mpc s) eqn:Hpc; simpl in *.
  all: try (destruct (m_mutex s) eqn:Hmmx; [done|]).
  all: try (destruct (w_mutex s) eqn:Hwmx; [done|]).
  all: simplify_eq.
  - easy_fields.
  - destruct (stop_master s) eqn:Hsm; easy_fields; try by apply Hstop.
    all: intros t w Hw Hw'; destruct (Hset t w Hw Hw') as [? ?];
      split; [done|congruence].
  - easy_fields.
  - easy_fields.
  - easy_fields.
  - easy_fields.
  - easy_fields.
  - (* MLockW *) easy_fields.
    intros t w Hw. specialize (Hmw t w Hw). split; [by intros ?%Hmw|done].
  - (* MInc *)
    destruct (next_generation_ne _ Hgen) as [Hgen' Hne].
    destruct Hover as [Hmiss Hnss]; [done|].
    assert (w_mutex s = Some Master) as Hwmx by (by apply Hmm).
    assert (∀ t w, wks s !! t = Some w →
              wround w = mround s ∧ l_gen w = m_generation s ∧
              (wpc w = WWaiting ∨ wpc w = WWoken)) as Hall.
    { intros t w Hw. pose proof (missing_0 _ _ Hmiss t w Hw) as Har.
      unfold arrivedb in Har. apply andb_true_iff in Har as [Hr%bool_decide_eq_true Hb].
      specialize (Hmw t w Hw). rewrite Hwmx in Hmw.
      destruct (Hcl t w Hw) as [(_ & Hg & _)|[[_ Hw']|[? _]]]; [|..|lia].
      - split; [done|]. split; [done|].
        destruct (wpc w); simpl in *; try done; auto;
          by destruct Hmw as [Hx _]; specialize (Hx I).
      - destruct (wpc w); done. }
    easy_fields.
    + intros t w Hw. destruct (Hall t w Hw) as (Hr & Hg & Hw').
      right. right. split; [lia|]. split; [congruence|].
      destruct Hw' as [-> | ->]; done.
    + assert (length (filter (λ w, arrivedb (S (mround s)) w = false) (wks s))
              = length (wks s)) as ->.
      { apply missing_all. intros t w Hw. destruct (Hall t w Hw) as (Hr & _).
        unfold arrivedb. rewrite bool_decide_eq_false_2 by lia. done. }
      destruct Hcnt as [_ Hcnt]. rewrite Hcnt by done. lia.
    + intros Hs. rewrite Hreset in Hs; done.
    + intros t w Hw Hw'. by destruct (Hnss t w Hw).
  - (* MNotifyAll *) easy_fields.
    + by rewrite length_fmap.
    + intros t w (w0 & Hw0 & ->)%lookup_wake. rewrite <-(Hmw t w0 Hw0).
      destruct (wake_cases w0) as [[Hp ->]|[_ ->]]; [|done].
      simpl. by rewrite Hp.
    + intros t w (w0 & Hw0 & ->)%lookup_wake.
      destruct (wake_cases w0) as [[Hp ->]|[_ ->]]; [|by apply (Hcl t)].
      specialize (Hcl t w0 Hw0). simpl. rewrite Hp in Hcl. tauto.
    + rewrite missing_wake. tauto.
    + intros Hs. rewrite Hreset in Hs; done.
    + intros t w (w0 & Hw0 & ->)%lookup_wake Hw'.
      destruct (wake_cases w0) as [[Hp E]|[_ E]]; rewrite E in Hw'; [done|].
      rewrite missing_wake. by apply (Hset t w0).
  - (* MUnlockW *) easy_fields.
    + intros t w Hw. split; [|done]. intros Hh%(Hmw t w Hw).
      destruct Hmm as [Hmm _]. rewrite Hmm in Hh; done.
Qed.


Lemma lookup_insert_cases (ws : list wstate) t w w' t0 w0 :
  ws !! t = Some w → <[t := w']> ws !! t0 = Some w0 →
  (t0 = t ∧ w0 = w') ∨ (t0 ≠ t ∧ ws !! t0 = Some w0).
Proof.
  intros Hw Hw0. destruct (decide (t0 = t)) as [->|Hne].
  - rewrite list_lookup_insert_eq in Hw0 by (by eapply lookup_lt_Some).
    left. split; congruence.
  - rewrite list_lookup_insert_ne in Hw0 by done. by right.
Qed.

Lemma missing_update_same r (ws : list wstate) t w w' :
  ws !! t = Some w → arrivedb r w' = arrivedb r w →
  length (filter (λ w, arrivedb r w = false) (<[t := w']> ws)) =
  length (filter (λ w, arrivedb r w = false) ws).
Proof.
  intros Hw E. pose proof (missing_update r ws t w w' Hw) as H.
  rewrite E in H. destruct (arrivedb r w); lia.
Qed.

Ltac same_missing Hw Hpc :=
  unfold missing; simpl; apply (missing_update_same _ _ _ _ _ Hw);
  unfold arrivedb; simpl; rewrite ?Hpc; simpl; try done.

Ltac upd Hw :=
  let t0 := fresh "t0" in let w0 := fresh "w0" in let H := fresh "Hw0" in
  intros t0 w0 H; apply (lookup_insert_cases _ _ _ _ _ _ Hw) in H as [[-> ->]|[? H]].

Lemma worker_next_inv t s s' : inv s → worker_next t s = Some s' → inv s'.
Proof.
  intros Hinv Hstep. inv_fields Hinv. unfold worker_next in Hstep.
  destruct (wks s !! t) as [w|] eqn:Hw; [|done].
  pose proof (Hmw t w Hw) as Hmwt. pose proof (Hcl t w Hw) as Hclt.
  unfold arrived, working, released in Hclt.
  destruct (wpc w) eqn:Hpc; simpl in *.
  all: try (destruct (w_mutex s) eqn:Hwmx; [done|]).
  all: simplify_eq.
  - (* WWork *)
    assert (missing (set_worker t (set_wpc WLock w) s) = missing s) as Hmiss.
    { same_missing Hw Hpc. }
    split; rewrite ?Hmiss; simpl; try done.
    + by rewrite length_insert.
    + upd Hw; simpl; [by rewrite <-Hmwt|by apply Hmw].
    + upd Hw; [|by apply (Hcl t0)]. right. left. unfold working. simpl. tauto.
    + intros Ho. destruct (Hover Ho) as [? Hn]. split; [done|].
      upd Hw; [done|by apply (Hn t0)].
    + intros Ho. destruct (Hstop Ho) as [? Hn]. split; [done|].
      upd Hw; [done|by apply (Hn t0)].
    + upd Hw; [done|by apply (Hset t0)].
  - (* WLock *)
    assert (wround w = mround s) as Hr by tauto.
    assert (stop_master s = false ∧ ¬ round_over (mpc s) ∧ 0 < missing s)
      as (Hsm & Hno & Hpos).
    { assert (0 < missing s) as Hpos.
      { pose proof (missing_update (mround s) (wks s) t w w Hw) as H.
        assert (arrivedb (mround s) w = false) as E1.
        { unfold arrivedb. rewrite Hpc. by rewrite andb_false_r. }
        destruct (decide (missing s = 0)) as [Hz|?]; [|lia].
        pose proof (missing_0 _ _ Hz t w Hw). congruence. }
      split_and!; [|intros Ho; destruct (Hover Ho) as [? _]; lia|done].
      destruct (stop_master s); [|done]. destruct Hstop as [? _]; [done|lia]. }
    assert (∀ pc', at_barrier pc' = true →
      let w' := {| wpc := pc'; l_gen := m_generation s; wround := wround w |} in
      m_count s =
        S (length (filter (λ w, arrivedb (mround s) w = false)
                     (<[t := w']> (wks s))))) as Hc.
    { intros pc' Hpc' w'.
      pose proof (missing_update (mround s) (wks s) t w w' Hw) as H.
      assert (arrivedb (mround s) w = false) as E1.
      { unfold arrivedb. rewrite Hpc. by rewrite andb_false_r. }
      assert (arrivedb (mround s) w' = true) as E2.
      { unfold arrivedb, w'. simpl. by rewrite bool_decide_eq_true_2, Hpc'. }
      rewrite E1, E2 in H. destruct Hcnt as [Hcnt _]. rewrite Hcnt by done.
      unfold missing. lia. }
    destruct (bool_decide (m_count s - 1 = 0)) eqn:El;
      [apply bool_decide_eq_true in El|apply bool_decide_eq_false in El].
    all: split; unfold missing; simpl; try done.
    all: try (by rewrite length_insert).
    all: try (split; [intros ?%Hmm; done|done]).
    all: try (upd Hw; [simpl; done
                      |specialize (Hmw t0 w0 Hw0);
                       split; [by intros ?%Hmw|congruence]]).
    all: try (upd Hw; [|by apply (Hcl t0)]; left; unfold arrived; simpl; done).
    all: try (intros Hs; congruence).
    + specialize (Hc WSetStop eq_refl). simpl in Hc. split; [lia|done].
    + upd Hw.
      * intros _. specialize (Hc WSetStop eq_refl). simpl in Hc.
        split; [lia|done].
      * intros Hp0. destruct (Hset t0 w0 Hw0 Hp0). lia.
    + specialize (Hc WCheck eq_refl). simpl in Hc. split; lia.
    + upd Hw; [done|].
      intros Hp0. destruct (Hset t0 w0 Hw0 Hp0). lia.
  - (* WSetStop *)
    destruct (Hset t w Hw Hpc) as [Hz Hsm].
    assert (w_mutex s = Some (Worker t)) as Hwmx by (by apply Hmwt).
    assert (∀ t0 w0, t0 ≠ t → wks s !! t0 = Some w0 → wpc w0 ≠ WSetStop) as Hoth.
    { intros t0 w0 Hne Hw0 Hp0. specialize (Hmw t0 w0 Hw0). rewrite Hp0 in Hmw.
      simpl in Hmw. destruct Hmw as [Hmw _]. specialize (Hmw I). congruence. }
    assert (missing (set_worker t (set_wpc WNotify w) (set_stop_master true s))
            = missing s) as Hmiss.
    { same_missing Hw Hpc. }
    split; rewrite ?Hmiss; simpl; try done.
    + by rewrite length_insert.
    + upd Hw; simpl; [by rewrite <-Hmwt|by apply Hmw].
    + upd Hw; [|by apply (Hcl t0)]. left. unfold arrived. simpl. tauto.
    + intros Ho. destruct (Hover Ho) as [_ Hn]. by destruct (Hn t w Hw).
    + intros _. split; [done|]. upd Hw; [done|by apply (Hoth t0)].
    + upd Hw; [done|]. intros Hp0. by destruct (Hoth t0 w0).
    + intros Har. exfalso. destruct (mpc s); simpl in *; try done.
      all: try (destruct Hover as [_ Hn]; [done|]; by destruct (Hn t w Hw)).
      all: destruct Hmm as [Hmm _]; specialize (Hmm I); congruence.
  - (* WNotify *)
    assert (∀ s0, mround s0 = mround s → wks s0 = wks s →
              missing (set_worker t (set_wpc WCheck w) s0) = missing s) as Hmiss.
    { intros s0 E1 E2. unfold missing. simpl. rewrite E1, E2.
      apply (missing_update_same _ _ _ _ _ Hw). unfold arrivedb. simpl.
      by rewrite Hpc. }
    unfold notify_master. case_decide as Hm.
    all: split; rewrite ?Hmiss by done; simpl; rewrite ?Hm in *; simpl in *;
      try done.
    all: try (by rewrite length_insert).
    all: try (upd Hw; simpl; [by rewrite <-Hmwt|by apply Hmw]).
    all: try (upd Hw; [|by apply (Hcl t0)]; left; unfold arrived; simpl; tauto).
    all: try (intros Ho; destruct (Hover Ho) as [? Hn]; split; [done|];
              upd Hw; [done|by apply (Hn t0)]).
    all: try (intros Ho; destruct (Hstop Ho) as [? Hn]; split; [done|];
              upd Hw; [done|by apply (Hn t0)]).
    all: try (upd Hw; [done|by apply (Hset t0)]).
  - (* WCheck *)
    destruct (bool_decide (l_gen w ≠ m_generation s)) eqn:Eg;
      [apply bool_decide_eq_true in Eg|apply bool_decide_eq_false in Eg].
    + assert (S (wround w) = mround s) as Hr by tauto.
      assert (missing (set_worker t (set_wpc WUnlock w) s) = missing s) as Hmiss.
      { same_missing Hw Hpc. by rewrite bool_decide_eq_false_2 by lia. }
      split; rewrite ?Hmiss; simpl; try done.
      * by rewrite length_insert.
      * upd Hw; simpl; [by rewrite <-Hmwt|by apply Hmw].
      * upd Hw; [|by apply (Hcl t0)]. right. right. unfold released. simpl.
        tauto.
      * intros Ho. destruct (Hover Ho) as [? Hn]. split; [done|].
        upd Hw; [done|by apply (Hn t0)].
      * intros Ho. destruct (Hstop Ho) as [? Hn]. split; [done|].
        upd Hw; [done|by apply (Hn t0)].
      * upd Hw; [done|by apply (Hset t0)].
    + assert (arrived s w) as Har.
      { unfold arrived. rewrite Hpc. simpl. tauto. }
      assert (missing (set_worker t (set_wpc WBlock w) s) = missing s) as Hmiss.
      { same_missing Hw Hpc. }
      split; rewrite ?Hmiss; simpl; try done.
      * by rewrite length_insert.
      * upd Hw; simpl; [by rewrite <-Hmwt|by apply Hmw].
      * upd Hw; [|by apply (Hcl t0)]. left. unfold arrived in *. simpl. tauto.
      * intros Ho. destruct (Hover Ho) as [? Hn]. split; [done|].
        upd Hw; [done|by apply (Hn t0)].
      * intros Ho. destruct (Hstop Ho) as [? Hn]. split; [done|].
        upd Hw; [done|by apply (Hn t0)].
      * upd Hw; [done|by apply (Hset t0)].
  - (* WBlock *)
    assert (w_mutex s = Some (Worker t)) as Hwmx by (by apply Hmwt).
    assert (missing (set_worker t (set_wpc WWaiting w) (set_w_mutex None s))
            = missing s) as Hmiss.
    { same_missing Hw Hpc. }
    split; rewrite ?Hmiss; simpl; try done.
    + by rewrite length_insert.
    + split; [|done]. intros Hh%Hmm. congruence.
    + upd Hw; simpl; [done|]. split; [|done]. intros Hh%(Hmw t0 w0 Hw0).
      congruence.
    + upd Hw; [|by apply (Hcl t0)]. left. unfold arrived. simpl. tauto.
    + intros Ho. destruct (Hover Ho) as [? Hn]. split; [done|].
      upd Hw; [done|by apply (Hn t0)].
    + intros Ho. destruct (Hstop Ho) as [? Hn]. split; [done|].
      upd Hw; [done|by apply (Hn t0)].
    + upd Hw; [done|by apply (Hset t0)].
  - (* WWoken *)
    assert (missing (set_worker t (set_wpc WCheck w)
                       (set_w_mutex (Some (Worker t)) s)) = missing s) as Hmiss.
    { same_missing Hw Hpc. }
    split; rewrite ?Hmiss; simpl; try done.
    + by rewrite length_insert.
    + split; [intros ?%Hmm; done|done].
    + upd Hw; simpl; [done|]. specialize (Hmw t0 w0 Hw0).
      split; [by intros ?%Hmw|congruence].
    + upd Hw; [|by apply (Hcl t0)]. unfold arrived, working, released. simpl.
      tauto.
    + intros Ho. destruct (Hover Ho) as [? Hn]. split; [done|].
      upd Hw; [done|by apply (Hn t0)].
    + intros Ho. destruct (Hstop Ho) as [? Hn]. split; [done|].
      upd Hw; [done|by apply (Hn t0)].
    + upd Hw; [done|by apply (Hset t0)].
  - (* WUnlock *)
    assert (w_mutex s = Some (Worker t)) as Hwmx by (by apply Hmwt).
    assert (S (wround w) = mround s) as Hr
      by (by destruct Hclt as [(_ & _ & ?)|[[_ ?]|[? _]]]).
    set (w' := {| wpc := WWork; l_gen := l_gen w; wround := S (wround w) |}).
    assert (missing (set_worker t w' (set_w_mutex None s)) = missing s)
      as Hmiss.
    { same_missing Hw Hpc. by rewrite !andb_false_r. }
    split; rewrite ?Hmiss; simpl; try done.
    + by rewrite length_insert.
    + split; [|done]. intros Hh%Hmm. congruence.
    + upd Hw; simpl; [done|]. split; [|done]. intros Hh%(Hmw t0 w0 Hw0).
      congruence.
    + upd Hw; [|by apply (Hcl t0)]. right. left. unfold working. simpl. done.
    + intros Ho. destruct (Hover Ho) as [? Hn]. split; [done|].
      upd Hw; [done|by apply (Hn t0)].
    + intros Ho. destruct (Hstop Ho) as [? Hn]. split; [done|].
      upd Hw; [done|by apply (Hn t0)].
    + upd Hw; [done|by apply (Hset t0)].
Qed.


Lemma spurious_inv th s s' : inv s → exec (Spurious th) s = Some s' → inv s'.
Proof.
  intros Hinv Hstep. inv_fields Hinv. destruct th as [|t]; simpl in Hstep.
  - case_decide as Hpc; [|done]. simplify_eq.
    easy_fields; rewrite Hpc in *; simpl in *; tauto.
  - destruct (wks s !! t) as [w|] eqn:Hw; [|done].
    case_decide as Hpc; [|done]. simplify_eq.
    pose proof (Hmw t w Hw) as Hmwt. pose proof (Hcl t w Hw) as Hclt.
    unfold arrived, working, released in Hclt. rewrite Hpc in *. simpl in *.
    assert (missing (set_worker t (set_wpc WWoken w) s) = missing s) as Hmiss.
    { same_missing Hw Hpc. }
    split; rewrite ?Hmiss; simpl; try done.
    + by rewrite length_insert.
    + upd Hw; simpl; [done|by apply Hmw].
    + upd Hw; [|by apply (Hcl t0)]. unfold arrived, working, released. simpl.
      tauto.
    + intros Ho. destruct (Hover Ho) as [? Hn]. split; [done|].
      upd Hw; [done|by apply (Hn t0)].
    + intros Ho. destruct (Hstop Ho) as [? Hn]. split; [done|].
      upd Hw; [done|by apply (Hn t0)].
    + upd Hw; [done|by apply (Hset t0)].
Qed.

Lemma init_inv n_workers : inv (init n_workers).
Proof.
  assert (∀ t w,
    replicate n_workers {| wpc := WWork; l_gen := 0; wround := 0 |} !! t = Some w →
    w = {| wpc := WWork; l_gen := 0; wround := 0 |}) as Hw.
  { intros t w [-> _]%lookup_replicate. done. }
  assert (missing (init n_workers) = n_workers) as Hmiss.
  { unfold missing. simpl. rewrite missing_all; [by rewrite length_replicate|].
    by intros t w ->%Hw. }
  split; rewrite ?Hmiss; simpl; try done.
  all: try (by rewrite length_replicate).
  all: try (by intros t w ->%Hw).
  intros t w ->%Hw. right. left. done.
Qed.

Lemma exec_inv a s s' : inv s → exec a s = Some s' → inv s'.
Proof.
  destruct a as [[|t]|th]; simpl.
  - apply master_next_inv.
  - apply worker_next_inv.
  - apply (spurious_inv th).
Qed.

(** The invariant holds in every state the system can reach. *)
Lemma run_inv trace s s' : inv s → run trace s = Some s' → inv s'.
Proof.
  revert s. induction trace as [|a trace IH]; intros s Hinv; simpl.
  - by intros [= <-].
  - destruct (exec a s) as [s1|] eqn:E; [|done]. apply IH. by eapply exec_inv.
Qed.

(** Safety of the rendezvous.  In every reachable state: once [MasterWait]
    has returned and until the generation is advanced, every worker has
    finished the round, has announced its arrival and has not seen a new
    generation; and no worker is ever ahead of the generation. *)
Lemma barrier_safe n_workers trace s :
  run trace (init n_workers) = Some s →
  (mpc s = MMerge →
   ∀ w, w ∈ wks s →
     wround w = mround s ∧ l_gen w = m_generation s ∧
     wpc w ∈ [WNotify; WCheck; WBlock; WWaiting; WWoken]) ∧
  (∀ w, w ∈ wks s → wround w ≤ mround s).
Proof.
  intros Hrun. pose proof (run_inv _ _ _ (init_inv n_workers) Hrun) as Hinv.
  inv_fields Hinv. split.
  - intros Hpc w [t Hw]%list_elem_of_lookup. rewrite Hpc in Hover.
    destruct Hover as [Hz Hn]; [done|].
    pose proof (missing_0 _ _ Hz t w Hw) as Har. unfold arrivedb in Har.
    apply andb_true_iff in Har as [Hr%bool_decide_eq_true Hb].
    specialize (Hn t w Hw).
    destruct (Hcl t w Hw) as [(_ & Hg & _)|[[_ Hw']|[? _]]]; [|..|lia].
    + split; [done|]. split; [done|].
      destruct (wpc w); simpl in *; try done;
        repeat first [by apply list_elem_of_here|apply list_elem_of_further].
    + destruct (wpc w); done.
  - intros w [t Hw]%list_elem_of_lookup.
    destruct (Hcl t w Hw) as [[? _]|[[? _]|[? _]]]; lia.
Qed.
End BarrierFacts.
(** * The loop with its barrier calls *)

Module WithBarrierFacts.

Lemma blocked_None (next : option Barrier.system) :
  WithBarrier.blocked next = true ↔ next = None.
Proof. destruct next; simpl; split; congruence. Qed.

Lemma stuckb_stuck b : WithBarrier.stuckb b = true ↔ Barrier.stuck b.
Proof.
  unfold WithBarrier.stuckb, Barrier.stuck.
  rewrite andb_true_iff, forallb_forall, blocked_None. split.
  - intros [Hm Hw] [|t]; simpl; [done|].
    destruct (decide (t < length (Barrier.wks b))) as [Hlt|Hge].
    + apply blocked_None, Hw, list_elem_of_In, elem_of_seq. lia.
    + unfold Barrier.worker_next.
      by rewrite (proj2 (lookup_ge_None _ _)) by lia.
  - intros Hst. split; [apply (Hst Barrier.Master)|].
    intros t _. apply blocked_None, (Hst (Barrier.Worker t)).
Qed.

Lemma await_Done ready trace b b' :
  WithBarrier.await ready trace b = WithBarrier.Done b' ↔
  Barrier.run trace b = Some b' ∧ ready b' = true.
Proof.
  unfold WithBarrier.await.
  destruct (Barrier.run trace b) as [b1|]; [|by split; [|intros []]].
  destruct (ready b1) eqn:E.
  - split; [by intros [= <-]|by intros [[= <-] _]].
  - split; [by destruct (WithBarrier.stuckb b1)|].
    intros [[= <-] ?]. congruence.
Qed.

Lemma await_Deadlock ready trace b :
  WithBarrier.await ready trace b = WithBarrier.Deadlock ↔
  ∃ b', Barrier.run trace b = Some b' ∧ ready b' = false ∧ Barrier.stuck b'.
Proof.
  unfold WithBarrier.await.
  destruct (Barrier.run trace b) as [b1|]; [|by split; [|intros (? & ? & _)]].
  destruct (ready b1) eqn:E.
  { split; [done|]. intros (? & [= <-] & ? & _). congruence. }
  destruct (WithBarrier.stuckb b1) eqn:E'.
  - apply stuckb_stuck in E'. split; [by exists b1|done].
  - split; [done|]. intros (b' & [= <-] & _ & Hst%stuckb_stuck). congruence.
Qed.

Lemma at_merge_spec k b :
  WithBarrier.at_merge k b = true ↔ Barrier.mpc b = Barrier.MMerge ∧ Barrier.mround b = k.
Proof.
  unfold WithBarrier.at_merge. by rewrite andb_true_iff, !bool_decide_eq_true.
Qed.

Lemma call_bind_Done {A B} (c : WithBarrier.call A) (f : A → WithBarrier.call B) r :
  WithBarrier.call_bind c f = WithBarrier.Done r ↔ ∃ a, c = WithBarrier.Done a ∧ f a = WithBarrier.Done r.
Proof.
  destruct c; simpl; split; try done.
  - by exists a.
  - by intros (? & [= <-] & ?).
  - by intros (? & ? & _).
  - by intros (? & ? & _).
Qed.

Section engine_facts.
Variables (g : Graph) (search_value : Z) (n_workers : nat).
Variables (assign : policy) (normalize : list nat → list nat).
Variables (bsched : nat → list Barrier.action) (bexit : list Barrier.action).
Variables (sched : nat → list nat) (uset_iter : nat → list nat → list nat).
Variable start_node : nat.

Local Abbreviation state_at :=
  (state_at g search_value n_workers assign normalize sched uset_iter
     start_node).
Local Abbreviation barrier_loop :=
  (WithBarrier.orch_loop g search_value n_workers assign normalize bsched sched
     uset_iter).

(** When the loop is left, the arrays are those of the rounds: the loop has
    made [K - k] iterations, [K] is the first round from [k] on with an
    empty frontier, and in each iteration [MasterWait] has returned. *)
Lemma orch_loop_Done fuel k b K st b' :
  barrier_loop fuel k (state_at k) b = WithBarrier.Done (K, st, b') →
  k ≤ K ≤ k + fuel ∧ st = state_at K ∧
  curr_frontier (state_at K) = [] ∧
  (∀ i, k ≤ i < K → curr_frontier (state_at i) ≠ []) ∧
  (k < K → Barrier.mpc b' = Barrier.MMerge ∧ S (Barrier.mround b') = K) ∧
  (k = K → b' = b).
Proof.
  revert k b. induction fuel as [|fuel IH]; intros k b; simpl.
  - destruct (curr_frontier (state_at k)) eqn:E; [|done].
    intros [= <- <- <-]. split_and!; first [done | lia | intros; lia].
  - destruct (curr_frontier (state_at k)) eqn:E.
    { intros [= <- <- <-]. split_and!; first [done | lia | intros; lia]. }
    intros (b1 & Hr & Hl)%call_bind_Done.
    apply await_Done in Hr as [_ [Hpc Hround]%at_merge_spec].
    apply (IH (S k)) in Hl as (HK & -> & He & Hne & Hb & Hb').
    split_and!; try done; try lia.
    + intros i Hi. destruct (decide (i = k)) as [->|?]; [by rewrite E|].
      apply Hne. lia.
    + intros _. destruct (decide (S k = K)) as [HSk|?].
      * rewrite (Hb' HSk). split; [done|]. lia.
      * apply Hb. lia.
Qed.

Lemma run_Done fuel K st b :
  WithBarrier.run g search_value n_workers assign normalize bsched sched uset_iter
    fuel start_node = WithBarrier.Done (K, st, b) →
  1 ≤ K ≤ fuel ∧ st = state_at K ∧
  curr_frontier (state_at K) = [] ∧
  (∀ i, i < K → curr_frontier (state_at i) ≠ []) ∧
  Barrier.mpc b = Barrier.MMerge ∧ S (Barrier.mround b) = K.
Proof.
  unfold WithBarrier.run. intros H.
  apply (orch_loop_Done fuel 0) in H as (HK & -> & He & Hne & Hb & _).
  assert (K ≠ 0) by (by intros ->).
  split_and!; try done; try lia.
  - intros i ?. apply Hne. lia.
  - apply Hb. lia.
Qed.

Lemma engine_Done fuel c :
  WithBarrier.engine g search_value n_workers assign normalize bsched bexit sched
    uset_iter fuel start_node = WithBarrier.Done c →
  ∃ K, 1 ≤ K ≤ fuel ∧ c = total_occurrences (state_at K) ∧
       curr_frontier (state_at K) = [] ∧
       (∀ i, i < K → curr_frontier (state_at i) ≠ []).
Proof.
  unfold WithBarrier.engine. intros ([[K st] b] & Hrun & Hc)%call_bind_Done.
  apply call_bind_Done in Hc as (_ & _ & [= <-]).
  apply run_Done in Hrun as (HK & -> & He & Hne & _).
  by exists K.
Qed.

(** The loop agrees with the loop whose WithBarrier.rendezvous are taken as complete,
    whenever it is left. *)
Lemma run_orch_loop fuel K st b :
  WithBarrier.run g search_value n_workers assign normalize bsched sched uset_iter
    fuel start_node = WithBarrier.Done (K, st, b) →
  orch_loop g search_value n_workers assign normalize sched uset_iter
    fuel 0 (init_state g n_workers start_node) = Some st.
Proof.
  unfold WithBarrier.run. generalize (Barrier.init n_workers).
  generalize (init_state g n_workers start_node). generalize 0.
  induction fuel as [|fuel IH]; intros k st0 b0; simpl.
  - destruct (curr_frontier st0); [|done]. by intros [= <- <- <-].
  - destruct (curr_frontier st0); [by intros [= <- <- <-]|].
    intros (b1 & _ & Hl)%call_bind_Done. by apply IH in Hl.
Qed.

Hypothesis Hwf : wf_graph g.
Hypothesis Hworkers : 1 ≤ n_workers.
Hypothesis Hassign : policy_ok assign.
Hypothesis Hnormalize : ∀ l, normalize l ≡ₚ l.
Hypothesis Huset : uset_iter_ok uset_iter.
Hypothesis Hstart : start_node < n_nodes g.

(** What the function returns, when it returns. *)
Lemma engine_Done_reach_count fuel c :
  WithBarrier.engine g search_value n_workers assign normalize bsched bexit sched
    uset_iter fuel start_node = WithBarrier.Done c →
  reach_count g start_node search_value c.
Proof.
  intros (K & _ & -> & He & _)%engine_Done.
  destruct (final_state g search_value n_workers assign normalize sched
              uset_iter start_node Hwf Hworkers Hassign Hnormalize Huset
              Hstart K He) as (Hnd & Hiff & _ & Hocc).
  exists (processed g search_value n_workers assign normalize sched uset_iter
            start_node K). done.
Qed.

(** The rounds are bounded by the node count. *)
Lemma rounds_bound K :
  (∀ i, i < K → curr_frontier (state_at i) ≠ []) → K ≤ n_nodes g.
Proof.
  intros Hne.
  assert (K ≤ length (processed g search_value n_workers assign normalize
                         sched uset_iter start_node K))
    by (by apply processed_grows).
  pose proof (processed_bound g search_value n_workers assign normalize sched
                uset_iter start_node Hwf Hworkers Hassign Hnormalize Huset
                Hstart K).
  lia.
Qed.

Lemma engine_Done_rounds fuel c :
  WithBarrier.engine g search_value n_workers assign normalize bsched bexit
    sched uset_iter fuel start_node = WithBarrier.Done c →
  ∃ K, 1 ≤ K ≤ n_nodes g ∧ c = total_occurrences (state_at K) ∧
       curr_frontier (state_at K) = [] ∧
       (∀ i, i < K → curr_frontier (state_at i) ≠ []).
Proof.
  intros (K & HK & -> & He & Hne)%engine_Done.
  pose proof (rounds_bound K Hne). exists K. split_and!; try done; lia.
Qed.

(** The loop is left after at most [n_nodes g] iterations, if at all. *)
Lemma run_Done_bound fuel K st b :
  WithBarrier.run g search_value n_workers assign normalize bsched sched uset_iter
    fuel start_node = WithBarrier.Done (K, st, b) →
  K ≤ n_nodes g.
Proof.
  intros (_ & _ & _ & Hne & _)%run_Done. by apply rounds_bound.
Qed.
End engine_facts.
End WithBarrierFacts.
Module InTurn.
Import Barrier.

Lemma run_app tr1 tr2 s :
  run (tr1 ++ tr2) s = run tr1 s ≫= run tr2.
Proof.
  revert s. induction tr1 as [|a tr1 IH]; intros s; simpl; [done|].
  destruct (exec a s); [apply IH|done].
Qed.

Lemma run_app_Some tr1 tr2 s s1 s2 :
  run tr1 s = Some s1 → run tr2 s1 = Some s2 → run (tr1 ++ tr2) s = Some s2.
Proof. intros H1 H2. by rewrite run_app, H1. Qed.

Lemma generation_range r : (0 ≤ WithBarrier.generation r < size_max)%Z.
Proof. apply Z.mod_pos_bound. unfold size_max. lia. Qed.

Lemma generation_S r :
  ((WithBarrier.generation r + 1) mod size_max)%Z = WithBarrier.generation (S r).
Proof.
  unfold WithBarrier.generation.
  rewrite Nat2Z.inj_succ, <-Z.add_1_r. apply Zplus_mod_idemp_l.
Qed.

Lemma generation_ne r : WithBarrier.generation r ≠ WithBarrier.generation (S r).
Proof.
  rewrite <-generation_S. apply BarrierFacts.next_generation_ne, generation_range.
Qed.

Lemma insert_replicate_next {A} (a b : A) t m :
  <[t := a]> (replicate t a ++ replicate (S m) b)
  = replicate (S t) a ++ replicate m b.
Proof.
  rewrite insert_app_r_alt by (rewrite length_replicate; lia).
  rewrite length_replicate, Nat.sub_diag. simpl.
  by rewrite app_comm_cons, replicate_cons_app, <-app_assoc.
Qed.

Lemma lookup_replicate_next {A} (a b : A) t m :
  (replicate t a ++ replicate (S m) b) !! t = Some b.
Proof.
  rewrite lookup_app_r by (rewrite length_replicate; lia).
  by rewrite length_replicate, Nat.sub_diag.
Qed.

Ltac fields :=
  cbn [wks set_worker set_wpc set_w_mutex set_m_mutex set_m_count
       set_stop_master set_mpc incr_generation notify_all
       m_threshold m_count m_generation stop_master w_mutex m_mutex mpc
       mround wpc l_gen wround].

Ltac master_runs :=
  unfold master_next at 1;
  cbv [set_mpc set_w_mutex set_m_mutex set_stop_master incr_generation
       notify_all m_threshold m_count m_generation stop_master w_mutex
       m_mutex mpc mround wks].

(** The statements of [WorkerWait], one by one. *)

Lemma next_WWork thr cnt gen stop wm mm pc rnd ws t lg r :
  ws !! t = Some {| wpc := WWork; l_gen := lg; wround := r |} →
  worker_next t
    {| m_threshold := thr; m_count := cnt; m_generation := gen;
       stop_master := stop; w_mutex := wm; m_mutex := mm; mpc := pc;
       mround := rnd; wks := ws |}
  = Some
    {| m_threshold := thr; m_count := cnt; m_generation := gen;
       stop_master := stop; w_mutex := wm; m_mutex := mm; mpc := pc;
       mround := rnd; wks := <[t := {| wpc := WLock; l_gen := lg; wround := r |}]> ws |}.
Proof.
  intros Hw. unfold worker_next. cbn [wks]. rewrite Hw. cbn [wpc w_mutex].
  reflexivity.
Qed.

Lemma next_WLock thr cnt gen stop mm pc rnd ws t lg r :
  ws !! t = Some {| wpc := WLock; l_gen := lg; wround := r |} →
  cnt - 1 ≠ 0 →
  worker_next t
    {| m_threshold := thr; m_count := cnt; m_generation := gen;
       stop_master := stop; w_mutex := None; m_mutex := mm; mpc := pc;
       mround := rnd; wks := ws |}
  = Some
    {| m_threshold := thr; m_count := cnt - 1; m_generation := gen;
       stop_master := stop; w_mutex := Some (Worker t); m_mutex := mm; mpc := pc;
       mround := rnd; wks := <[t := {| wpc := WCheck; l_gen := gen; wround := r |}]> ws |}.
Proof.
  intros Hw. unfold worker_next. cbn [wks]. rewrite Hw. cbn [wpc w_mutex].
  intros Hc. cbn [m_count]. rewrite bool_decide_eq_false_2 by done. reflexivity.
Qed.

Lemma next_WLock_last thr gen stop mm pc rnd ws t lg r :
  ws !! t = Some {| wpc := WLock; l_gen := lg; wround := r |} →
  worker_next t
    {| m_threshold := thr; m_count := 1; m_generation := gen;
       stop_master := stop; w_mutex := None; m_mutex := mm; mpc := pc;
       mround := rnd; wks := ws |}
  = Some
    {| m_threshold := thr; m_count := thr; m_generation := gen;
       stop_master := stop; w_mutex := Some (Worker t); m_mutex := mm; mpc := pc;
       mround := rnd; wks := <[t := {| wpc := WSetStop; l_gen := gen; wround := r |}]> ws |}.
Proof.
  intros Hw. unfold worker_next. cbn [wks]. rewrite Hw. cbn [wpc w_mutex].
  reflexivity.
Qed.

Lemma next_WSetStop thr cnt gen stop wm mm pc rnd ws t lg r :
  ws !! t = Some {| wpc := WSetStop; l_gen := lg; wround := r |} →
  worker_next t
    {| m_threshold := thr; m_count := cnt; m_generation := gen;
       stop_master := stop; w_mutex := wm; m_mutex := mm; mpc := pc;
       mround := rnd; wks := ws |}
  = Some
    {| m_threshold := thr; m_count := cnt; m_generation := gen;
       stop_master := true; w_mutex := wm; m_mutex := mm; mpc := pc;
       mround := rnd; wks := <[t := {| wpc := WNotify; l_gen := lg; wround := r |}]> ws |}.
Proof.
  intros Hw. unfold worker_next. cbn [wks]. rewrite Hw. cbn [wpc w_mutex].
  reflexivity.
Qed.

Lemma next_WNotify thr cnt gen stop wm mm pc rnd ws t lg r :
  ws !! t = Some {| wpc := WNotify; l_gen := lg; wround := r |} →
  pc ≠ MWaiting →
  worker_next t
    {| m_threshold := thr; m_count := cnt; m_generation := gen;
       stop_master := stop; w_mutex := wm; m_mutex := mm; mpc := pc;
       mround := rnd; wks := ws |}
  = Some
    {| m_threshold := thr; m_count := cnt; m_generation := gen;
       stop_master := stop; w_mutex := wm; m_mutex := mm; mpc := pc;
       mround := rnd; wks := <[t := {| wpc := WCheck; l_gen := lg; wround := r |}]> ws |}.
Proof.
  intros Hw. unfold worker_next. cbn [wks]. rewrite Hw. cbn [wpc w_mutex].
  intros Hpc. unfold notify_master. cbn [mpc]. rewrite decide_False by done. reflexivity.
Qed.

Lemma next_WCheck_same thr cnt gen stop wm mm pc rnd ws t lg r :
  ws !! t = Some {| wpc := WCheck; l_gen := lg; wround := r |} →
  lg = gen →
  worker_next t
    {| m_threshold := thr; m_count := cnt; m_generation := gen;
       stop_master := stop; w_mutex := wm; m_mutex := mm; mpc := pc;
       mround := rnd; wks := ws |}
  = Some
    {| m_threshold := thr; m_count := cnt; m_generation := gen;
       stop_master := stop; w_mutex := wm; m_mutex := mm; mpc := pc;
       mround := rnd; wks := <[t := {| wpc := WBlock; l_gen := lg; wround := r |}]> ws |}.
Proof.
  intros Hw. unfold worker_next. cbn [wks]. rewrite Hw. cbn [wpc w_mutex].
  intros ->. cbn [l_gen m_generation]. rewrite bool_decide_eq_false_2 by (by intros ?). reflexivity.
Qed.

Lemma next_WCheck_new thr cnt gen stop wm mm pc rnd ws t lg r :
  ws !! t = Some {| wpc := WCheck; l_gen := lg; wround := r |} →
  lg ≠ gen →
  worker_next t
    {| m_threshold := thr; m_count := cnt; m_generation := gen;
       stop_master := stop; w_mutex := wm; m_mutex := mm; mpc := pc;
       mround := rnd; wks := ws |}
  = Some
    {| m_threshold := thr; m_count := cnt; m_generation := gen;
       stop_master := stop; w_mutex := wm; m_mutex := mm; mpc := pc;
       mround := rnd; wks := <[t := {| wpc := WUnlock; l_gen := lg; wround := r |}]> ws |}.
Proof.
  intros Hw. unfold worker_next. cbn [wks]. rewrite Hw. cbn [wpc w_mutex].
  intros Hne. cbn [l_gen m_generation]. rewrite bool_decide_eq_true_2 by done. reflexivity.
Qed.

Lemma next_WBlock thr cnt gen stop wm mm pc rnd ws t lg r :
  ws !! t = Some {| wpc := WBlock; l_gen := lg; wround := r |} →
  worker_next t
    {| m_threshold := thr; m_count := cnt; m_generation := gen;
       stop_master := stop; w_mutex := wm; m_mutex := mm; mpc := pc;
       mround := rnd; wks := ws |}
  = Some
    {| m_threshold := thr; m_count := cnt; m_generation := gen;
       stop_master := stop; w_mutex := None; m_mutex := mm; mpc := pc;
       mround := rnd; wks := <[t := {| wpc := WWaiting; l_gen := lg; wround := r |}]> ws |}.
Proof.
  intros Hw. unfold worker_next. cbn [wks]. rewrite Hw. cbn [wpc w_mutex].
  reflexivity.
Qed.

Lemma next_WWoken thr cnt gen stop mm pc rnd ws t lg r :
  ws !! t = Some {| wpc := WWoken; l_gen := lg; wround := r |} →
  worker_next t
    {| m_threshold := thr; m_count := cnt; m_generation := gen;
       stop_master := stop; w_mutex := None; m_mutex := mm; mpc := pc;
       mround := rnd; wks := ws |}
  = Some
    {| m_threshold := thr; m_count := cnt; m_generation := gen;
       stop_master := stop; w_mutex := Some (Worker t); m_mutex := mm; mpc := pc;
       mround := rnd; wks := <[t := {| wpc := WCheck; l_gen := lg; wround := r |}]> ws |}.
Proof.
  intros Hw. unfold worker_next. cbn [wks]. rewrite Hw. cbn [wpc w_mutex].
  reflexivity.
Qed.

Lemma next_WUnlock thr cnt gen stop wm mm pc rnd ws t lg r :
  ws !! t = Some {| wpc := WUnlock; l_gen := lg; wround := r |} →
  worker_next t
    {| m_threshold := thr; m_count := cnt; m_generation := gen;
       stop_master := stop; w_mutex := wm; m_mutex := mm; mpc := pc;
       mround := rnd; wks := ws |}
  = Some
    {| m_threshold := thr; m_count := cnt; m_generation := gen;
       stop_master := stop; w_mutex := None; m_mutex := mm; mpc := pc;
       mround := rnd; wks := <[t := {| wpc := WWork; l_gen := lg; wround := S r |}]> ws |}.
Proof.
  intros Hw. unfold worker_next. cbn [wks]. rewrite Hw. cbn [wpc w_mutex].
  reflexivity.
Qed.

Ltac worker_runs lem :=
  erewrite lem;
  [|first [eassumption
          |apply list_lookup_insert_eq; rewrite ?length_insert;
           eapply lookup_lt_Some; eassumption]
   |try done..].

(** A worker that is not the last one finishes the round and goes through
    [WorkerWait] to its wait. *)
Lemma worker_waits thr cnt gen stop mm pc rnd ws t lg r :
  ws !! t = Some {| wpc := WWork; l_gen := lg; wround := r |} →
  cnt - 1 ≠ 0 →
  run (WithBarrier.steps 4 (Worker t))
    {| m_threshold := thr; m_count := cnt; m_generation := gen;
       stop_master := stop; w_mutex := None; m_mutex := mm; mpc := pc;
       mround := rnd; wks := ws |}
  = Some
    {| m_threshold := thr; m_count := cnt - 1; m_generation := gen;
       stop_master := stop; w_mutex := None; m_mutex := mm; mpc := pc;
       mround := rnd;
       wks := <[t := {| wpc := WWaiting; l_gen := gen; wround := r |}]> ws |}.
Proof.
  intros Hw Hcnt. unfold WithBarrier.steps. cbn [replicate run exec].
  worker_runs next_WWork. worker_runs next_WLock.
  worker_runs next_WCheck_same. worker_runs next_WBlock.
  by rewrite !list_insert_insert_eq.
Qed.

(** The last worker to arrive resets the counter, sets [stop_master] and
    notifies the orchestrator, which is not waiting. *)
Lemma worker_waits_last thr gen stop mm pc rnd ws t lg r :
  ws !! t = Some {| wpc := WWork; l_gen := lg; wround := r |} →
  pc ≠ MWaiting →
  run (WithBarrier.steps 6 (Worker t))
    {| m_threshold := thr; m_count := 1; m_generation := gen;
       stop_master := stop; w_mutex := None; m_mutex := mm; mpc := pc;
       mround := rnd; wks := ws |}
  = Some
    {| m_threshold := thr; m_count := thr; m_generation := gen;
       stop_master := true; w_mutex := None; m_mutex := mm; mpc := pc;
       mround := rnd;
       wks := <[t := {| wpc := WWaiting; l_gen := gen; wround := r |}]> ws |}.
Proof.
  intros Hw Hpc. unfold WithBarrier.steps. cbn [replicate run exec].
  worker_runs next_WWork. worker_runs next_WLock_last.
  worker_runs next_WSetStop. worker_runs next_WNotify.
  worker_runs next_WCheck_same. worker_runs next_WBlock.
  by rewrite !list_insert_insert_eq.
Qed.

(** A woken worker finds the generation changed and leaves [WorkerWait]. *)
Lemma worker_leaves thr cnt gen stop mm pc rnd ws t lg r :
  ws !! t = Some {| wpc := WWoken; l_gen := lg; wround := r |} →
  lg ≠ gen →
  run (WithBarrier.steps 3 (Worker t))
    {| m_threshold := thr; m_count := cnt; m_generation := gen;
       stop_master := stop; w_mutex := None; m_mutex := mm; mpc := pc;
       mround := rnd; wks := ws |}
  = Some
    {| m_threshold := thr; m_count := cnt; m_generation := gen;
       stop_master := stop; w_mutex := None; m_mutex := mm; mpc := pc;
       mround := rnd;
       wks := <[t := {| wpc := WWork; l_gen := lg; wround := S r |}]> ws |}.
Proof.
  intros Hw Hne. unfold WithBarrier.steps. cbn [replicate run exec].
  worker_runs next_WWoken. worker_runs next_WCheck_new.
  worker_runs next_WUnlock.
  by rewrite !list_insert_insert_eq.
Qed.

(** The orchestrator's calls on that schedule. *)
Lemma master_waits W r :
  run WithBarrier.master_wait (WithBarrier.all_arrived W r MLockM None true)
  = Some (WithBarrier.round_merged W r).
Proof.
  unfold WithBarrier.master_wait, WithBarrier.steps, WithBarrier.round_merged,
    WithBarrier.all_arrived.
  cbn [replicate run exec]. by do 4 master_runs.
Qed.

Lemma master_starts W r :
  run WithBarrier.start_workers (WithBarrier.round_merged W r)
  = Some (WithBarrier.leaving W r 0).
Proof.
  unfold WithBarrier.start_workers, WithBarrier.steps, WithBarrier.round_merged,
    WithBarrier.all_arrived, WithBarrier.leaving.
  cbn [replicate run exec]. do 5 master_runs.
  rewrite fmap_replicate, Nat.sub_0_r, generation_S. reflexivity.
Qed.

Lemma init_arriving W : init W = WithBarrier.arriving W 0 0 MLockM None 0.
Proof.
  unfold init, WithBarrier.arriving. rewrite Nat.sub_0_r. reflexivity.
Qed.

Lemma leaving_all W r :
  WithBarrier.leaving W r W
  = WithBarrier.arriving W (S r) (WithBarrier.generation r) MLockM None 0.
Proof.
  unfold WithBarrier.leaving, WithBarrier.arriving.
  rewrite Nat.sub_diag, Nat.sub_0_r. cbn [replicate]. by rewrite app_nil_r.
Qed.

Lemma arrive_prefix W r lg pc mm t :
  t < W →
  run (t' ← seq 0 t; WithBarrier.steps 4 (Worker t'))
    (WithBarrier.arriving W r lg pc mm 0)
  = Some (WithBarrier.arriving W r lg pc mm t).
Proof.
  induction t as [|t IH]; intros Ht; [done|].
  rewrite seq_S, bind_app. apply (run_app_Some _ _ _ _ _ (IH ltac:(lia))).
  cbn [mbind list_bind]. rewrite app_nil_r. unfold WithBarrier.arriving.
  replace (W - t) with (S (W - S t)) by lia.
  erewrite worker_waits; [|apply lookup_replicate_next|lia].
  rewrite insert_replicate_next. do 2 f_equal. lia.
Qed.

Lemma arrive_all W r lg pc mm :
  1 ≤ W → pc ≠ MWaiting →
  run (WithBarrier.arrive_in_turn W) (WithBarrier.arriving W r lg pc mm 0)
  = Some (WithBarrier.all_arrived W r pc mm true).
Proof.
  intros HW Hpc. unfold WithBarrier.arrive_in_turn.
  apply (run_app_Some _ _ _ _ _
           (arrive_prefix W r lg pc mm (W - 1) ltac:(lia))).
  unfold WithBarrier.arriving, WithBarrier.all_arrived.
  replace (W - (W - 1)) with 1 by lia.
  erewrite worker_waits_last; [|apply lookup_replicate_next|done].
  rewrite insert_replicate_next. rewrite app_nil_r.
  by replace (S (W - 1)) with W by lia.
Qed.

Lemma leave_prefix W r t :
  t ≤ W →
  run (t' ← seq 0 t; WithBarrier.steps 3 (Worker t'))
    (WithBarrier.leaving W r 0)
  = Some (WithBarrier.leaving W r t).
Proof.
  induction t as [|t IH]; intros Ht; [done|].
  rewrite seq_S, bind_app. apply (run_app_Some _ _ _ _ _ (IH ltac:(lia))).
  cbn [mbind list_bind]. rewrite app_nil_r. unfold WithBarrier.leaving.
  replace (W - t) with (S (W - S t)) by lia.
  erewrite worker_leaves;
    [|apply lookup_replicate_next|apply generation_ne].
  by rewrite insert_replicate_next.
Qed.

Lemma leave_all W r :
  run (WithBarrier.bexit_in_turn W) (WithBarrier.round_merged W r)
  = Some (WithBarrier.arriving W (S r) (WithBarrier.generation r) MLockM
            None 0).
Proof.
  unfold WithBarrier.bexit_in_turn.
  apply (run_app_Some _ _ _ _ _ (master_starts W r)).
  unfold WithBarrier.leave_in_turn. rewrite leave_prefix by done.
  by rewrite leaving_all.
Qed.

(** On the schedule in turn every rendezvous completes. *)
Lemma rendezvous_in_turn W k :
  1 ≤ W →
  WithBarrier.rendezvous k (WithBarrier.bsched_in_turn W k)
    (WithBarrier.barrier_at W k)
  = WithBarrier.Done (WithBarrier.barrier_at W (S k)).
Proof.
  intros HW. apply WithBarrierFacts.await_Done. split.
  - unfold WithBarrier.bsched_in_turn. destruct k as [|r]; cbn [app].
    + cbn [WithBarrier.barrier_at]. rewrite init_arriving.
      apply (run_app_Some _ _ _ _ _
               (arrive_all W 0 0 MLockM None HW ltac:(done))), master_waits.
    + cbn [WithBarrier.barrier_at]. fold (WithBarrier.bexit_in_turn W).
      apply (run_app_Some _ _ _ _ _ (leave_all W r)).
      apply (run_app_Some _ _ _ _ _
               (arrive_all W (S r) _ MLockM None HW ltac:(done))),
        master_waits.
  - unfold WithBarrier.at_merge, WithBarrier.barrier_at,
      WithBarrier.round_merged, WithBarrier.all_arrived. fields.
    by rewrite !bool_decide_eq_true_2.
Qed.

(** ... and the workers, released after the loop, all leave. *)
Lemma release_in_turn W r :
  WithBarrier.release (S r) (WithBarrier.bexit_in_turn W)
    (WithBarrier.barrier_at W (S r))
  = WithBarrier.Done
      (WithBarrier.arriving W (S r) (WithBarrier.generation r) MLockM None
         0).
Proof.
  apply WithBarrierFacts.await_Done. split; [apply leave_all|].
  unfold WithBarrier.all_left, WithBarrier.arriving. fields.
  rewrite !bool_decide_eq_true_2 by done. cbn [andb replicate app].
  apply forallb_forall. intros w [-> _]%list_elem_of_In%elem_of_replicate.
  fields. by rewrite !bool_decide_eq_true_2.
Qed.

Section in_turn_run.
Variables (g : Graph) (search_value : Z) (n_workers : nat).
Variables (assign : policy) (normalize : list nat → list nat).
Variables (sched : nat → list nat) (uset_iter : nat → list nat → list nat).
Variable start_node : nat.
Hypothesis Hworkers : 1 ≤ n_workers.

Local Abbreviation state_at :=
  (state_at g search_value n_workers assign normalize sched uset_iter
     start_node).

(** On the schedule in turn the loop runs to the first empty frontier. *)
Lemma orch_loop_in_turn fuel k K :
  k ≤ K ≤ k + fuel →
  curr_frontier (state_at K) = [] →
  (∀ i, k ≤ i < K → curr_frontier (state_at i) ≠ []) →
  WithBarrier.orch_loop g search_value n_workers assign normalize
    (WithBarrier.bsched_in_turn n_workers) sched uset_iter fuel k
    (state_at k) (WithBarrier.barrier_at n_workers k)
  = WithBarrier.Done (K, state_at K, WithBarrier.barrier_at n_workers K).
Proof.
  revert k. induction fuel as [|fuel IH]; intros k HK He Hne.
  - assert (k = K) as -> by lia. simpl. by rewrite He.
  - destruct (decide (k = K)) as [->|Hk]; [simpl; by rewrite He|].
    cbn [WithBarrier.orch_loop].
    destruct (curr_frontier (state_at k)) eqn:E.
    { by destruct (Hne k ltac:(lia)). }
    rewrite rendezvous_in_turn by done. cbn [WithBarrier.call_bind].
    apply (IH (S k)); [lia|done|]. intros i ?. apply Hne. lia.
Qed.

Hypothesis Hwf : wf_graph g.
Hypothesis Hassign : policy_ok assign.
Hypothesis Hnormalize : ∀ l, normalize l ≡ₚ l.
Hypothesis Huset : uset_iter_ok uset_iter.
Hypothesis Hstart : start_node < n_nodes g.

Lemma run_in_turn fuel :
  n_nodes g ≤ fuel →
  ∃ K, 1 ≤ K ≤ n_nodes g ∧
    WithBarrier.run g search_value n_workers assign normalize
      (WithBarrier.bsched_in_turn n_workers) sched uset_iter fuel start_node
    = WithBarrier.Done (K, state_at K, WithBarrier.barrier_at n_workers K) ∧
    curr_frontier (state_at K) = [] ∧
    ∀ i, i < K → curr_frontier (state_at i) ≠ [].
Proof.
  intros Hfuel.
  destruct (orch_loop_run g search_value n_workers assign normalize sched
              uset_iter start_node Hwf Hworkers Hassign Hnormalize Huset
              Hstart fuel Hfuel) as (K & HK & _ & He & Hne).
  exists K. split; [done|]. split; [|done].
  apply (orch_loop_in_turn fuel 0 K); [lia|done|]. intros i ?. apply Hne. lia.
Qed.

(** On the schedule in turn the function returns, and returns the number
    of matching reachable nodes. *)
Lemma engine_in_turn fuel :
  n_nodes g ≤ fuel →
  ∃ c,
    WithBarrier.engine g search_value n_workers assign normalize
      (WithBarrier.bsched_in_turn n_workers)
      (WithBarrier.bexit_in_turn n_workers) sched uset_iter fuel start_node
    = WithBarrier.Done c ∧
    reach_count g start_node search_value c.
Proof.
  intros Hfuel. destruct (run_in_turn fuel Hfuel) as (K & HK & Hrun & He & _).
  exists (total_occurrences (state_at K)). split.
  - unfold WithBarrier.engine. rewrite Hrun. cbn [WithBarrier.call_bind].
    destruct K as [|r]; [lia|]. by rewrite release_in_turn.
  - destruct (final_state g search_value n_workers assign normalize sched
                uset_iter start_node Hwf Hworkers Hassign Hnormalize Huset
                Hstart K He) as (Hnd & Hiff & _ & Hocc).
    exists (processed g search_value n_workers assign normalize sched
              uset_iter start_node K). done.
Qed.
End in_turn_run.
End InTurn.

(** ** The two functions of bfs_thread.cpp *)

(** For one worker the schedule of the lost notification is the trace of
    [Barrier]. *)
Lemma lost_wakeup_1 : WithBarrier.lost_wakeup 1 = Barrier.lost_wakeup_trace.
Proof. reflexivity. Qed.

(** All workers blocked in [WorkerWait] and the orchestrator blocked in
    [MasterWait]: no thread can run. *)
Lemma all_arrived_stuck W r mm stop :
  Barrier.stuck (WithBarrier.all_arrived W r Barrier.MWaiting mm stop).
Proof.
  intros [|t]; [done|]. simpl. unfold Barrier.worker_next.
  cbn [Barrier.wks WithBarrier.all_arrived].
  destruct (decide (t < W)) as [Ht|Ht].
  - by rewrite lookup_replicate_2.
  - rewrite (proj2 (lookup_ge_None _ _)); [done|].
    rewrite length_replicate. lia.
Qed.

(** On that schedule the first [MasterWait] does not return, whatever the
    number of workers. *)
Lemma rendezvous_lost_wakeup W :
  1 ≤ W →
  WithBarrier.rendezvous 0 (WithBarrier.lost_wakeup W) (Barrier.init W)
  = WithBarrier.Deadlock.
Proof.
  intros HW. apply WithBarrierFacts.await_Deadlock.
  exists (WithBarrier.all_arrived W 0 Barrier.MWaiting None true).
  split; [|split; [done|apply all_arrived_stuck]].
  unfold WithBarrier.lost_wakeup.
  apply (InTurn.run_app_Some _ _ _
           (WithBarrier.arriving W 0 0 Barrier.MBlock
              (Some Barrier.Master) 0)).
  { rewrite InTurn.init_arriving. reflexivity. }
  apply (InTurn.run_app_Some _ _ _ _ _
           (InTurn.arrive_all W 0 0 Barrier.MBlock (Some Barrier.Master) HW
              ltac:(done))).
  reflexivity.
Qed.

Lemma run_lost_wakeup g search_value n_workers assign normalize sched
    uset_iter fuel start_node :
  1 ≤ n_workers →
  WithBarrier.run g search_value n_workers assign normalize
    (WithBarrier.bsched_lost_wakeup n_workers) sched uset_iter (S fuel)
    start_node
  = WithBarrier.Deadlock.
Proof.
  intros HW. unfold WithBarrier.run.
  cbn [WithBarrier.orch_loop init_state curr_frontier].
  cbn [WithBarrier.bsched_lost_wakeup]. by rewrite rendezvous_lost_wakeup.
Qed.

Lemma engine_lost_wakeup g search_value n_workers assign normalize bexit
    sched uset_iter fuel start_node :
  1 ≤ n_workers →
  WithBarrier.engine g search_value n_workers assign normalize
    (WithBarrier.bsched_lost_wakeup n_workers) bexit sched uset_iter
    (S fuel) start_node
  = WithBarrier.Deadlock.
Proof.
  intros HW. unfold WithBarrier.engine. by rewrite run_lost_wakeup.
Qed.

Section bfs_thread_facts.
Variables (g : Graph) (start_node : nat) (search_value : Z) (n_workers : nat).
Variables (sched : nat → list nat) (uset_iter : nat → list nat → list nat).
Hypothesis Hwf : wf_graph g.
Hypothesis Hstart : start_node < n_nodes g.
Hypothesis Hworkers : 1 ≤ n_workers.
Hypothesis Huset : uset_iter_ok uset_iter.

Lemma chunked_engine_Done chunk_size fuel bsched bexit c :
  1 ≤ chunk_size →
  WithBarrier.engine g search_value n_workers (chunked_policy chunk_size)
    sort bsched bexit sched uset_iter fuel start_node = WithBarrier.Done c →
  reach_count g start_node search_value c.
Proof.
  intros Hcs. apply WithBarrierFacts.engine_Done_reach_count; try done.
  - by apply chunked_policy_ok.
  - apply sort_Permutation.
Qed.

Lemma parallel_bfs_Done fuel bsched bexit c :
  WithBarrier.parallel_bfs fuel bsched bexit sched uset_iter g start_node
    search_value n_workers = WithBarrier.Done c →
  reach_count g start_node search_value c.
Proof. apply chunked_engine_Done. unfold CHUNK_SIZE. lia. Qed.

Lemma static_bfs_Done fuel bsched bexit c :
  WithBarrier.__parallel_bfs_static fuel bsched bexit sched uset_iter g
    start_node search_value n_workers = WithBarrier.Done c →
  reach_count g start_node search_value c.
Proof.
  apply WithBarrierFacts.engine_Done_reach_count; try done.
  apply static_policy_ok.
Qed.

Lemma chunked_engine_in_turn chunk_size fuel :
  1 ≤ chunk_size → n_nodes g ≤ fuel →
  ∃ c,
    WithBarrier.engine g search_value n_workers (chunked_policy chunk_size)
      sort (WithBarrier.bsched_in_turn n_workers)
      (WithBarrier.bexit_in_turn n_workers) sched uset_iter fuel start_node
    = WithBarrier.Done c ∧
    reach_count g start_node search_value c.
Proof.
  intros Hcs Hfuel. apply InTurn.engine_in_turn; try done.
  - by apply chunked_policy_ok.
  - apply sort_Permutation.
Qed.

Lemma parallel_bfs_in_turn fuel :
  n_nodes g ≤ fuel →
  ∃ c,
    WithBarrier.parallel_bfs fuel (WithBarrier.bsched_in_turn n_workers)
      (WithBarrier.bexit_in_turn n_workers) sched uset_iter g start_node
      search_value n_workers = WithBarrier.Done c ∧
    reach_count g start_node search_value c.
Proof. apply chunked_engine_in_turn. unfold CHUNK_SIZE. lia. Qed.

Lemma static_bfs_in_turn fuel :
  n_nodes g ≤ fuel →
  ∃ c,
    WithBarrier.__parallel_bfs_static fuel
      (WithBarrier.bsched_in_turn n_workers)
      (WithBarrier.bexit_in_turn n_workers) sched uset_iter g start_node
      search_value n_workers = WithBarrier.Done c ∧
    reach_count g start_node search_value c.
Proof.
  intros Hfuel. apply InTurn.engine_in_turn; try done. apply static_policy_ok.
Qed.

Local Abbreviation state :=
  (parallel_bfs_state sched uset_iter g start_node search_value n_workers).

(** The loop of [parallel_bfs], when it is left: after [K] iterations, with
    the arrays of round [K], the first with an empty frontier. *)
Lemma parallel_bfs_run_Done fuel bsched K st b :
  WithBarrier.parallel_bfs_run fuel bsched sched uset_iter g start_node
    search_value n_workers = WithBarrier.Done (K, st, b) →
  1 ≤ K ≤ n_nodes g ∧ K ≤ fuel ∧ st = state K ∧
  curr_frontier (state K) = [] ∧
  ∀ i, i < K → curr_frontier (state i) ≠ [].
Proof.
  intros Hrun. unfold WithBarrier.parallel_bfs_run in Hrun.
  assert (K ≤ n_nodes g) as Hb.
  { eapply WithBarrierFacts.run_Done_bound; [..|exact Hrun]; try done.
    - apply chunked_policy_ok. unfold CHUNK_SIZE. lia.
    - apply sort_Permutation. }
  apply WithBarrierFacts.run_Done in Hrun as (HK & -> & He & Hne & _).
  split_and!; try done; lia.
Qed.

Lemma parallel_bfs_run_in_turn fuel :
  n_nodes g ≤ fuel →
  ∃ K, 1 ≤ K ≤ n_nodes g ∧
    WithBarrier.parallel_bfs_run fuel (WithBarrier.bsched_in_turn n_workers)
      sched uset_iter g start_node search_value n_workers
    = WithBarrier.Done (K, state K, WithBarrier.barrier_at n_workers K) ∧
    curr_frontier (state K) = [] ∧
    ∀ i, i < K → curr_frontier (state i) ≠ [].
Proof.
  intros Hfuel. apply InTurn.run_in_turn; try done.
  - apply chunked_policy_ok. unfold CHUNK_SIZE. lia.
  - apply sort_Permutation.
Qed.

End bfs_thread_facts.

(** * Scenarios *)

(** Eleven frontier nodes, three workers, chunks of two: five full chunks
    dealt round-robin, the odd index to worker 0; and the static split. *)
Example scenario_partition :
  map (Chunked.worker_indices 11 CHUNK_SIZE 3) [0; 1; 2]
    = [[0; 1; 6; 7; 10]; [2; 3; 8; 9]; [4; 5]] ∧
  map (Static.worker_indices 11 3) [0; 1; 2]
    = [[0; 1; 2]; [3; 4; 5]; [6; 7; 8; 9; 10]] ∧
  map (Static.worker_indices 2 3) [0; 1; 2] = [[0]; [1]; []].
Proof. vm_compute. done. Qed.

(** Scenario 1 of the specification: count 5, frontiers {0}, {1,2}, {3,4}. *)
Example scenario_five_nodes :
  WithBarrier.parallel_bfs 5 (WithBarrier.bsched_in_turn 2)
    (WithBarrier.bexit_in_turn 2) sched_alternate uset_reverse g5 0 7 2
    = WithBarrier.Done 5 ∧
  parallel_bfs 5 sched_alternate uset_reverse g5 0 7 2 = Some 5 ∧
  map (λ k, curr_frontier
              (parallel_bfs_state sched_alternate uset_reverse g5 0 7 2 k))
      (seq 0 4) = [[0]; [1; 2]; [3; 4]; []] ∧
  sequential_bfs 5 g5 0 7 = Some 5.
Proof. vm_compute. done. Qed.

(** Scenario 2: the only matching node is out of reach. *)
Example scenario_disconnected :
  WithBarrier.parallel_bfs 4 (WithBarrier.bsched_in_turn 2)
    (WithBarrier.bexit_in_turn 2) sched_in_turn uset_insertion g4 0 9 2
    = WithBarrier.Done 0 ∧
  parallel_bfs 4 sched_in_turn uset_insertion g4 0 9 2 = Some 0 ∧
  sequential_bfs 4 g4 0 9 = Some 0.
Proof. vm_compute. done. Qed.

(** Scenario 3: a single matching node.  The count is 1 when the
    orchestrator waits after the workers have arrived; when it has tested
    its predicate before the last worker arrives and blocks after, the
    call blocks for ever. *)
Example scenario_single_node :
  WithBarrier.parallel_bfs 1 (WithBarrier.bsched_in_turn 4)
    (WithBarrier.bexit_in_turn 4) sched_in_turn uset_insertion g1 0 5 4
    = WithBarrier.Done 1 ∧
  parallel_bfs 1 sched_in_turn uset_insertion g1 0 5 4 = Some 1 ∧
  WithBarrier.parallel_bfs 1 (WithBarrier.bsched_lost_wakeup 1)
    (WithBarrier.bexit_in_turn 1) sched_in_turn uset_insertion g1 0 5 1
    = WithBarrier.Deadlock ∧
  WithBarrier.__parallel_bfs_static 1 (WithBarrier.bsched_lost_wakeup 4)
    (WithBarrier.bexit_in_turn 4) sched_in_turn uset_insertion g1 0 5 4
    = WithBarrier.Deadlock.
Proof. vm_compute. done. Qed.

(** The race on [visited]: with one frontier index per chunk and the two
    workers in lockstep, both find node 3 unmarked and both push it; the
    merge keeps it once, and the count is that of the sequential search. *)
Example scenario_race :
  let state :=
    state_at diamond 1 2 (chunked_policy 1) sort sched_lockstep uset_insertion
      0 in
  partial_new_frontier <$>
    (round_end diamond 1 2 (chunked_policy 1) sched_lockstep 1 (state 1)).2
    = [[3]; [3]] ∧
  curr_frontier (state 2) = [3] ∧
  engine diamond 1 2 (chunked_policy 1) sort sched_lockstep uset_insertion 4 0
    = Some 4 ∧
  sequential_bfs 4 diamond 0 1 = Some 4.
Proof. vm_compute. done. Qed.

(** A rendezvous that completes: the worker goes through [WorkerWait] before
    the orchestrator enters [MasterWait], which then returns at once; the
    next [StartWorkers] lets the worker into round 1. *)
Example scenario_rendezvous :
  let arrive := replicate 6 (Barrier.Run (Barrier.Worker 0)) in
  let master_wait := replicate 4 (Barrier.Run Barrier.Master) in
  let start_workers := replicate 5 (Barrier.Run Barrier.Master) in
  let leave := replicate 3 (Barrier.Run (Barrier.Worker 0)) in
  (Barrier.mpc <$> Barrier.run (arrive ++ master_wait) (Barrier.init 1))
    = Some Barrier.MMerge ∧
  (Barrier.wks <$>
     Barrier.run (arrive ++ master_wait ++ start_workers ++ leave)
       (Barrier.init 1))
    = Some [{| Barrier.wpc := Barrier.WWork; Barrier.l_gen := 0;
               Barrier.wround := 1 |}].
Proof. vm_compute. done. Qed.

(** * Main results *)

Lemma uset_insertion_ok : uset_iter_ok uset_insertion.
Proof. intros k l. reflexivity. Qed.

Lemma uset_reverse_ok : uset_iter_ok uset_reverse.
Proof. intros k l. apply reverse_Permutation. Qed.

Lemma parallel_bfs_reach_count fuel sched uset_iter g start_node search_value
    n_workers :
  wf_graph g → start_node < n_nodes g → 1 ≤ n_workers →
  uset_iter_ok uset_iter → n_nodes g ≤ fuel →
  ∃ c, parallel_bfs fuel sched uset_iter g start_node search_value n_workers
         = Some c ∧
       reach_count g start_node search_value c.
Proof.
  intros. apply engine_reach_count; try done.
  - apply chunked_policy_ok. unfold CHUNK_SIZE. lia.
  - apply sort_Permutation.
Qed.

Lemma static_bfs_reach_count fuel sched uset_iter g start_node search_value
    n_workers :
  wf_graph g → start_node < n_nodes g → 1 ≤ n_workers →
  uset_iter_ok uset_iter → n_nodes g ≤ fuel →
  ∃ c, __parallel_bfs_static fuel sched uset_iter g start_node search_value
         n_workers = Some c ∧
       reach_count g start_node search_value c.
Proof.
  intros. apply engine_reach_count; try done. apply static_policy_ok.
Qed.

Lemma sequential_bfs_reach_count fuel g start_node search_value :
  wf_graph g → start_node < n_nodes g → n_nodes g ≤ fuel →
  ∃ c, sequential_bfs fuel g start_node search_value = Some c ∧
       reach_count g start_node search_value c.
Proof.
  intros Hwf Hs Hfuel.
  destruct (sequential_bfs_run_correct g start_node search_value Hwf Hs fuel
              Hfuel) as (r & Hr & Hnd & Hiff & _ & Hocc).
  exists (seq_occ r). split.
  - unfold sequential_bfs. by rewrite Hr.
  - exists (dequeued r). done.
Qed.

(** C1. [parallel_bfs] against [sequential_bfs], for every graph, valid
    start node, search value and worker count [n_workers >= 1], under every
    interleaving of the workers on [visited] and every iteration order of
    the merging set.  Whenever [parallel_bfs] returns, whatever the schedule
    of the barrier's statements, it returns the count that [sequential_bfs]
    returns; it does return, with that count, on the schedule on which the
    orchestrator enters [MasterWait] after the workers have arrived, for any
    two worker counts and with any chunk size [chunk_size >= 1] in place of
    [CHUNK_SIZE].  But it does not return on every schedule: when the
    orchestrator has evaluated the predicate of its wait before the last
    worker arrives and blocks after ([WithBarrier.lost_wakeup]; for one
    worker, [Barrier.lost_wakeup_trace]), it stays blocked in the first
    [MasterWait] with every worker blocked in [WorkerWait], and the call
    never returns a count. *)
Theorem parallel_bfs_sequential_bfs_unless_deadlock
    (g : Graph) (start_node : nat) (search_value : Z)
    (n_workers n_workers' chunk_size : nat) (sched sched' : nat → list nat)
    (uset_iter uset_iter' : nat → list nat → list nat)
    (fuel fuel_seq : nat) :
  wf_graph g → start_node < n_nodes g →
  1 ≤ n_workers → 1 ≤ n_workers' → 1 ≤ chunk_size →
  uset_iter_ok uset_iter → uset_iter_ok uset_iter' →
  n_nodes g ≤ fuel → n_nodes g ≤ fuel_seq →
  ∃ c,
    sequential_bfs fuel_seq g start_node search_value = Some c ∧
    (∀ fuel' bsched bexit c',
       WithBarrier.parallel_bfs fuel' bsched bexit sched uset_iter g
         start_node search_value n_workers = WithBarrier.Done c' → c' = c) ∧
    WithBarrier.parallel_bfs fuel (WithBarrier.bsched_in_turn n_workers)
      (WithBarrier.bexit_in_turn n_workers) sched uset_iter g start_node
      search_value n_workers = WithBarrier.Done c ∧
    WithBarrier.parallel_bfs fuel (WithBarrier.bsched_in_turn n_workers')
      (WithBarrier.bexit_in_turn n_workers') sched' uset_iter' g start_node
      search_value n_workers' = WithBarrier.Done c ∧
    WithBarrier.engine g search_value n_workers (chunked_policy chunk_size)
      sort (WithBarrier.bsched_in_turn n_workers)
      (WithBarrier.bexit_in_turn n_workers) sched uset_iter fuel start_node
      = WithBarrier.Done c ∧
    ∀ fuel' bexit,
      WithBarrier.parallel_bfs (S fuel')
        (WithBarrier.bsched_lost_wakeup n_workers) bexit sched uset_iter g
        start_node search_value n_workers = WithBarrier.Deadlock.
Proof.
  intros Hwf Hs HW HW' Hcs Hu Hu' Hf Hfs.
  destruct (sequential_bfs_reach_count fuel_seq g start_node search_value)
    as (c & Hseq & Hc); [done..|].
  destruct (parallel_bfs_in_turn g start_node search_value n_workers sched
              uset_iter Hwf Hs HW Hu fuel Hf) as (c1 & Hpar & Hc1).
  destruct (parallel_bfs_in_turn g start_node search_value n_workers' sched'
              uset_iter' Hwf Hs HW' Hu' fuel Hf) as (c2 & Hpar' & Hc2).
  destruct (chunked_engine_in_turn g start_node search_value n_workers sched
              uset_iter Hwf Hs HW Hu chunk_size fuel Hcs Hf)
    as (c3 & Heng & Hc3).
  rewrite (reach_count_unique _ _ _ _ _ Hc1 Hc) in Hpar.
  rewrite (reach_count_unique _ _ _ _ _ Hc2 Hc) in Hpar'.
  rewrite (reach_count_unique _ _ _ _ _ Hc3 Hc) in Heng.
  exists c. split; [done|]. split.
  { intros fuel' bsched bexit c' Hc'%parallel_bfs_Done; [|done..].
    by apply (reach_count_unique g start_node search_value). }
  split; [done|]. split; [done|]. split; [done|].
  intros fuel' bexit. by apply engine_lost_wakeup.
Qed.

Lemma parallel_bfs_sequential_bfs_unless_deadlock_witness :
  ∃ c,
    sequential_bfs 1 g1 0 5 = Some c ∧
    (∀ fuel' bsched bexit c',
       WithBarrier.parallel_bfs fuel' bsched bexit sched_in_turn
         uset_insertion g1 0 5 1 = WithBarrier.Done c' → c' = c) ∧
    WithBarrier.parallel_bfs 1 (WithBarrier.bsched_in_turn 1)
      (WithBarrier.bexit_in_turn 1) sched_in_turn uset_insertion g1 0 5 1
      = WithBarrier.Done c ∧
    WithBarrier.parallel_bfs 1 (WithBarrier.bsched_in_turn 8)
      (WithBarrier.bexit_in_turn 8) sched_alternate uset_reverse g1 0 5 8
      = WithBarrier.Done c ∧
    WithBarrier.engine g1 5 1 (chunked_policy 3) sort
      (WithBarrier.bsched_in_turn 1) (WithBarrier.bexit_in_turn 1)
      sched_in_turn uset_insertion 1 0 = WithBarrier.Done c ∧
    ∀ fuel' bexit,
      WithBarrier.parallel_bfs (S fuel')
        (WithBarrier.bsched_lost_wakeup 1) bexit sched_in_turn uset_insertion
        g1 0 5 1 = WithBarrier.Deadlock.
Proof.
  apply (parallel_bfs_sequential_bfs_unless_deadlock g1 0 5 1 8 3
           sched_in_turn sched_alternate uset_insertion uset_reverse 1 1).
  - apply (bool_decide_unpack _). vm_compute. exact I.
  - simpl. lia.
  - lia.
  - lia.
  - lia.
  - intros k l. reflexivity.
  - intros k l. apply reverse_Permutation.
  - simpl. lia.
  - simpl. lia.
Defined.

(** C2. For every frontier length [L], worker count [W >= 1] and chunk size
    [cs >= 1], the index lists the workers compute are what the policy says
    (index [j] of full chunk [j / cs] goes to worker [(j / cs) mod W], the
    indices past the last full chunk go to worker 0), hold no index twice,
    are pairwise disjoint, and together are exactly the indices below [L]. *)
Theorem partition_coverage (L W cs : nat) :
  1 ≤ W → 1 ≤ cs →
  (∀ t j, t < W →
     j ∈ Chunked.worker_indices L cs W t ↔
     j < L ∧ if decide (j / cs < L / cs) then (j / cs) mod W = t else t = 0) ∧
  (∀ t, t < W → NoDup (Chunked.worker_indices L cs W t)) ∧
  (∀ t1 t2 j, t1 < W → t2 < W →
     j ∈ Chunked.worker_indices L cs W t1 →
     j ∈ Chunked.worker_indices L cs W t2 → t1 = t2) ∧
  (∀ j, j < L ↔ ∃ t, t < W ∧ j ∈ Chunked.worker_indices L cs W t).
Proof.
  intros HW Hcs. split_and!.
  - intros t j Ht. by apply ChunkedFacts.elem_of_worker_indices.
  - intros t Ht. by apply ChunkedFacts.NoDup_worker_indices.
  - intros t1 t2 j. by apply ChunkedFacts.worker_indices_disjoint.
  - intros j. by apply ChunkedFacts.worker_indices_cover.
Qed.

Lemma partition_coverage_witness :
  (∀ t j, t < 3 →
     j ∈ Chunked.worker_indices 11 CHUNK_SIZE 3 t ↔
     j < 11 ∧ if decide (j / CHUNK_SIZE < 11 / CHUNK_SIZE)
              then (j / CHUNK_SIZE) mod 3 = t else t = 0) ∧
  (∀ t, t < 3 → NoDup (Chunked.worker_indices 11 CHUNK_SIZE 3 t)) ∧
  (∀ t1 t2 j, t1 < 3 → t2 < 3 →
     j ∈ Chunked.worker_indices 11 CHUNK_SIZE 3 t1 →
     j ∈ Chunked.worker_indices 11 CHUNK_SIZE 3 t2 → t1 = t2) ∧
  (∀ j, j < 11 ↔ ∃ t, t < 3 ∧ j ∈ Chunked.worker_indices 11 CHUNK_SIZE 3 t).
Proof. apply partition_coverage; unfold CHUNK_SIZE; lia. Defined.

Lemma chunked_ok : policy_ok (chunked_policy CHUNK_SIZE).
Proof. apply chunked_policy_ok. unfold CHUNK_SIZE. lia. Qed.

Section parallel_bfs_facts.
Variables (g : Graph) (start_node : nat) (search_value : Z) (n_workers : nat).
Variables (sched : nat → list nat) (uset_iter : nat → list nat → list nat).
Hypothesis Hwf : wf_graph g.
Hypothesis Hstart : start_node < n_nodes g.
Hypothesis Hworkers : 1 ≤ n_workers.
Hypothesis Huset : uset_iter_ok uset_iter.

Local Abbreviation state :=
  (parallel_bfs_state sched uset_iter g start_node search_value n_workers).

Lemma parallel_bfs_run_spec fuel :
  n_nodes g ≤ fuel →
  ∃ K, 1 ≤ K ≤ n_nodes g ∧
    parallel_bfs_run fuel sched uset_iter g start_node search_value n_workers
      = Some (state K) ∧
    curr_frontier (state K) = [] ∧
    ∀ i, i < K → curr_frontier (state i) ≠ [].
Proof.
  intros Hfuel. unfold parallel_bfs_run, parallel_bfs_state.
  apply orch_loop_run; auto using chunked_ok, sort_Permutation.
Qed.

Lemma parallel_bfs_run_result fuel final :
  parallel_bfs_run fuel sched uset_iter g start_node search_value n_workers
    = Some final →
  parallel_bfs fuel sched uset_iter g start_node search_value n_workers
    = Some (total_occurrences final).
Proof.
  unfold parallel_bfs, engine, parallel_bfs_run. by intros ->.
Qed.

Lemma state_frontier_sorted k : StronglySorted lt (curr_frontier (state (S k))).
Proof.
  apply Sorted_le_NoDup_lt.
  - unfold parallel_bfs_state. simpl. apply sort_Sorted.
  - apply frontier_NoDup; auto using chunked_ok, sort_Permutation.
Qed.
End parallel_bfs_facts.

Lemma marked_iff_unvisited V V' u :
  (marked V u ↔ marked V' u) → unvisited V u = unvisited V' u.
Proof.
  unfold marked. destruct (unvisited V u), (unvisited V' u); intuition congruence.
Qed.

(** The frontiers of [parallel_bfs] do not depend on the interleaving or on
    the iteration order of the merging set. *)
Lemma parallel_bfs_state_deterministic g start_node search_value n_workers
    sched sched' uset_iter uset_iter' k :
  wf_graph g → start_node < n_nodes g → 1 ≤ n_workers →
  uset_iter_ok uset_iter → uset_iter_ok uset_iter' →
  curr_frontier
    (parallel_bfs_state sched uset_iter g start_node search_value n_workers k) =
  curr_frontier
    (parallel_bfs_state sched' uset_iter' g start_node search_value n_workers k)
  ∧ ∀ u,
    marked (visited (parallel_bfs_state sched uset_iter g start_node
                       search_value n_workers k)) u ↔
    marked (visited (parallel_bfs_state sched' uset_iter' g start_node
                       search_value n_workers k)) u.
Proof.
  intros Hwf Hs HW Hu Hu'. pose proof chunked_ok as Hpol.
  pose proof sort_Permutation as Hsort.
  induction k as [|k [IHf IHm]]; [done|].
  assert (∀ u,
    discovered g
      (curr_frontier (parallel_bfs_state sched uset_iter g start_node
                        search_value n_workers k))
      (visited (parallel_bfs_state sched uset_iter g start_node
                  search_value n_workers k)) u ↔
    discovered g
      (curr_frontier (parallel_bfs_state sched' uset_iter' g start_node
                        search_value n_workers k))
      (visited (parallel_bfs_state sched' uset_iter' g start_node
                  search_value n_workers k)) u) as Hdisc.
  { intros u. unfold discovered. rewrite IHf.
    by rewrite (marked_iff_unvisited _ _ u (IHm u)). }
  unfold parallel_bfs_state in *. split.
  - apply (Sorted_unique (≤)).
    + simpl. apply sort_Sorted.
    + simpl. apply sort_Sorted.
    + apply NoDup_Permutation.
      * apply frontier_NoDup; auto.
      * apply frontier_NoDup; auto.
      * intros u. rewrite !frontier_discovered by auto. apply Hdisc.
  - intros u. rewrite !visited_discovered by auto. by rewrite IHm, Hdisc.
Qed.

(** C4. The orchestrator's loop of [parallel_bfs], for every graph with
    [n] nodes and every valid start node.  From one iteration to the next no
    flag of [visited] is cleared, and either the new frontier is empty or
    some node is newly marked; so whenever the loop is left, it is left
    after at least one and at most [n] iterations, at the first round with
    an empty frontier, and it is left on the schedule on which the
    orchestrator enters [MasterWait] after the workers have arrived.  But
    the loop does not terminate on every schedule: on the schedule of the
    lost notification ([WithBarrier.lost_wakeup]; for one worker,
    [Barrier.lost_wakeup_trace]) the orchestrator blocks for ever in the
    [MasterWait] of the first iteration. *)
Theorem orchestrator_loop_bound_unless_deadlock
    (g : Graph) (start_node : nat) (search_value : Z) (n_workers : nat)
    (sched : nat → list nat) (uset_iter : nat → list nat → list nat)
    (fuel : nat) :
  wf_graph g → start_node < n_nodes g → 1 ≤ n_workers →
  uset_iter_ok uset_iter → n_nodes g ≤ fuel →
  let state :=
    parallel_bfs_state sched uset_iter g start_node search_value n_workers in
  (∀ fuel' bsched K st b,
     WithBarrier.parallel_bfs_run fuel' bsched sched uset_iter g start_node
       search_value n_workers = WithBarrier.Done (K, st, b) →
     1 ≤ K ≤ n_nodes g ∧ st = state K ∧
     curr_frontier (state K) = [] ∧
     ∀ i, i < K → curr_frontier (state i) ≠ []) ∧
  (∃ K, 1 ≤ K ≤ n_nodes g ∧
     WithBarrier.parallel_bfs_run fuel (WithBarrier.bsched_in_turn n_workers)
       sched uset_iter g start_node search_value n_workers
       = WithBarrier.Done (K, state K, WithBarrier.barrier_at n_workers K)) ∧
  (∀ k u, marked (visited (state k)) u → marked (visited (state (S k))) u) ∧
  (∀ k, curr_frontier (state (S k)) = [] ∨
        ∃ u, ¬ marked (visited (state k)) u ∧
             marked (visited (state (S k))) u) ∧
  (∀ fuel',
     WithBarrier.parallel_bfs_run (S fuel')
       (WithBarrier.bsched_lost_wakeup n_workers) sched uset_iter g
       start_node search_value n_workers = WithBarrier.Deadlock).
Proof.
  intros Hwf Hs HW Hu Hfuel state. pose proof chunked_ok as Hpol.
  pose proof sort_Permutation as Hsort. split_and!.
  - intros fuel' bsched K st b Hrun.
    apply parallel_bfs_run_Done in Hrun as (? & _ & ? & ? & ?); done.
  - destruct (parallel_bfs_run_in_turn g start_node search_value n_workers
                sched uset_iter Hwf Hs HW Hu fuel Hfuel)
      as (K & HK & Hrun & _).
    by exists K.
  - intros k u. by apply visited_mono.
  - intros k. by apply round_progress.
  - intros fuel'. by apply run_lost_wakeup.
Qed.

Lemma orchestrator_loop_bound_unless_deadlock_witness :
  let state := parallel_bfs_state sched_in_turn uset_insertion g1 0 5 1 in
  (∀ fuel' bsched K st b,
     WithBarrier.parallel_bfs_run fuel' bsched sched_in_turn uset_insertion
       g1 0 5 1 = WithBarrier.Done (K, st, b) →
     1 ≤ K ≤ n_nodes g1 ∧ st = state K ∧
     curr_frontier (state K) = [] ∧
     ∀ i, i < K → curr_frontier (state i) ≠ []) ∧
  (∃ K, 1 ≤ K ≤ n_nodes g1 ∧
     WithBarrier.parallel_bfs_run 1 (WithBarrier.bsched_in_turn 1)
       sched_in_turn uset_insertion g1 0 5 1
       = WithBarrier.Done (K, state K, WithBarrier.barrier_at 1 K)) ∧
  (∀ k u, marked (visited (state k)) u → marked (visited (state (S k))) u) ∧
  (∀ k, curr_frontier (state (S k)) = [] ∨
        ∃ u, ¬ marked (visited (state k)) u ∧
             marked (visited (state (S k))) u) ∧
  (∀ fuel',
     WithBarrier.parallel_bfs_run (S fuel')
       (WithBarrier.bsched_lost_wakeup 1) sched_in_turn uset_insertion g1 0
       5 1 = WithBarrier.Deadlock).
Proof.
  apply (orchestrator_loop_bound_unless_deadlock g1 0 5 1 sched_in_turn
           uset_insertion 1).
  - apply (bool_decide_unpack _). vm_compute. exact I.
  - simpl. lia.
  - lia.
  - intros k l. reflexivity.
  - simpl. lia.
Defined.

(** C3. The rendezvous can miss the workers' completion notification.  With
    one worker, let the orchestrator evaluate the predicate of its wait
    ([stop_master] is still false), let the worker then run through
    [WorkerWait] (it resets [m_count], sets [stop_master], notifies [m_cond],
    on which nobody is blocked yet, and blocks on [w_cond]), and let the
    orchestrator block only then.  The round is complete and [stop_master] is
    set, yet no thread can run: [MasterWait] never returns, short of a
    spurious wake-up.  (Where [MasterWait] does return, the workers are where
    the claim says: see [BarrierFacts.barrier_safe].) *)
Theorem barrier_lost_wakeup :
  ∃ s, Barrier.run Barrier.lost_wakeup_trace (Barrier.init 1) = Some s ∧
       Barrier.stop_master s = true ∧
       Barrier.mpc s = Barrier.MWaiting ∧
       Barrier.wks s =
         [{| Barrier.wpc := Barrier.WWaiting; Barrier.l_gen := 0;
             Barrier.wround := 0 |}] ∧
       Barrier.mround s = 0 ∧
       Barrier.stuck s.
Proof.
  eexists. split; [vm_compute; reflexivity|]. split_and!; try done.
  intros [|[|t]]; reflexivity.
Qed.

(** C5. In every round of [parallel_bfs] the merge leaves as new frontier
    the node ids held in the workers' partial buffers, each once, in strictly
    increasing order, and leaves every buffer empty; the sequence of
    frontiers is the same under any two interleavings and any two iteration
    orders of the merging set. *)
Theorem merged_frontier_deterministic
    (g : Graph) (start_node : nat) (search_value : Z) (n_workers : nat)
    (sched sched' : nat → list nat)
    (uset_iter uset_iter' : nat → list nat → list nat) (k : nat) :
  wf_graph g → start_node < n_nodes g → 1 ≤ n_workers →
  uset_iter_ok uset_iter → uset_iter_ok uset_iter' →
  let state :=
    parallel_bfs_state sched uset_iter g start_node search_value n_workers in
  let state' :=
    parallel_bfs_state sched' uset_iter' g start_node search_value n_workers in
  let buffers :=
    partial_new_frontier <$>
      (round_end g search_value n_workers (chunked_policy CHUNK_SIZE) sched k
         (state k)).2 in
  StronglySorted lt (curr_frontier (state (S k))) ∧
  (∀ u, u ∈ curr_frontier (state (S k)) ↔ ∃ b, b ∈ buffers ∧ u ∈ b) ∧
  Forall (λ w, partial_new_frontier w = []) (workers (state (S k))) ∧
  ∀ i, curr_frontier (state i) = curr_frontier (state' i).
Proof.
  intros Hwf Hs HW Hu Hu' state state' buffers. split_and!.
  - by apply state_frontier_sorted.
  - intros u. unfold state, parallel_bfs_state. simpl.
    rewrite (merge_frontier_perm sort uset_iter sort_Permutation Hu).
    rewrite elem_of_remove_dups, list_elem_of_bind. unfold buffers. split.
    + intros (w & ? & ?). exists (partial_new_frontier w). split; [|done].
      by apply list_elem_of_fmap_2.
    + intros (b & (w & -> & ?)%list_elem_of_fmap & ?). eauto.
  - unfold state, parallel_bfs_state. simpl.
    apply Forall_fmap, Forall_forall. by intros w _.
  - intros i. by apply parallel_bfs_state_deterministic.
Qed.

Lemma merged_frontier_deterministic_witness :
  let state := parallel_bfs_state sched_in_turn uset_insertion g5 0 7 2 in
  let state' := parallel_bfs_state sched_alternate uset_reverse g5 0 7 2 in
  let buffers :=
    partial_new_frontier <$>
      (round_end g5 7 2 (chunked_policy CHUNK_SIZE) sched_in_turn 1
         (state 1)).2 in
  StronglySorted lt (curr_frontier (state 2)) ∧
  (∀ u, u ∈ curr_frontier (state 2) ↔ ∃ b, b ∈ buffers ∧ u ∈ b) ∧
  Forall (λ w, partial_new_frontier w = []) (workers (state 2)) ∧
  ∀ i, curr_frontier (state i) = curr_frontier (state' i).
Proof.
  apply merged_frontier_deterministic.
  - apply (bool_decide_unpack _). vm_compute. exact I.
  - simpl. lia.
  - lia.
  - intros k l. reflexivity.
  - intros k l. apply reverse_Permutation.
Defined.



(** C7. [parallel_bfs] (fixed-size chunks dealt round-robin) against
    [__parallel_bfs_static] (one contiguous slice per worker, recomputed
    every round), for every graph, valid start node, search value and
    worker count [n_workers >= 1].  Both policies cover the indices of the
    frontier disjointly; whenever the two functions return, they return the
    same count, and both return it on the schedule on which the orchestrator
    enters [MasterWait] after the workers have arrived.  But neither returns
    on every schedule: they share the barrier, and both block in the first
    [MasterWait] on the schedule of the lost notification
    ([WithBarrier.lost_wakeup]; for one worker,
    [Barrier.lost_wakeup_trace]). *)
Theorem static_policy_equivalent_unless_deadlock
    (g : Graph) (start_node : nat) (search_value : Z) (n_workers : nat)
    (sched sched' : nat → list nat)
    (uset_iter uset_iter' : nat → list nat → list nat) (fuel fuel' : nat) :
  wf_graph g → start_node < n_nodes g → 1 ≤ n_workers →
  uset_iter_ok uset_iter → uset_iter_ok uset_iter' →
  n_nodes g ≤ fuel → n_nodes g ≤ fuel' →
  policy_ok (chunked_policy CHUNK_SIZE) ∧
  policy_ok static_policy ∧
  ∃ c,
    (∀ fuel0 bsched bexit c',
       WithBarrier.parallel_bfs fuel0 bsched bexit sched uset_iter g
         start_node search_value n_workers = WithBarrier.Done c' → c' = c) ∧
    (∀ fuel0 bsched bexit c',
       WithBarrier.__parallel_bfs_static fuel0 bsched bexit sched' uset_iter'
         g start_node search_value n_workers = WithBarrier.Done c' →
       c' = c) ∧
    WithBarrier.parallel_bfs fuel (WithBarrier.bsched_in_turn n_workers)
      (WithBarrier.bexit_in_turn n_workers) sched uset_iter g start_node
      search_value n_workers = WithBarrier.Done c ∧
    WithBarrier.__parallel_bfs_static fuel'
      (WithBarrier.bsched_in_turn n_workers)
      (WithBarrier.bexit_in_turn n_workers) sched' uset_iter' g start_node
      search_value n_workers = WithBarrier.Done c ∧
    ∀ fuel0 bexit,
      WithBarrier.parallel_bfs (S fuel0)
        (WithBarrier.bsched_lost_wakeup n_workers) bexit sched uset_iter g
        start_node search_value n_workers = WithBarrier.Deadlock ∧
      WithBarrier.__parallel_bfs_static (S fuel0)
        (WithBarrier.bsched_lost_wakeup n_workers) bexit sched' uset_iter' g
        start_node search_value n_workers = WithBarrier.Deadlock.
Proof.
  intros Hwf Hs HW Hu Hu' Hf Hf'.
  split; [apply chunked_ok|]. split; [apply static_policy_ok|].
  destruct (parallel_bfs_in_turn g start_node search_value n_workers sched
              uset_iter Hwf Hs HW Hu fuel Hf) as (c & Hpar & Hc).
  destruct (static_bfs_in_turn g start_node search_value n_workers sched'
              uset_iter' Hwf Hs HW Hu' fuel' Hf') as (c' & Hst & Hc').
  rewrite (reach_count_unique _ _ _ _ _ Hc' Hc) in Hst.
  exists c. split.
  { intros fuel0 bsched bexit c0 H0%parallel_bfs_Done; [|done..].
    by apply (reach_count_unique g start_node search_value). }
  split.
  { intros fuel0 bsched bexit c0 H0%static_bfs_Done; [|done..].
    by apply (reach_count_unique g start_node search_value). }
  split; [done|]. split; [done|].
  intros fuel0 bexit. split; by apply engine_lost_wakeup.
Qed.

Lemma static_policy_equivalent_unless_deadlock_witness :
  policy_ok (chunked_policy CHUNK_SIZE) ∧
  policy_ok static_policy ∧
  ∃ c,
    (∀ fuel0 bsched bexit c',
       WithBarrier.parallel_bfs fuel0 bsched bexit sched_alternate
         uset_insertion g5 0 7 3 = WithBarrier.Done c' → c' = c) ∧
    (∀ fuel0 bsched bexit c',
       WithBarrier.__parallel_bfs_static fuel0 bsched bexit sched_in_turn
         uset_reverse g5 0 7 3 = WithBarrier.Done c' → c' = c) ∧
    WithBarrier.parallel_bfs 5 (WithBarrier.bsched_in_turn 3)
      (WithBarrier.bexit_in_turn 3) sched_alternate uset_insertion g5 0 7 3
      = WithBarrier.Done c ∧
    WithBarrier.__parallel_bfs_static 5 (WithBarrier.bsched_in_turn 3)
      (WithBarrier.bexit_in_turn 3) sched_in_turn uset_reverse g5 0 7 3
      = WithBarrier.Done c ∧
    ∀ fuel0 bexit,
      WithBarrier.parallel_bfs (S fuel0)
        (WithBarrier.bsched_lost_wakeup 3) bexit sched_alternate
        uset_insertion g5 0 7 3 = WithBarrier.Deadlock ∧
      WithBarrier.__parallel_bfs_static (S fuel0)
        (WithBarrier.bsched_lost_wakeup 3) bexit sched_in_turn uset_reverse
        g5 0 7 3 = WithBarrier.Deadlock.
Proof.
  apply (static_policy_equivalent_unless_deadlock g5 0 7 3 sched_alternate
           sched_in_turn uset_insertion uset_reverse 5 5).
  - apply (bool_decide_unpack _). vm_compute. exact I.
  - simpl. lia.
  - lia.
  - intros k l. reflexivity.
  - intros k l. apply reverse_Permutation.
  - simpl. lia.
  - simpl. lia.
Defined.

(** C8. The start node is the frontier of round 0 and is examined there:
    after round 0 the workers' counters add up to 1 if its value equals the
    search value and to 0 otherwise, and a count that [parallel_bfs] returns
    is then at least 1.  On a graph of one node whose value equals the
    search value, for every worker count [n_workers >= 1]: whenever
    [parallel_bfs] returns it returns 1, whenever its loop is left it has
    run exactly once, and both happen on the schedule on which the
    orchestrator enters [MasterWait] after the workers have arrived.  But
    the call does not return on every schedule: on the schedule of the lost
    notification ([WithBarrier.lost_wakeup]; for one worker,
    [Barrier.lost_wakeup_trace]) it blocks in that one round's
    [MasterWait]. *)
Theorem start_node_counted_unless_deadlock
    (g : Graph) (start_node : nat) (search_value : Z) (n_workers : nat)
    (sched : nat → list nat) (uset_iter : nat → list nat → list nat)
    (fuel : nat) :
  wf_graph g → start_node < n_nodes g → 1 ≤ n_workers →
  uset_iter_ok uset_iter → n_nodes g ≤ fuel →
  let state :=
    parallel_bfs_state sched uset_iter g start_node search_value n_workers in
  curr_frontier (state 0) = [start_node] ∧
  total_occurrences (state 1) =
    (if matches g search_value start_node then 1 else 0) ∧
  (matches g search_value start_node = true →
   (∀ fuel' bsched bexit c,
      WithBarrier.parallel_bfs fuel' bsched bexit sched uset_iter g
        start_node search_value n_workers = WithBarrier.Done c → 1 ≤ c) ∧
   ∃ c, WithBarrier.parallel_bfs fuel (WithBarrier.bsched_in_turn n_workers)
          (WithBarrier.bexit_in_turn n_workers) sched uset_iter g start_node
          search_value n_workers = WithBarrier.Done c ∧ 1 ≤ c) ∧
  (n_nodes g = 1 → matches g search_value start_node = true →
   start_node = 0 ∧
   (∀ fuel' bsched bexit c,
      WithBarrier.parallel_bfs fuel' bsched bexit sched uset_iter g
        start_node search_value n_workers = WithBarrier.Done c → c = 1) ∧
   (∀ fuel' bsched K st b,
      WithBarrier.parallel_bfs_run fuel' bsched sched uset_iter g start_node
        search_value n_workers = WithBarrier.Done (K, st, b) →
      K = 1 ∧ st = state 1) ∧
   WithBarrier.parallel_bfs fuel (WithBarrier.bsched_in_turn n_workers)
     (WithBarrier.bexit_in_turn n_workers) sched uset_iter g start_node
     search_value n_workers = WithBarrier.Done 1 ∧
   WithBarrier.parallel_bfs_run fuel (WithBarrier.bsched_in_turn n_workers)
     sched uset_iter g start_node search_value n_workers
     = WithBarrier.Done (1, state 1, WithBarrier.barrier_at n_workers 1)) ∧
  (∀ fuel' bexit,
     WithBarrier.parallel_bfs (S fuel')
       (WithBarrier.bsched_lost_wakeup n_workers) bexit sched uset_iter g
       start_node search_value n_workers = WithBarrier.Deadlock).
Proof.
  intros Hwf Hs HW Hu Hfuel state. pose proof chunked_ok as Hpol.
  pose proof sort_Permutation as Hsort.
  destruct (first_round_occ g search_value n_workers
              (chunked_policy CHUNK_SIZE) sort sched uset_iter
              start_node) as [Hf0 Hocc]; [done..|].
  assert (∀ c, matches g search_value start_node = true →
               reach_count g start_node search_value c → 1 ≤ c) as Hone.
  { intros c Hm (l & Hnd & Hl & ->).
    assert (start_node ∈ filter (λ u, matches g search_value u = true) l)
      as Hin.
    { apply list_elem_of_filter. split; [done|]. apply Hl. constructor. }
    destruct (filter _ l); [by apply elem_of_nil in Hin|simpl; lia]. }
  destruct (parallel_bfs_in_turn g start_node search_value n_workers sched
              uset_iter Hwf Hs HW Hu fuel Hfuel) as (c & Hpar & Hc).
  destruct (parallel_bfs_run_in_turn g start_node search_value n_workers
              sched uset_iter Hwf Hs HW Hu fuel Hfuel)
    as (K & HK & Hrun & _).
  fold state in Hrun.
  split; [done|]. split; [done|]. split_and!.
  - intros Hm. split.
    + intros fuel' bsched bexit c' Hc'%parallel_bfs_Done; [|done..].
      by apply Hone.
    + exists c. split; [done|]. by apply Hone.
  - intros Hn Hm.
    assert (∀ fuel' bsched bexit c',
              WithBarrier.parallel_bfs fuel' bsched bexit sched uset_iter g
                start_node search_value n_workers = WithBarrier.Done c' →
              c' = 1) as Hret.
    { intros fuel' bsched bexit c' Hc'.
      unfold WithBarrier.parallel_bfs in Hc'.
      apply WithBarrierFacts.engine_Done_rounds in Hc'
        as (K' & HK' & -> & _); [|done..].
      assert (K' = 1) as -> by lia.
      unfold state, parallel_bfs_state in Hocc. by rewrite Hocc, Hm. }
    assert (K = 1) as -> by lia.
    split_and!; try done; try lia.
    + intros fuel' bsched K' st b Hrun'.
      apply parallel_bfs_run_Done in Hrun' as (? & _ & -> & _); [|done..].
      assert (K' = 1) as -> by lia. done.
    + by rewrite <-(Hret _ _ _ _ Hpar).
  - intros fuel' bexit. by apply engine_lost_wakeup.
Qed.

Lemma start_node_counted_unless_deadlock_witness :
  let state := parallel_bfs_state sched_in_turn uset_insertion g1 0 5 1 in
  curr_frontier (state 0) = [0] ∧
  total_occurrences (state 1) = (if matches g1 5 0 then 1 else 0) ∧
  (matches g1 5 0 = true →
   (∀ fuel' bsched bexit c,
      WithBarrier.parallel_bfs fuel' bsched bexit sched_in_turn
        uset_insertion g1 0 5 1 = WithBarrier.Done c → 1 ≤ c) ∧
   ∃ c, WithBarrier.parallel_bfs 1 (WithBarrier.bsched_in_turn 1)
          (WithBarrier.bexit_in_turn 1) sched_in_turn uset_insertion g1 0 5 1
          = WithBarrier.Done c ∧ 1 ≤ c) ∧
  (n_nodes g1 = 1 → matches g1 5 0 = true →
   0 = 0 ∧
   (∀ fuel' bsched bexit c,
      WithBarrier.parallel_bfs fuel' bsched bexit sched_in_turn
        uset_insertion g1 0 5 1 = WithBarrier.Done c → c = 1) ∧
   (∀ fuel' bsched K st b,
      WithBarrier.parallel_bfs_run fuel' bsched sched_in_turn uset_insertion
        g1 0 5 1 = WithBarrier.Done (K, st, b) →
      K = 1 ∧ st = state 1) ∧
   WithBarrier.parallel_bfs 1 (WithBarrier.bsched_in_turn 1)
     (WithBarrier.bexit_in_turn 1) sched_in_turn uset_insertion g1 0 5 1
     = WithBarrier.Done 1 ∧
   WithBarrier.parallel_bfs_run 1 (WithBarrier.bsched_in_turn 1)
     sched_in_turn uset_insertion g1 0 5 1
     = WithBarrier.Done (1, state 1, WithBarrier.barrier_at 1 1)) ∧
  (∀ fuel' bexit,
     WithBarrier.parallel_bfs (S fuel')
       (WithBarrier.bsched_lost_wakeup 1) bexit sched_in_turn uset_insertion
       g1 0 5 1 = WithBarrier.Deadlock).
Proof.
  apply (start_node_counted_unless_deadlock g1 0 5 1 sched_in_turn
           uset_insertion 1).
  - apply (bool_decide_unpack _). vm_compute. exact I.
  - simpl. lia.
  - lia.
  - intros k l. reflexivity.
  - simpl. lia.
Defined.

(** C9. [sequential_bfs] returns the number of nodes reachable from the
    start node (the start node included) whose value equals the search
    value: the nodes it dequeues are exactly the reachable nodes, none of
    them twice, and the count it returns is the number of matches among
    them. *)
Theorem sequential_bfs_counts_reachable
    (g : Graph) (start_node : nat) (search_value : Z) (fuel : nat) :
  wf_graph g → start_node < n_nodes g → n_nodes g ≤ fuel →
  ∃ r,
    sequential_bfs_run fuel g start_node search_value = Some r ∧
    sequential_bfs fuel g start_node search_value = Some (seq_occ r) ∧
    NoDup (dequeued r) ∧
    (∀ u, u ∈ dequeued r ↔ reach g start_node u) ∧
    seq_occ r =
      length (filter (λ u, matches g search_value u = true) (dequeued r)).
Proof.
  intros Hwf Hs Hfuel.
  destruct (sequential_bfs_run_correct g start_node search_value Hwf Hs fuel
              Hfuel) as (r & Hr & Hnd & Hiff & _ & Hocc).
  exists r. split_and!; try done. unfold sequential_bfs. by rewrite Hr.
Qed.

Lemma sequential_bfs_counts_reachable_witness :
  ∃ r,
    sequential_bfs_run 5 g5 0 7 = Some r ∧
    sequential_bfs 5 g5 0 7 = Some (seq_occ r) ∧
    NoDup (dequeued r) ∧
    (∀ u, u ∈ dequeued r ↔ reach g5 0 u) ∧
    seq_occ r = length (filter (λ u, matches g5 7 u = true) (dequeued r)).
Proof.
  apply sequential_bfs_counts_reachable.
  - apply (bool_decide_unpack _). vm_compute. exact I.
  - simpl. lia.
  - simpl. lia.
Defined.

(** C10. Invariant of the loop of [parallel_bfs]: at the head of every
    iteration every node of the frontier is marked in [visited]; no step of
    a worker clears a flag, and none is cleared from one iteration to the
    next; the frontiers of two different rounds share no node. *)
Theorem frontier_visited_invariant
    (g : Graph) (start_node : nat) (search_value : Z) (n_workers : nat)
    (sched : nat → list nat) (uset_iter : nat → list nat → list nat) :
  wf_graph g → start_node < n_nodes g → 1 ≤ n_workers →
  uset_iter_ok uset_iter →
  let state :=
    parallel_bfs_state sched uset_iter g start_node search_value n_workers in
  (∀ k u, u ∈ curr_frontier (state k) → marked (visited (state k)) u) ∧
  (∀ frontier vis w u,
     marked vis u →
     marked (worker_step g search_value frontier vis w).1 u) ∧
  (∀ k u, marked (visited (state k)) u → marked (visited (state (S k))) u) ∧
  (∀ k k' u, u ∈ curr_frontier (state k) → u ∈ curr_frontier (state k') →
             k = k').
Proof.
  intros Hwf Hs HW Hu state. pose proof chunked_ok as Hpol.
  pose proof sort_Permutation as Hsort. split_and!.
  - intros k u. by apply frontier_marked.
  - intros frontier vis w u. apply worker_step_mono.
  - intros k u. by apply visited_mono.
  - intros k k' u. by apply frontiers_disjoint.
Qed.

Lemma frontier_visited_invariant_witness :
  let state := parallel_bfs_state sched_alternate uset_insertion g5 0 7 2 in
  (∀ k u, u ∈ curr_frontier (state k) → marked (visited (state k)) u) ∧
  (∀ frontier vis w u,
     marked vis u → marked (worker_step g5 7 frontier vis w).1 u) ∧
  (∀ k u, marked (visited (state k)) u → marked (visited (state (S k))) u) ∧
  (∀ k k' u, u ∈ curr_frontier (state k) → u ∈ curr_frontier (state k') →
             k = k').
Proof.
  apply frontier_visited_invariant.
  - apply (bool_decide_unpack _). vm_compute. exact I.
  - simpl. lia.
  - lia.
  - intros k l. reflexivity.
Defined.

(** * utils.cpp *)

Module UtilsFacts.
Import Utils.

Lemma std_find_le args opt : std_find args opt ≤ length args.
Proof. induction args as [|a args IH]; simpl; [done|]. case_decide; lia. Qed.

(** [std::find] splits the arguments at the first occurrence. *)
Lemma std_find_lt args opt :
  std_find args opt < length args ↔
  ∃ pre post, args = pre ++ opt :: post ∧ (opt ∉ pre) ∧
              std_find args opt = length pre.
Proof.
  induction args as [|a args IH]; simpl.
  - split; [lia|]. intros (pre & post & E & _). by destruct pre.
  - case_decide as Ha.
    + subst a. split; [|lia]. intros _. exists [], args.
      split; [done|]. split; [apply not_elem_of_nil|done].
    + split.
      * intros Hlt. apply Nat.succ_lt_mono in Hlt.
        apply IH in Hlt as (pre & post & -> & Hpre & Hlen).
        exists (a :: pre), post. split; [done|]. split; [|simpl; lia].
        intros [?|?]%elem_of_cons; congruence.
      * intros (pre & post & E & Hpre & Hlen).
        destruct pre as [|b pre]; simplify_eq/=.
        rewrite length_app. simpl. lia.
Qed.

Lemma std_find_app pre post opt :
  opt ∉ pre → std_find (pre ++ opt :: post) opt = length pre.
Proof.
  induction pre as [|a pre IH]; simpl; intros Hpre.
  - by rewrite decide_True.
  - rewrite decide_False by (intros ->; apply Hpre; left).
    f_equal. apply IH. intros ?. apply Hpre. by right.
Qed.

Lemma cmdOptionExists_elem_of args opt :
  cmdOptionExists args opt = true ↔ opt ∈ args.
Proof.
  unfold cmdOptionExists. rewrite negb_true_iff, Nat.eqb_neq.
  pose proof (std_find_le args opt). split.
  - intros Hne. assert (std_find args opt < length args) as Hlt by lia.
    apply std_find_lt in Hlt as (pre & post & -> & _).
    apply elem_of_app. right. left.
  - intros (pre & post & -> & Hpre)%list_elem_of_split_l.
    rewrite std_find_app by done. rewrite length_app. simpl. lia.
Qed.
Lemma getCmdOption_app pre post opt v :
  opt ∉ pre → getCmdOption (pre ++ opt :: v :: post) opt = Some v.
Proof.
  intros Hpre. unfold getCmdOption. rewrite std_find_app by done.
  rewrite !length_app. cbn [length].
  destruct (Nat.eqb_spec (length pre) (length pre + S (S (length post))));
    [lia|].
  destruct (Nat.eqb_spec (S (length pre)) (length pre + S (S (length post))));
    [lia|]. cbn [negb andb].
  rewrite lookup_app_r by lia.
  by replace (S (length pre) - length pre) with 1 by lia.
Qed.
End UtilsFacts.

(** X1. [getCmdOption] returns the argument that follows the first
    occurrence of the option, whatever that argument is (another option
    included), and nothing else. *)
Theorem getCmdOption_Some (args : list string) (opt v : string) :
  Utils.getCmdOption args opt = Some v ↔
  ∃ pre post, args = pre ++ opt :: v :: post ∧ opt ∉ pre.
Proof.
  split.
  - unfold Utils.getCmdOption.
    destruct (negb _ && negb _) eqn:E; [|done].
    apply andb_true_iff in E as [E1 E2].
    apply negb_true_iff, Nat.eqb_neq in E1, E2.
    pose proof (UtilsFacts.std_find_le args opt).
    assert (Hlt : Utils.std_find args opt < length args) by lia.
    apply UtilsFacts.std_find_lt in Hlt as (pre & post & -> & Hpre & Hlen).
    rewrite Hlen. intros Hv.
    rewrite lookup_app_r in Hv by lia.
    replace (S (length pre) - length pre) with 1 in Hv by lia.
    destruct post as [|v' post]; simplify_eq/=. eauto.
  - intros (pre & post & -> & Hpre). by apply UtilsFacts.getCmdOption_app.
Qed.

(** X2. [cmdOptionExists] holds exactly when the option is among the
    arguments; it holds while [getCmdOption] returns the null pointer
    exactly when the first occurrence of the option is the last argument. *)
Theorem cmdOptionExists_null (args : list string) (opt : string) :
  (Utils.cmdOptionExists args opt = true ↔ opt ∈ args) ∧
  (Utils.cmdOptionExists args opt = true ∧ Utils.getCmdOption args opt = None ↔
   ∃ pre, args = pre ++ [opt] ∧ opt ∉ pre).
Proof.
  split; [apply UtilsFacts.cmdOptionExists_elem_of|]. split.
  - intros [(pre & post & -> & Hpre)%UtilsFacts.cmdOptionExists_elem_of%list_elem_of_split_l Hn].
    destruct post as [|v post]; [eauto|].
    assert (Utils.getCmdOption (pre ++ opt :: v :: post) opt = Some v) as E
      by (by apply UtilsFacts.getCmdOption_app).
    congruence.
  - intros (pre & -> & Hpre). split.
    + apply UtilsFacts.cmdOptionExists_elem_of, elem_of_app. right. left.
    + unfold Utils.getCmdOption. rewrite UtilsFacts.std_find_app by done.
      rewrite length_app. cbn [length].
      destruct (Nat.eqb_spec (S (length pre)) (length pre + 1)); [|lia].
      by rewrite andb_false_r.
Qed.

(** * graph.cpp: the generator *)

Lemma fastrand_bounds s :
  (0 ≤ (fastrand s).1 < 2 ^ 15)%Z ∧ (0 ≤ (fastrand s).2 < 2 ^ 32)%Z.
Proof.
  unfold fastrand, to_uint. cbn [fst snd]. split.
  - change 0x7FFF%Z with (Z.ones 15). rewrite Z.land_ones by done.
    apply Z.mod_pos_bound. done.
  - apply Z.mod_pos_bound. done.
Qed.

Lemma for_loop_inv {St : Type} (I : nat → St → Prop)
    (body : nat → St → option St) k m st :
  I k st →
  (∀ i st, k ≤ i < k + m → I i st →
     ∃ st', body i st = Some st' ∧ I (S i) st') →
  ∃ st', for_loop body (seq k m) st = Some st' ∧ I (k + m) st'.
Proof.
  revert k st. induction m as [|m IH]; intros k st HI Hbody; simpl.
  - exists st. by rewrite Nat.add_0_r.
  - destruct (Hbody k st) as (st1 & -> & HI1); [lia|done|]. simpl.
    destruct (IH (S k) st1) as (st' & -> & HI'); [done| |].
    + intros i st2 Hi. apply Hbody. lia.
    + exists st'. split; [done|]. by replace (k + S m) with (S k + m) by lia.
Qed.

Section generate_graph_facts.
Variables (n : nat) (max_value percent : Z).

(** The loop on [j] appends the candidates that pass the test to the
    adjacency list of node [i] and advances the stream once per
    candidate. *)
Lemma edge_loop_spec i js g s :
  foldl (edge_body percent i) (g, s) js =
  ({| n_nodes := n_nodes g;
      nodes := alter (λ nd, {| value := value nd;
                               adj := adj nd ++ rand_edges percent s js |})
                     i (nodes g) |},
   Nat.iter (length js) next_seed s).
Proof.
  revert g s. induction js as [|j js IH]; intros g s.
  - simpl. f_equal. destruct g as [m l]. simpl. f_equal.
    symmetry. apply list_alter_id. intros [v a]. simpl. by rewrite app_nil_r.
  - cbn [foldl length rand_edges]. rewrite Nat.iter_succ_r.
    unfold edge_body at 2. cbn [fst snd]. fold (next_seed s).
    destruct (fastrand s) as [rr s'] eqn:E.
    assert (next_seed s = s') as -> by (unfold next_seed; by rewrite E).
    rewrite IH. cbn [fst]. f_equal.
    destruct (rr mod 100 <? percent)%Z; simpl; [|done].
    f_equal. rewrite list_alter_alter_eq. apply list_alter_ext; [|done].
    intros [v a] _. simpl. by rewrite <-app_assoc.
Qed.

Lemma seed_at_S seed i :
  next_seed (Nat.iter (n - S i) next_seed (seed_at n seed i)) =
  seed_at n seed (S i) ∨ n ≤ i.
Proof.
  destruct (decide (n ≤ i)); [by right|left]. simpl.
  replace (n - i) with (S (n - S i)) by lia. done.
Qed.

Lemma node_body_None i st :
  to_short max_value = 0%Z → node_body n max_value percent i st = None.
Proof.
  intros Hz. unfold node_body.
  destruct (fastrand (edge_loop n percent i st).2) as [r s'].
  cbv zeta. by rewrite decide_True by done.
Qed.

Lemma node_body_spec seed i g :
  i < n → to_short max_value ≠ 0%Z → n_nodes g = n →
  nodes g = (rand_node n seed max_value percent <$> seq 0 i) ++
            replicate (n - i) {| value := 0; adj := [] |} →
  node_body n max_value percent i (g, seed_at n seed i) =
  Some ({| n_nodes := n;
           nodes := (rand_node n seed max_value percent <$> seq 0 (S i)) ++
                    replicate (n - S i) {| value := 0; adj := [] |} |},
        seed_at n seed (S i)).
Proof.
  intros Hi Hmax Hn Hnodes. unfold node_body, edge_loop.
  rewrite edge_loop_spec, length_seq. cbn [fst snd].
  destruct (seed_at_S seed i) as [<-|?]; [|lia].
  set (s := Nat.iter (n - S i) next_seed (seed_at n seed i)).
  assert ((fastrand s).1 = (fastrand s).1 ∧ next_seed s = (fastrand s).2)
    as [E1 ->] by done.
  destruct (fastrand s) as [r s'] eqn:E. cbn [fst snd] in *. cbv zeta.
  rewrite decide_False by done. f_equal. f_equal.
  unfold set_value. cbn [n_nodes nodes]. f_equal; [done|].
  rewrite list_alter_alter_eq, Hnodes.
  replace (n - i) with (S (n - S i)) by lia. cbn [replicate].
  rewrite seq_S, fmap_app, <-app_assoc. cbn [fmap list_fmap app].
  assert (length (rand_node n seed max_value percent <$> seq 0 i) = i) as Hlen
    by (by rewrite length_fmap, length_seq).
  rewrite <-(Nat.add_0_r i) at 1. rewrite <-Hlen at 1.
  rewrite alter_app_r. f_equal. simpl. f_equal.
  unfold rand_node. fold s. by rewrite E.
Qed.

End generate_graph_facts.

(** The generator in closed form. *)
Lemma generate_graph_spec g_seed n seed max_value percent :
  generate_graph g_seed n seed max_value percent =
  if decide (to_short max_value = 0%Z ∧ 0 < n) then None
  else Some ({| n_nodes := n;
                nodes := rand_node n seed max_value percent <$> seq 0 n |},
             g_seed).
Proof.
  unfold generate_graph. case_decide as Hd.
  - destruct Hd as [Hz Hn]. destruct n as [|n]; [lia|].
    cbn [seq for_loop]. by rewrite node_body_None by done.
  - destruct (decide (to_short max_value = 0%Z)) as [Hz|Hmax].
    { destruct n; [done|]. exfalso. apply Hd. split; [done|lia]. }
    destruct (for_loop_inv
      (λ i st, st =
         ({| n_nodes := n;
             nodes := (rand_node n seed max_value percent <$> seq 0 i) ++
                      replicate (n - i) {| value := 0; adj := [] |} |},
          seed_at n seed i))
      (node_body n max_value percent) 0 n (new_Graph n, to_uint seed))
      as (st & -> & ->).
    + unfold new_Graph. simpl. by rewrite Nat.sub_0_r.
    + intros i st Hi ->. eexists. split; [|done].
      apply node_body_spec; [lia|done..].
    + simpl. rewrite Nat.sub_diag. simpl. by rewrite app_nil_r.
Qed.

Lemma rand_edges_sublist percent s js : sublist (rand_edges percent s js) js.
Proof.
  revert s. induction js as [|j js IH]; intros s; cbn [rand_edges]; [done|].
  destruct (_ <? _)%Z; cbn [app]; [apply sublist_skip|apply sublist_cons];
    apply IH.
Qed.

Lemma rand_edges_mono percent percent' s js :
  (percent ≤ percent')%Z →
  sublist (rand_edges percent s js) (rand_edges percent' s js).
Proof.
  intros Hle. revert s.
  induction js as [|j js IH]; intros s; cbn [rand_edges]; [done|].
  destruct (Z.ltb_spec ((fastrand s).1 mod 100) percent);
    destruct (Z.ltb_spec ((fastrand s).1 mod 100) percent'); cbn [app];
    [apply sublist_skip|lia|apply sublist_cons|]; apply IH.
Qed.

Lemma rand_edges_all percent s js :
  (100 ≤ percent)%Z → rand_edges percent s js = js.
Proof.
  intros Hp. revert s.
  induction js as [|j js IH]; intros s; cbn [rand_edges]; [done|].
  pose proof (Z.mod_pos_bound (fastrand s).1 100).
  destruct (Z.ltb_spec ((fastrand s).1 mod 100) percent); [|lia].
  cbn [app]. by rewrite IH.
Qed.

Lemma rand_edges_none percent s js :
  (percent ≤ 0)%Z → rand_edges percent s js = [].
Proof.
  intros Hp. revert s.
  induction js as [|j js IH]; intros s; cbn [rand_edges]; [done|].
  pose proof (Z.mod_pos_bound (fastrand s).1 100).
  destruct (Z.ltb_spec ((fastrand s).1 mod 100) percent); [lia|].
  cbn [app]. apply IH.
Qed.

(** What a successful call returns. *)
Lemma generate_graph_Some g_seed n seed max_value percent g s' :
  generate_graph g_seed n seed max_value percent = Some (g, s') →
  s' = g_seed ∧ n_nodes g = n ∧ length (nodes g) = n ∧
  (to_short max_value = 0%Z → n = 0) ∧
  (∀ u, u < n → node_at g u = rand_node n seed max_value percent u) ∧
  (∀ u, n ≤ u → node_at g u = {| value := 0; adj := [] |}).
Proof.
  rewrite generate_graph_spec. case_decide as Hd; [done|].
  intros [= <- <-]. cbn [n_nodes nodes]. split_and!; try done.
  - by rewrite length_fmap, length_seq.
  - intros Hz. destruct n; [done|]. exfalso. apply Hd. split; [done|lia].
  - intros u Hu. unfold node_at. cbn [nodes].
    apply list_lookup_total_correct.
    rewrite list_lookup_fmap, lookup_seq_lt by done. done.
  - intros u Hu. unfold node_at. cbn [nodes].
    rewrite list_lookup_total_alt, list_lookup_fmap, lookup_seq_ge by done.
    done.
Qed.

Lemma generate_graph_adj g_seed n seed max_value percent g s' u :
  generate_graph g_seed n seed max_value percent = Some (g, s') →
  sublist (adj (node_at g u)) (seq (S u) (n - S u)).
Proof.
  intros (_ & _ & _ & _ & Hlt & Hge)%generate_graph_Some.
  destruct (decide (u < n)) as [Hu|Hu].
  - rewrite Hlt by done. apply rand_edges_sublist.
  - rewrite Hge by lia. apply sublist_nil_l.
Qed.

Lemma generate_graph_edge g_seed n seed max_value percent g s' u v :
  generate_graph g_seed n seed max_value percent = Some (g, s') →
  v ∈ adj (node_at g u) → u < v < n.
Proof.
  intros Hg Hv.
  eapply elem_of_sublist in Hv; [|by eapply generate_graph_adj].
  apply elem_of_seq in Hv. lia.
Qed.

Lemma generate_graph_wf_graph g_seed n seed max_value percent g s' :
  generate_graph g_seed n seed max_value percent = Some (g, s') → wf_graph g.
Proof.
  intros Hg. destruct (generate_graph_Some _ _ _ _ _ _ _ Hg)
    as (_ & Hn & Hlen & _). split; [congruence|].
  apply Forall_lookup. intros u nd Hnd. apply Forall_forall. intros v Hv.
  assert (node_at g u = nd) as Hu
    by (by apply list_lookup_total_correct).
  rewrite <-Hu in Hv. eapply generate_graph_edge in Hv; [|done]. lia.
Qed.

Lemma generate_graph_reach g_seed n seed max_value percent g s' s u :
  generate_graph g_seed n seed max_value percent = Some (g, s') →
  reach g s u → s ≤ u.
Proof.
  intros Hg. induction 1 as [|u v _ IH Hv]; [done|].
  eapply generate_graph_edge in Hv; [|done]. lia.
Qed.

Lemma StronglySorted_sublist {A} (R : relation A) (l k : list A) :
  sublist l k → StronglySorted R k → StronglySorted R l.
Proof.
  induction 1 as [|x l k Hsub IH|x l k Hsub IH]; [done|..];
    intros [Hx Hk]%StronglySorted_cons.
  - apply StronglySorted_cons. split; [|by apply IH].
    apply Forall_forall. intros y Hy. rewrite Forall_forall in Hx.
    apply Hx. by eapply elem_of_sublist.
  - by apply IH.
Qed.

Lemma StronglySorted_seq a m : StronglySorted lt (seq a m).
Proof.
  revert a. induction m as [|m IH]; intros a; simpl; constructor; [apply IH|].
  apply Forall_forall. intros x Hx%elem_of_seq. lia.
Qed.

Lemma NoDup_range_length (l : list nat) a b :
  NoDup l → (∀ x, x ∈ l → a ≤ x < b) → length l ≤ b - a.
Proof.
  intros Hnd Hl. transitivity (length (seq a (b - a))); [|by rewrite length_seq].
  apply submseteq_length, NoDup_submseteq; [done|].
  intros x Hx. apply elem_of_seq. specialize (Hl x Hx). lia.
Qed.

(** The narrowing to [short] leaves a value of 16 bits as it is, and gives
    0 for the multiples of 65536 only. *)
Lemma to_short_small z : (- 2 ^ 15 ≤ z < 2 ^ 15)%Z → to_short z = z.
Proof. intros Hz. unfold to_short. rewrite Z.mod_small by lia. lia. Qed.

Lemma to_short_0 z : to_short z = 0%Z ↔ (z mod 2 ^ 16 = 0)%Z.
Proof.
  unfold to_short. change (2 ^ 16)%Z with (2 * 2 ^ 15)%Z.
  change (2 ^ 15)%Z with 32768%Z.
  pose proof (Z.div_mod z (2 * 32768) ltac:(done)) as Hz.
  pose proof (Z.mod_pos_bound z (2 * 32768) ltac:(done)) as Hr.
  set (q := (z `div` (2 * 32768))%Z) in *.
  set (r := (z `mod` (2 * 32768))%Z) in *.
  assert ((z + 32768) mod (2 * 32768) = (r + 32768) mod (2 * 32768))%Z as ->.
  { rewrite Hz. replace (2 * 32768 * q + r + 32768)%Z
      with (r + 32768 + q * (2 * 32768))%Z by lia.
    apply Z.mod_add. done. }
  destruct (decide (r < 32768)%Z).
  - rewrite Z.mod_small by lia. lia.
  - replace (r + 32768)%Z with (r - 32768 + 1 * (2 * 32768))%Z by lia.
    rewrite Z.mod_add by done. rewrite Z.mod_small by lia. lia.
Qed.


(** X3. [fastrand] returns a 15-bit value, between 0 and 32767, and leaves
    [g_seed] within [uint], whatever the seed was. *)
Theorem fastrand_range (g_seed : Z) :
  (0 ≤ (fastrand g_seed).1 ≤ 32767)%Z ∧
  (0 ≤ (fastrand g_seed).2 < 2 ^ 32)%Z.
Proof.
  unfold fastrand, to_uint. cbn [fst snd]. split.
  - set (x := (((214013 * g_seed + 2531011) mod 2 ^ 32) ≫ 16)%Z).
    assert (Z.land x 0x7FFF = x mod 2 ^ 15)%Z as ->
      by (by apply (Z.land_ones x 15)).
    assert (0 ≤ x mod 2 ^ 15 < 2 ^ 15)%Z as Hr by (by apply Z.mod_pos_bound).
    change (2 ^ 15)%Z with 32768%Z in *. lia.
  - apply Z.mod_pos_bound. done.
Qed.

(** X4. A graph that [generate_graph] returns has [n_nodes] node objects
    and only node ids in its adjacency lists, so the searches never index
    outside it; the global [g_seed] is on return what it was on entry. *)
Theorem generate_graph_wf (g_seed : Z) (n : nat) (seed max_value percent : Z)
    (g : Graph) (g_seed' : Z) :
  generate_graph g_seed n seed max_value percent = Some (g, g_seed') →
  wf_graph g ∧ n_nodes g = n ∧ length (nodes g) = n ∧ g_seed' = g_seed.
Proof.
  intros Hg. split; [by eapply generate_graph_wf_graph|].
  by destruct (generate_graph_Some _ _ _ _ _ _ _ Hg) as (-> & ? & ? & _).
Qed.

Lemma generate_graph_wf_witness :
  ∃ g g_seed', generate_graph 1234 4 1234 6 35 = Some (g, g_seed') ∧
    wf_graph g ∧ n_nodes g = 4 ∧ length (nodes g) = 4 ∧ g_seed' = 1234%Z.
Proof.
  eexists _, _. split; [vm_compute; reflexivity|].
  eapply (generate_graph_wf 1234 4 1234 6 35). vm_compute. reflexivity.
Defined.

(** X5. [generate_graph] divides by [max_value] once per node.  The
    parameter is a [short], so the division is by the caller's value
    narrowed to 16 bits: the call fails, by a division by zero, exactly when
    the graph has a node and the value passed is a multiple of 65536 (0, or
    65536 itself: the executables pass the [int] of [--max] unchecked); in
    every other case it returns a graph. *)
Theorem generate_graph_division_by_zero
    (g_seed : Z) (n : nat) (seed max_value percent : Z) :
  (generate_graph g_seed n seed max_value percent = None ↔
   to_short max_value = 0%Z ∧ 0 < n) ∧
  (to_short max_value = 0%Z ↔ (max_value mod 65536 = 0)%Z) ∧
  generate_graph g_seed 1 seed 0 percent = None ∧
  generate_graph g_seed 1 seed 65536 percent = None ∧
  generate_graph g_seed 0 seed 65536 percent
    = Some ({| n_nodes := 0; nodes := [] |}, g_seed).
Proof.
  split_and!.
  - rewrite generate_graph_spec. by case_decide.
  - apply to_short_0.
  - rewrite generate_graph_spec. apply decide_True. split; [done|lia].
  - rewrite generate_graph_spec. apply decide_True. split; [done|lia].
  - rewrite generate_graph_spec. rewrite decide_False by lia. done.
Qed.

(** X6. In a generated graph the adjacency list of node [u] is a
    subsequence of [u+1, ..., n-1]: every edge goes from a lower to a higher
    id, no node is its own neighbour, and the list is strictly increasing,
    hence free of duplicates. *)
Theorem generate_graph_upward (g_seed : Z) (n : nat)
    (seed max_value percent : Z) (g : Graph) (g_seed' : Z) (u : nat) :
  generate_graph g_seed n seed max_value percent = Some (g, g_seed') →
  sublist (adj (node_at g u)) (seq (S u) (n - S u)) ∧
  StronglySorted lt (adj (node_at g u)) ∧
  ∀ v, v ∈ adj (node_at g u) → u < v < n.
Proof.
  intros Hg. split; [by eapply generate_graph_adj|]. split.
  - eapply (StronglySorted_sublist lt); [by eapply generate_graph_adj|].
    apply StronglySorted_seq.
  - intros v. by eapply generate_graph_edge.
Qed.

Lemma generate_graph_upward_witness :
  ∃ g g_seed', generate_graph 1234 4 1234 6 35 = Some (g, g_seed') ∧
    sublist (adj (node_at g 1)) (seq 2 2) ∧
    StronglySorted lt (adj (node_at g 1)) ∧
    ∀ v, v ∈ adj (node_at g 1) → 1 < v < 4.
Proof.
  eexists _, _. split; [vm_compute; reflexivity|].
  eapply (generate_graph_upward 1234 4 1234 6 35). vm_compute. reflexivity.
Defined.

(** X7. For a nonzero [max_value] of magnitude below 2^15 every node value
    of a generated graph lies between 1 and the magnitude of [max_value]:
    the remainder of the non-negative draw is non-negative also for a
    negative [max_value], and the narrowing to [short] changes nothing. *)
Theorem generate_graph_values (g_seed : Z) (n : nat)
    (seed max_value percent : Z) (g : Graph) (g_seed' : Z) (u : nat) :
  generate_graph g_seed n seed max_value percent = Some (g, g_seed') →
  (- 2 ^ 15 < max_value < 2 ^ 15)%Z → u < n →
  (1 ≤ value (node_at g u) ≤ Z.abs max_value)%Z.
Proof.
  intros (_ & _ & _ & Hz & Hlt & _)%generate_graph_Some Hmax Hu.
  rewrite Hlt by done. unfold rand_node. cbn [value].
  rewrite (to_short_small max_value) in * by lia.
  assert (max_value ≠ 0%Z) as Hnz by (intros ?; apply Hz in H; lia).
  set (r := (fastrand _).1).
  assert (0 ≤ r)%Z as Hr by apply fastrand_bounds.
  pose proof (Z.rem_bound_pos r (Z.abs max_value) Hr) as Hb.
  rewrite Z.rem_abs_r in Hb by done.
  assert (0 ≤ Z.rem r max_value < Z.abs max_value)%Z as Hrem by lia.
  unfold to_short. rewrite Z.mod_small by lia. lia.
Qed.

Lemma generate_graph_values_witness :
  ∃ g g_seed', generate_graph 1234 4 1234 (-6) 35 = Some (g, g_seed') ∧
    (1 ≤ value (node_at g 2) ≤ 6)%Z.
Proof.
  eexists _, _. split; [vm_compute; reflexivity|].
  eapply (generate_graph_values 1234 4 1234 (-6) 35 _ _ 2); [|lia..].
  vm_compute. reflexivity.
Defined.

(** X8. With [percent >= 100] the generator draws every candidate edge:
    node [u] is adjacent to all of [u+1, ..., n-1], in this order.  With
    [percent <= 0] it draws none: every adjacency list is empty. *)
Theorem generate_graph_percent_extremes (g_seed : Z) (n : nat)
    (seed max_value percent : Z) (g : Graph) (g_seed' : Z) (u : nat) :
  generate_graph g_seed n seed max_value percent = Some (g, g_seed') →
  ((100 ≤ percent)%Z → adj (node_at g u) = seq (S u) (n - S u)) ∧
  ((percent ≤ 0)%Z → adj (node_at g u) = []).
Proof.
  intros (_ & _ & _ & _ & Hlt & Hge)%generate_graph_Some.
  destruct (decide (u < n)) as [Hu|Hu].
  - rewrite Hlt by done. unfold rand_node. cbn [adj]. split; intros Hp.
    + by apply rand_edges_all.
    + by apply rand_edges_none.
  - rewrite Hge by lia. replace (n - S u) with 0 by lia. done.
Qed.

Lemma generate_graph_percent_extremes_witness :
  ∃ g g_seed', generate_graph 1234 4 1234 6 100 = Some (g, g_seed') ∧
    adj (node_at g 1) = [2; 3].
Proof.
  eexists _, _. split; [vm_compute; reflexivity|].
  eapply (generate_graph_percent_extremes 1234 4 1234 6 100 _ _ 1);
    [vm_compute; reflexivity|lia].
Defined.

(** X9. The generator consumes its random stream at a rate that depends on
    [n_nodes] only.  Two graphs generated with the same node count and seed
    therefore have the same node values if [max_value] is the same, whatever
    the two [percent]; and with [percent <= percent'] every adjacency list
    of the first is a subsequence of that of the second, whatever the two
    [max_value]: raising [percent] only adds edges.  The value of [g_seed]
    on entry plays no part. *)
Theorem generate_graph_stream (g_seed1 g_seed2 : Z) (n : nat)
    (seed max_value1 max_value2 percent1 percent2 : Z)
    (g1 g2 : Graph) (g_seed1' g_seed2' : Z) (u : nat) :
  generate_graph g_seed1 n seed max_value1 percent1 = Some (g1, g_seed1') →
  generate_graph g_seed2 n seed max_value2 percent2 = Some (g2, g_seed2') →
  (max_value1 = max_value2 → value (node_at g1 u) = value (node_at g2 u)) ∧
  ((percent1 ≤ percent2)%Z →
   sublist (adj (node_at g1 u)) (adj (node_at g2 u))).
Proof.
  intros (_ & _ & _ & _ & Hlt1 & Hge1)%generate_graph_Some
         (_ & _ & _ & _ & Hlt2 & Hge2)%generate_graph_Some.
  destruct (decide (u < n)) as [Hu|Hu].
  - rewrite Hlt1, Hlt2 by done. unfold rand_node. cbn [value adj]. split.
    + by intros ->.
    + apply rand_edges_mono.
  - rewrite Hge1, Hge2 by lia. done.
Qed.

Lemma generate_graph_stream_witness :
  ∃ g1 g2 s1 s2,
    generate_graph 1234 4 1234 6 35 = Some (g1, s1) ∧
    generate_graph 99 4 1234 6 90 = Some (g2, s2) ∧
    value (node_at g1 0) = value (node_at g2 0) ∧
    sublist (adj (node_at g1 0)) (adj (node_at g2 0)).
Proof.
  eexists _, _, _, _. split; [vm_compute; reflexivity|].
  split; [vm_compute; reflexivity|].
  destruct (generate_graph_stream 1234 99 4 1234 6 6 35 90 _ _ _ _ 0
              ltac:(vm_compute; reflexivity) ltac:(vm_compute; reflexivity))
    as [Hv Ha].
  split; [by apply Hv|apply Ha; lia].
Defined.

(** X10. In a generated graph a search only moves to higher ids: every node
    reachable from [start_node] has an id from [start_node] to [n - 1], and
    [sequential_bfs] returns at most [n - start_node]. *)
Theorem generate_graph_search_bound (g_seed : Z) (n : nat)
    (seed max_value percent : Z) (g : Graph) (g_seed' : Z)
    (start_node : nat) (search_value : Z) (fuel : nat) :
  generate_graph g_seed n seed max_value percent = Some (g, g_seed') →
  start_node < n → n ≤ fuel →
  (∀ u, reach g start_node u → start_node ≤ u < n) ∧
  ∃ c, sequential_bfs fuel g start_node search_value = Some c ∧
       c ≤ n - start_node.
Proof.
  intros Hg Hs Hfuel.
  pose proof (generate_graph_wf_graph _ _ _ _ _ _ _ Hg) as Hwf.
  destruct (generate_graph_Some _ _ _ _ _ _ _ Hg) as (_ & Hn & _).
  assert (∀ u, reach g start_node u → start_node ≤ u < n) as Hre.
  { intros u Hu. split; [by eapply generate_graph_reach|].
    rewrite <-Hn. eapply reach_lt; [done| |done]. lia. }
  split; [done|].
  destruct (sequential_bfs_reach_count fuel g start_node search_value)
    as (c & Hc & l & Hnd & Hl & ->); [done|lia|lia|].
  exists (length (filter (λ u, matches g search_value u = true) l)).
  split; [done|]. etrans; [apply length_filter|].
  apply NoDup_range_length; [done|]. intros x Hx%Hl. by apply Hre.
Qed.

Lemma generate_graph_search_bound_witness :
  ∃ g g_seed', generate_graph 1234 4 1234 6 35 = Some (g, g_seed') ∧
    (∀ u, reach g 1 u → 1 ≤ u < 4) ∧
    ∃ c, sequential_bfs 4 g 1 5 = Some c ∧ c ≤ 4 - 1.
Proof.
  eexists _, _. split; [vm_compute; reflexivity|].
  eapply (generate_graph_search_bound 1234 4 1234 6 35); [|lia..].
  vm_compute. reflexivity.
Defined.



(** * The rounds are the levels of the graph *)

Lemma walk_reach g s n u : walk g s n u → reach g s u.
Proof. induction 1; [constructor|by eapply reach_step]. Qed.

Lemma reach_walk g s u : reach g s u → ∃ n, walk g s n u.
Proof.
  induction 1 as [|u v _ [n IH] Hv]; [exists 0; constructor|].
  exists (S n). by eapply walk_S.
Qed.

Lemma walk_0_inv g s u : walk g s 0 u → u = s.
Proof. by inversion 1. Qed.

Lemma at_distance_unique g s k k' u :
  at_distance g s k u → at_distance g s k' u → k = k'.
Proof.
  intros [Hw Hmin] [Hw' Hmin'].
  destruct (Nat.lt_trichotomy k k') as [?|[?|?]]; [|done|].
  - by destruct (Hmin' k).
  - by destruct (Hmin k').
Qed.

Section levels.
Variables (g : Graph) (search_value : Z) (n_workers : nat).
Variables (assign : policy) (normalize : list nat → list nat).
Variables (sched : nat → list nat) (uset_iter : nat → list nat → list nat).
Variable start_node : nat.
Hypothesis Hwf : wf_graph g.
Hypothesis Hworkers : 1 ≤ n_workers.
Hypothesis Hassign : policy_ok assign.
Hypothesis Hnormalize : ∀ l, normalize l ≡ₚ l.
Hypothesis Huset : uset_iter_ok uset_iter.
Hypothesis Hstart : start_node < n_nodes g.

Local Abbreviation state :=
  (state_at g search_value n_workers assign normalize sched uset_iter
     start_node).

(** At the head of iteration [k] the frontier holds the nodes at distance
    [k] and [visited] marks the nodes at distance at most [k]. *)
Lemma state_at_levels k :
  (∀ u, u ∈ curr_frontier (state k) ↔ at_distance g start_node k u) ∧
  (∀ u, marked (visited (state k)) u ↔ ∃ n, n ≤ k ∧ walk g start_node n u).
Proof.
  induction k as [|k [IHf IHm]].
  - pose proof (state_at_inv g search_value n_workers assign normalize sched
      uset_iter start_node Hwf Hworkers Hassign Hnormalize Huset Hstart 0)
      as Hinv.
    split; intros u.
    + simpl. rewrite list_elem_of_singleton. split.
      * intros ->. split; [constructor|]. intros n ?. lia.
      * intros [Hw _]. by apply walk_0_inv in Hw.
    + rewrite (oi_marked _ _ _ _ _ _ Hinv). simpl.
      rewrite list_elem_of_singleton. split.
      * intros ->. exists 0. split; [done|constructor].
      * intros (n & Hn & Hw). assert (n = 0) as -> by lia.
        by apply walk_0_inv in Hw.
  - assert (∀ u, u ∈ curr_frontier (state (S k)) ↔
                 at_distance g start_node (S k) u) as Hf.
    { intros u. rewrite frontier_discovered by done. split.
      - intros [Hun (x & Hx & Hu)]. apply IHf in Hx as [Hx _].
        split; [by eapply walk_S|]. intros n Hn Hw.
        assert (marked (visited (state k)) u) as Hm.
        { apply IHm. exists n. split; [lia|done]. }
        unfold marked in Hm. congruence.
      - intros [Hw Hmin].
        inversion Hw as [|n x v Hx Hv]; subst. split.
        + destruct (marked_dec (visited (state k)) u) as [Hm|]; [|done].
          apply IHm in Hm as (n & Hn & Hwn). destruct (Hmin n); [lia|done].
        + exists x. split; [|done]. apply IHf. split; [done|].
          intros n Hn Hwn. destruct (Hmin (S n)); [lia|]. by eapply walk_S. }
    split; [done|]. intros u. rewrite visited_discovered by done. split.
    + intros [Hm|Hd].
      * apply IHm in Hm as (n & Hn & Hw). exists n. split; [lia|done].
      * apply frontier_discovered in Hd; [|done..].
        apply Hf in Hd as [Hw _]. exists (S k). done.
    + intros (n & Hn & Hw).
      destruct (marked_dec (visited (state k)) u) as [Hm|Hun]; [by left|].
      right. apply frontier_discovered; [done..|]. apply Hf.
      assert (∀ m, m ≤ k → ¬ walk g start_node m u) as Hno.
      { intros m Hm Hwm.
        assert (marked (visited (state k)) u) as Hmk
          by (apply IHm; eauto).
        unfold marked in Hmk. congruence. }
      assert (n = S k) as ->.
      { destruct (decide (n ≤ k)) as [Hle|]; [|lia]. by destruct (Hno n). }
      split; [done|]. intros m Hm. apply Hno. lia.
Qed.

(** The loop runs as many rounds as the graph has levels. *)
Lemma levels_run fuel :
  n_nodes g ≤ fuel →
  ∃ K, 1 ≤ K ≤ n_nodes g ∧
    orch_loop g search_value n_workers assign normalize sched uset_iter
      fuel 0 (init_state g n_workers start_node) = Some (state K) ∧
    (∀ u, ¬ at_distance g start_node K u) ∧
    ∀ i, i < K → ∃ u, at_distance g start_node i u.
Proof.
  intros Hfuel.
  destruct (orch_loop_run g search_value n_workers assign normalize sched
    uset_iter start_node Hwf Hworkers Hassign Hnormalize Huset Hstart fuel
    Hfuel) as (K & HK & Hrun & He & Hne).
  exists K. split_and!; [lia|lia|done|..].
  - intros u Hu. apply (proj1 (state_at_levels K)) in Hu.
    rewrite He in Hu. by apply elem_of_nil in Hu.
  - intros i Hi. specialize (Hne i Hi).
    destruct (curr_frontier (state i)) as [|u F] eqn:E; [done|].
    exists u. apply (proj1 (state_at_levels i)). rewrite E. left.
Qed.
End levels.



(** X13. [__parallel_bfs_static] goes through the same levels: in every
    round its frontier holds the nodes at distance [k], once each, so it is
    a permutation of the frontier of [parallel_bfs] in that round, which is
    the same nodes sorted. *)
Theorem static_bfs_levels
    (g : Graph) (start_node : nat) (search_value : Z) (n_workers : nat)
    (sched sched' : nat → list nat)
    (uset_iter uset_iter' : nat → list nat → list nat) (k : nat) :
  wf_graph g → start_node < n_nodes g → 1 ≤ n_workers →
  uset_iter_ok uset_iter → uset_iter_ok uset_iter' →
  let static :=
    static_bfs_state sched uset_iter g start_node search_value n_workers in
  let state :=
    parallel_bfs_state sched' uset_iter' g start_node search_value n_workers in
  (∀ u, u ∈ curr_frontier (static k) ↔ at_distance g start_node k u) ∧
  NoDup (curr_frontier (static k)) ∧
  curr_frontier (static k) ≡ₚ curr_frontier (state k) ∧
  curr_frontier (state k) = sort (curr_frontier (static k)).
Proof.
  intros Hwf Hs HW Hu Hu' static state.
  assert (policy_ok (chunked_policy CHUNK_SIZE)) as Hpol
    by (apply chunked_policy_ok; unfold CHUNK_SIZE; lia).
  assert (∀ u, u ∈ curr_frontier (static k) ↔ at_distance g start_node k u)
    as Hst by (by apply state_at_levels; try apply static_policy_ok).
  assert (∀ u, u ∈ curr_frontier (state k) ↔ at_distance g start_node k u)
    as Hpar by (by apply state_at_levels; try apply sort_Permutation).
  assert (NoDup (curr_frontier (static k))) as Hnd
    by (by apply frontier_NoDup; try apply static_policy_ok).
  assert (NoDup (curr_frontier (state k))) as Hnd'
    by (by apply frontier_NoDup; try apply sort_Permutation).
  assert (curr_frontier (static k) ≡ₚ curr_frontier (state k)) as Hperm.
  { apply NoDup_Permutation; [done..|]. intros u. by rewrite Hst, Hpar. }
  split_and!; try done.
  apply (Sorted_unique_strong (≤)).
  - intros; lia.
  - destruct k as [|k]; [repeat constructor|].
    unfold state, parallel_bfs_state. simpl. apply sort_Sorted.
  - apply sort_Sorted.
  - by rewrite sort_Permutation.
Qed.

Lemma static_bfs_levels_witness :
  let static := static_bfs_state sched_lockstep uset_reverse diamond 0 1 2 in
  let state :=
    parallel_bfs_state sched_in_turn uset_insertion diamond 0 1 2 in
  (∀ u, u ∈ curr_frontier (static 1) ↔ at_distance diamond 0 1 u) ∧
  NoDup (curr_frontier (static 1)) ∧
  curr_frontier (static 1) ≡ₚ curr_frontier (state 1) ∧
  curr_frontier (state 1) = sort (curr_frontier (static 1)).
Proof.
  apply (static_bfs_levels diamond 0 1 2 sched_lockstep sched_in_turn
           uset_reverse uset_insertion 1);
    [apply (bool_decide_unpack _); vm_compute; exact I|simpl; lia|lia
    |apply uset_reverse_ok|apply uset_insertion_ok].
Defined.

(** * bfs_ff.cpp *)

(** X14. [ff_bfs] returns the count of [sequential_bfs] and of
    [parallel_bfs], under every interleaving and set iteration order,
    provided FastFlow's parallel loop hands every index of the frontier to
    exactly one of the [n_workers] threads. *)
Theorem ff_bfs_eq_sequential_bfs
    (parallel_for : policy)
    (g : Graph) (start_node : nat) (search_value : Z) (n_workers : nat)
    (sched sched' : nat → list nat)
    (uset_iter uset_iter' : nat → list nat → list nat) (fuel : nat) :
  policy_ok parallel_for →
  wf_graph g → start_node < n_nodes g → 1 ≤ n_workers →
  uset_iter_ok uset_iter → uset_iter_ok uset_iter' → n_nodes g ≤ fuel →
  ∃ c,
    ff_bfs parallel_for fuel sched uset_iter g start_node search_value
      n_workers = Some c ∧
    sequential_bfs fuel g start_node search_value = Some c ∧
    parallel_bfs fuel sched' uset_iter' g start_node search_value n_workers
      = Some c ∧
    c ≤ n_nodes g.
Proof.
  intros Hpol Hwf Hs HW Hu Hu' Hfuel.
  destruct (engine_reach_count g search_value n_workers parallel_for sort
              sched uset_iter start_node Hwf HW Hpol sort_Permutation Hu Hs
              fuel Hfuel) as (c & Hc & Hrc).
  destruct (sequential_bfs_reach_count fuel g start_node search_value)
    as (c1 & Hc1 & Hrc1); [done..|].
  destruct (parallel_bfs_reach_count fuel sched' uset_iter' g start_node
              search_value n_workers) as (c2 & Hc2 & Hrc2); [done..|].
  exists c. split; [done|].
  rewrite (reach_count_unique _ _ _ _ _ Hrc Hrc1) at 1.
  rewrite (reach_count_unique _ _ _ _ _ Hrc Hrc2) at 1.
  split_and!; [done..|]. by eapply reach_count_le.
Qed.

Lemma ff_bfs_eq_sequential_bfs_witness :
  ∃ c,
    ff_bfs static_policy 5 sched_alternate uset_reverse g5 0 7 2 = Some c ∧
    sequential_bfs 5 g5 0 7 = Some c ∧
    parallel_bfs 5 sched_in_turn uset_insertion g5 0 7 2 = Some c ∧
    c ≤ n_nodes g5.
Proof.
  apply (ff_bfs_eq_sequential_bfs static_policy g5 0 7 2 sched_alternate
           sched_in_turn uset_reverse uset_insertion 5);
    [apply static_policy_ok|apply (bool_decide_unpack _); vm_compute; exact I
    |simpl; lia|lia|apply uset_reverse_ok|apply uset_insertion_ok|simpl; lia].
Defined.

(** * What the searches leave behind *)

(** X15. When [parallel_bfs] and [sequential_bfs] return, their [visited]
    arrays mark the same nodes, those reachable from the start node; a node
    that is not reachable was never passed to the worker loop, and the
    count returned is at most the number of nodes. *)
Theorem visited_on_return
    (g : Graph) (start_node : nat) (search_value : Z) (n_workers : nat)
    (sched : nat → list nat) (uset_iter : nat → list nat → list nat)
    (fuel : nat) :
  wf_graph g → start_node < n_nodes g → 1 ≤ n_workers →
  uset_iter_ok uset_iter → n_nodes g ≤ fuel →
  ∃ final r,
    parallel_bfs_run fuel sched uset_iter g start_node search_value n_workers
      = Some final ∧
    sequential_bfs_run fuel g start_node search_value = Some r ∧
    (∀ u, marked (visited final) u ↔ reach g start_node u) ∧
    (∀ u, seq_marked (seq_visited r) u = true ↔ reach g start_node u) ∧
    (∀ u, u ∈ concat (taken <$> workers final) → reach g start_node u) ∧
    total_occurrences final = seq_occ r ∧
    seq_occ r ≤ n_nodes g.
Proof.
  intros Hwf Hs HW Hu Hfuel.
  assert (policy_ok (chunked_policy CHUNK_SIZE)) as Hpol
    by (apply chunked_policy_ok; unfold CHUNK_SIZE; lia).
  destruct (parallel_bfs_run_spec g start_node search_value n_workers sched
              uset_iter Hwf Hs HW Hu fuel Hfuel) as (K & _ & Hrun & He & _).
  destruct (final_state g search_value n_workers (chunked_policy CHUNK_SIZE)
              sort sched uset_iter start_node Hwf HW Hpol sort_Permutation
              Hu Hs K He) as (Hnd & Hproc & Hmark & Hocc).
  destruct (sequential_bfs_run_correct g start_node search_value Hwf Hs fuel
              Hfuel) as (r & Hr & Hndr & Hdeq & Hvis & Hoccr).
  eexists _, r. split; [exact Hrun|]. split; [done|].
  assert (processed g search_value n_workers (chunked_policy CHUNK_SIZE) sort
            sched uset_iter start_node K ≡ₚ dequeued r) as Hperm.
  { apply NoDup_Permutation; [done..|]. intros u. by rewrite Hproc, Hdeq. }
  split_and!; [done..| | |].
  - intros u Htk. apply Hproc.
    by rewrite <-(taken_processed g search_value n_workers
                    (chunked_policy CHUNK_SIZE) sort sched uset_iter
                    start_node Hwf HW Hpol sort_Permutation Hu Hs K).
  - unfold parallel_bfs_state. rewrite Hocc, Hoccr. by rewrite Hperm.
  - rewrite Hoccr. etrans; [apply length_filter|].
    apply NoDup_lt_length; [done|]. intros u Hx%Hdeq. by eapply reach_lt.
Qed.

Lemma visited_on_return_witness :
  ∃ final r,
    parallel_bfs_run 4 sched_alternate uset_reverse g4 0 1 2 = Some final ∧
    sequential_bfs_run 4 g4 0 1 = Some r ∧
    (∀ u, marked (visited final) u ↔ reach g4 0 u) ∧
    (∀ u, seq_marked (seq_visited r) u = true ↔ reach g4 0 u) ∧
    (∀ u, u ∈ concat (taken <$> workers final) → reach g4 0 u) ∧
    total_occurrences final = seq_occ r ∧
    seq_occ r ≤ n_nodes g4.
Proof.
  apply (visited_on_return g4 0 1 2 sched_alternate uset_reverse 4);
    [apply (bool_decide_unpack _); vm_compute; exact I|simpl; lia|lia
    |apply uset_reverse_ok|simpl; lia].
Defined.

(** * graph.cpp: edges *)

Lemma reach_trans g s u v : reach g s u → reach g u v → reach g s v.
Proof. intros Hsu. induction 1; [done|by eapply reach_step]. Qed.

Lemma add_edge_adj g n1 n2 u :
  n1 < length (nodes g) →
  adj (node_at (add_edge g n1 n2) u) =
  if decide (u = n1) then adj (node_at g u) ++ [n2] else adj (node_at g u).
Proof.
  intros Hlt. unfold node_at, add_edge. cbn [nodes]. case_decide as Hu.
  - subst u. destruct (lookup_lt_is_Some_2 _ _ Hlt) as [nd Hnd].
    rewrite (list_lookup_total_correct _ _ _ Hnd).
    erewrite list_lookup_total_correct; [|by rewrite list_lookup_alter_eq, Hnd].
    done.
  - rewrite !list_lookup_total_alt, list_lookup_alter_ne by done. done.
Qed.

Lemma add_edge_value g n1 n2 u :
  value (node_at (add_edge g n1 n2) u) = value (node_at g u).
Proof.
  unfold node_at, add_edge. cbn [nodes].
  rewrite !list_lookup_total_alt, list_lookup_alter.
  case_decide as Hu; [|done]. rewrite Hu. by destruct (nodes g !! u).
Qed.

(** X16. [add_edge(n1, n2)] on an existing node [n1] adds the edge and
    nothing else: [n2] becomes the last neighbour of [n1], no value changes,
    the graph stays well formed if [n2] is a node, and a node is reachable
    afterwards exactly if it was before, or if [n1] was and it is reachable
    from [n2]. *)
Theorem add_edge_reach (g : Graph) (n1 n2 : nat) :
  n1 < length (nodes g) →
  adj (node_at (add_edge g n1 n2) n1) = adj (node_at g n1) ++ [n2] ∧
  (∀ u, value (node_at (add_edge g n1 n2) u) = value (node_at g u)) ∧
  (wf_graph g → n2 < n_nodes g → wf_graph (add_edge g n1 n2)) ∧
  ∀ s u, reach (add_edge g n1 n2) s u ↔
         reach g s u ∨ (reach g s n1 ∧ reach g n2 u).
Proof.
  intros Hlt. split_and!.
  - rewrite add_edge_adj by done. by rewrite decide_True.
  - intros u. apply add_edge_value.
  - intros [Hlen Hadj] Hn2. split.
    + simpl. by rewrite length_alter.
    + simpl. apply Forall_lookup. intros i nd Hnd.
      rewrite list_lookup_alter in Hnd. rewrite Forall_lookup in Hadj.
      case_decide as Hi.
      * destruct (nodes g !! n1) as [nd0|] eqn:E0; subst; simplify_eq/=.
        apply Forall_app. split; [by eapply Hadj|]. by repeat constructor.
      * by eapply Hadj.
  - assert (∀ s u, reach g s u → reach (add_edge g n1 n2) s u) as Hmono.
    { intros s u. induction 1 as [|u v _ IH Hv]; [constructor|].
      eapply reach_step; [done|]. rewrite add_edge_adj by done.
      case_decide; [apply elem_of_app; by left|done]. }
    intros s u. split.
    + induction 1 as [|u v _ IH Hv]; [left; constructor|].
      rewrite add_edge_adj in Hv by done. case_decide as Hu.
      * subst u. apply elem_of_app in Hv as [Hv|Hv%list_elem_of_singleton].
        -- destruct IH as [?|[? ?]]; [left|right; split; [done|]];
             by eapply reach_step.
        -- subst v. right. split; [|constructor].
           destruct IH as [?|[? ?]]; done.
      * destruct IH as [?|[? ?]]; [left|right; split; [done|]];
          by eapply reach_step.
    + intros [?|[Hs Hu]]; [by apply Hmono|].
      eapply reach_trans; [|by apply Hmono].
      eapply reach_step; [by apply Hmono|].
      rewrite add_edge_adj, decide_True by done.
      apply elem_of_app. right. left.
Qed.

Lemma add_edge_reach_witness :
  adj (node_at (add_edge g4 1 2) 1) = adj (node_at g4 1) ++ [2] ∧
  (∀ u, value (node_at (add_edge g4 1 2) u) = value (node_at g4 u)) ∧
  (wf_graph g4 → 2 < n_nodes g4 → wf_graph (add_edge g4 1 2)) ∧
  ∀ s u, reach (add_edge g4 1 2) s u ↔
         reach g4 s u ∨ (reach g4 s 1 ∧ reach g4 2 u).
Proof. apply (add_edge_reach g4 1 2). simpl. lia. Defined.

(** * class Barrier: what holds on every trace *)

Module BarrierMore.
Import Barrier BarrierFacts.

Lemma exec_m_threshold a s s' :
  exec a s = Some s' → m_threshold s' = m_threshold s.
Proof.
  unfold exec, master_next, worker_next, notify_master.
  intros H. repeat case_match; simplify_eq/=; done.
Qed.

Lemma run_m_threshold trace s s' :
  run trace s = Some s' → m_threshold s' = m_threshold s.
Proof.
  revert s. induction trace as [|a trace IH]; intros s; simpl.
  - by intros [= <-].
  - destruct (exec a s) as [s1|] eqn:E; [|done]. intros Hrun.
    rewrite (IH _ Hrun). by eapply exec_m_threshold.
Qed.

Lemma missing_le s : missing s ≤ length (wks s).
Proof. unfold missing. apply length_filter. Qed.

(** Without workers the orchestrator stays inside [MasterWait]. *)
Lemma exec_master_waits a s s' :
  wks s = [] ∧ stop_master s = false ∧ mround s = 0 ∧
    mpc s ∈ [MLockM; MCheck; MBlock; MWaiting; MWoken] →
  exec a s = Some s' →
  wks s' = [] ∧ stop_master s' = false ∧ mround s' = 0 ∧
    mpc s' ∈ [MLockM; MCheck; MBlock; MWaiting; MWoken].
Proof.
  intros (Hw & Hstop & Hround & Hpc).
  destruct a as [[|t]|[|t]]; simpl.
  - unfold master_next. rewrite Hstop.
    destruct (mpc s) eqn:E; try (by repeat (apply elem_of_cons in Hpc as [?|Hpc];
      [done|]); apply elem_of_nil in Hpc);
    repeat case_match; intros; simplify_eq/=; split_and!; try done;
      repeat first [by apply list_elem_of_here|apply list_elem_of_further].
  - unfold worker_next. by rewrite Hw.
  - case_decide; [|done]. intros [= <-]. simpl. split_and!; try done.
    repeat first [by apply list_elem_of_here|apply list_elem_of_further].
  - by rewrite Hw.
Qed.

Lemma run_master_waits trace s s' :
  wks s = [] ∧ stop_master s = false ∧ mround s = 0 ∧
    mpc s ∈ [MLockM; MCheck; MBlock; MWaiting; MWoken] →
  run trace s = Some s' →
  wks s' = [] ∧ stop_master s' = false ∧ mround s' = 0 ∧
    mpc s' ∈ [MLockM; MCheck; MBlock; MWaiting; MWoken].
Proof.
  revert s. induction trace as [|a trace IH]; intros s Hs; simpl.
  - by intros [= <-].
  - destruct (exec a s) as [s1|] eqn:E; [|done]. apply IH.
    by eapply exec_master_waits.
Qed.

(** A worker at the work of a round is in the orchestrator's round; a
    worker is at most one round behind. *)
Lemma worker_rounds n_workers trace s w :
  run trace (init n_workers) = Some s → w ∈ wks s →
  wround w ≤ mround s ≤ S (wround w) ∧
  (wpc w ∈ [WWork; WLock] → wround w = mround s).
Proof.
  intros Hrun [t Hw]%list_elem_of_lookup.
  pose proof (run_inv _ _ _ (init_inv n_workers) Hrun) as Hinv.
  destruct (inv_class _ Hinv t w Hw) as [(Hr & _ & Hb)|[[Hr _]|(Hr & _ & Hpc)]].
  - split; [lia|done].
  - split; [lia|done].
  - split; [lia|]. intros Hin.
    apply elem_of_cons in Hin as [E|Hin]; [by rewrite E in Hpc|].
    apply elem_of_cons in Hin as [E|Hin]; [by rewrite E in Hpc|].
    by apply elem_of_nil in Hin.
Qed.

Lemma count_bounds n_workers trace s :
  run trace (init n_workers) = Some s → 1 ≤ n_workers →
  m_threshold s = n_workers ∧ length (wks s) = n_workers ∧
  1 ≤ m_count s ≤ n_workers ∧
  m_count s = (if decide (missing s = 0) then n_workers else missing s).
Proof.
  intros Hrun Hn.
  pose proof (run_inv _ _ _ (init_inv n_workers) Hrun) as Hinv.
  pose proof (run_m_threshold _ _ _ Hrun) as Hth. simpl in Hth.
  pose proof (inv_workers _ Hinv) as Hlen.
  destruct (inv_count _ Hinv) as [Hpos Hzero].
  pose proof (missing_le s). split; [done|]. split; [congruence|].
  case_decide as Hm.
  - rewrite (Hzero Hm). lia.
  - rewrite Hpos by lia. lia.
Qed.
End BarrierMore.

(** X17. Safety of the rendezvous, on every trace, spurious wake-ups
    included.  While the orchestrator is in its merging phase every worker
    has finished the round, has announced its arrival, has seen no new
    generation and is inside [WorkerWait]; a worker at the work of a round
    is in the round the orchestrator is in, and no worker is ever ahead of
    the orchestrator or more than one round behind. *)
Theorem barrier_rendezvous (n_workers : nat) (trace : list Barrier.action)
    (s : Barrier.system) :
  Barrier.run trace (Barrier.init n_workers) = Some s →
  (Barrier.mpc s = Barrier.MMerge →
   ∀ w, w ∈ Barrier.wks s →
     Barrier.wround w = Barrier.mround s ∧
     Barrier.l_gen w = Barrier.m_generation s ∧
     Barrier.wpc w ∈ [Barrier.WNotify; Barrier.WCheck; Barrier.WBlock;
                      Barrier.WWaiting; Barrier.WWoken]) ∧
  (∀ w, w ∈ Barrier.wks s →
     Barrier.wround w ≤ Barrier.mround s ≤ S (Barrier.wround w) ∧
     (Barrier.wpc w ∈ [Barrier.WWork; Barrier.WLock] →
      Barrier.wround w = Barrier.mround s)).
Proof.
  intros Hrun. split.
  - by apply (BarrierFacts.barrier_safe n_workers trace).
  - intros w Hw. by eapply BarrierMore.worker_rounds.
Qed.

Lemma barrier_rendezvous_witness :
  ∃ s,
    Barrier.run (replicate 6 (Barrier.Run (Barrier.Worker 0)) ++
                 replicate 4 (Barrier.Run Barrier.Master))
      (Barrier.init 1) = Some s ∧
    Barrier.mpc s = Barrier.MMerge ∧
    (Barrier.mpc s = Barrier.MMerge →
     ∀ w, w ∈ Barrier.wks s →
       Barrier.wround w = Barrier.mround s ∧
       Barrier.l_gen w = Barrier.m_generation s ∧
       Barrier.wpc w ∈ [Barrier.WNotify; Barrier.WCheck; Barrier.WBlock;
                        Barrier.WWaiting; Barrier.WWoken]) ∧
    (∀ w, w ∈ Barrier.wks s →
       Barrier.wround w ≤ Barrier.mround s ≤ S (Barrier.wround w) ∧
       (Barrier.wpc w ∈ [Barrier.WWork; Barrier.WLock] →
        Barrier.wround w = Barrier.mround s)).
Proof.
  eexists. split; [vm_compute; reflexivity|]. split; [reflexivity|].
  apply (barrier_rendezvous 1
           (replicate 6 (Barrier.Run (Barrier.Worker 0)) ++
            replicate 4 (Barrier.Run Barrier.Master))).
  vm_compute. reflexivity.
Defined.

(** X18. With at least one worker, in every reachable state [m_count] is at
    least 1 and at most the worker count, so the decrement in [WorkerWait]
    never wraps; it is the number of workers that have not yet arrived in
    the current round, or the worker count once all have.  [m_threshold]
    never changes and [m_generation] stays within [size_t]. *)
Theorem barrier_count (n_workers : nat) (trace : list Barrier.action)
    (s : Barrier.system) :
  Barrier.run trace (Barrier.init n_workers) = Some s → 1 ≤ n_workers →
  Barrier.m_threshold s = n_workers ∧
  length (Barrier.wks s) = n_workers ∧
  1 ≤ Barrier.m_count s ≤ n_workers ∧
  Barrier.m_count s =
    (if decide (Barrier.missing s = 0) then n_workers else Barrier.missing s) ∧
  (0 ≤ Barrier.m_generation s < 2 ^ 64)%Z.
Proof.
  intros Hrun Hn.
  destruct (BarrierMore.count_bounds _ _ _ Hrun Hn) as (? & ? & ? & ?).
  do 4 (split; [done|]).
  apply (Barrier.inv_generation s).
  by apply (BarrierFacts.run_inv trace _ _ (BarrierFacts.init_inv n_workers)).
Qed.

Lemma barrier_count_witness :
  ∃ s,
    Barrier.run [Barrier.Run (Barrier.Worker 1); Barrier.Run (Barrier.Worker 1)]
      (Barrier.init 2) = Some s ∧
    Barrier.m_threshold s = 2 ∧
    length (Barrier.wks s) = 2 ∧
    1 ≤ Barrier.m_count s ≤ 2 ∧
    Barrier.m_count s =
      (if decide (Barrier.missing s = 0) then 2 else Barrier.missing s) ∧
    (0 ≤ Barrier.m_generation s < 2 ^ 64)%Z.
Proof.
  eexists. split; [vm_compute; reflexivity|].
  apply (barrier_count 2
           [Barrier.Run (Barrier.Worker 1); Barrier.Run (Barrier.Worker 1)]);
    [vm_compute; reflexivity|lia].
Defined.

(** X19. With zero workers nobody ever sets [stop_master]: on every trace
    the orchestrator is still inside its first [MasterWait], and once it has
    blocked there no thread can run.  [parallel_bfs] called with
    [n_workers = 0] does not return. *)
Theorem barrier_zero_workers (trace : list Barrier.action)
    (s : Barrier.system) :
  Barrier.run trace (Barrier.init 0) = Some s →
  Barrier.stop_master s = false ∧
  Barrier.mround s = 0 ∧
  Barrier.mpc s ∈ [Barrier.MLockM; Barrier.MCheck; Barrier.MBlock;
                   Barrier.MWaiting; Barrier.MWoken] ∧
  (Barrier.mpc s = Barrier.MWaiting → Barrier.stuck s).
Proof.
  intros Hrun.
  destruct (BarrierMore.run_master_waits trace (Barrier.init 0) s)
    as (Hw & Hstop & Hround & Hpc); [|done|].
  { split_and!; [done..|]. apply list_elem_of_here. }
  split; [done|]. split; [done|]. split; [done|].
  intros Hwait [|t]; simpl.
  - unfold Barrier.master_next. by rewrite Hwait.
  - unfold Barrier.worker_next. by rewrite Hw.
Qed.

Lemma barrier_zero_workers_witness :
  ∃ s,
    Barrier.run (replicate 3 (Barrier.Run Barrier.Master)) (Barrier.init 0)
      = Some s ∧
    Barrier.mpc s = Barrier.MWaiting ∧
    Barrier.stop_master s = false ∧
    Barrier.mround s = 0 ∧
    Barrier.mpc s ∈ [Barrier.MLockM; Barrier.MCheck; Barrier.MBlock;
                     Barrier.MWaiting; Barrier.MWoken] ∧
    (Barrier.mpc s = Barrier.MWaiting → Barrier.stuck s).
Proof.
  eexists. split; [vm_compute; reflexivity|]. split; [reflexivity|].
  apply (barrier_zero_workers (replicate 3 (Barrier.Run Barrier.Master))).
  vm_compute. reflexivity.
Defined.

(** * The partitioning policies: order and sizes *)

Lemma bind_ext_in {A B} (f h : A → list B) (l : list A) :
  (∀ x, x ∈ l → f x = h x) → l ≫= f = l ≫= h.
Proof.
  induction l as [|x l IH]; intros Hext; [done|].
  rewrite !bind_cons, Hext, IH; [done| |left].
  intros y Hy. apply Hext. by right.
Qed.

Lemma bind_seq_blocks d m : seq 0 m ≫= (λ t, seq (t * d) d) = seq 0 (m * d).
Proof.
  induction m as [|m IH]; [done|].
  rewrite seq_S, bind_app, IH. simpl. rewrite app_nil_r.
  replace (d + m * d) with (m * d + d) by lia. by rewrite seq_app.
Qed.

Lemma bind_seq_singleton a m : seq a m ≫= (λ t, [t]) = seq a m.
Proof.
  revert a. induction m as [|m IH]; intros a; [done|].
  simpl. by rewrite IH.
Qed.

Lemma bind_nil_in {A B} (f : A → list B) (l : list A) :
  (∀ x, x ∈ l → f x = []) → l ≫= f = [].
Proof.
  induction l as [|x l IH]; intros Hext; [done|].
  rewrite bind_cons, Hext, IH; [done| |left].
  intros y Hy. apply Hext. by right.
Qed.

Module StaticMore.
Import Static.

(** The slice of worker [t], case by case. *)
Lemma worker_indices_eq L W t :
  1 ≤ W → t < W →
  worker_indices L W t =
  if W <? L
  then seq (t * (L / W)) (if t =? W - 1 then L - t * (L / W) else L / W)
  else if t <? L then [t] else [].
Proof.
  intros HW Ht. unfold worker_indices, stop, start, delta.
  destruct (Nat.ltb_spec W L) as [HWL|HWL].
  - assert (1 ≤ L / W) as Hd by (apply Nat.div_le_lower_bound; lia).
    assert (W * (L / W) ≤ L) as Hmul by (apply Nat.Div0.mul_div_le).
    destruct (Nat.ltb_spec t L); [|lia].
    destruct (Nat.eqb_spec t (W - 1)) as [->|Hne].
    + assert ((W - 1) * (L / W) < L) by nia.
      destruct (Nat.eqb_spec ((W - 1) * (L / W)) L); [lia|]. done.
    + destruct (Nat.eqb_spec (t * (L / W)) ((t + 1) * (L / W))); [nia|].
      f_equal. nia.
  - destruct (Nat.ltb_spec t L) as [HtL|HtL]; [|done].
    rewrite Nat.mul_1_r.
    destruct (Nat.eqb_spec t (W - 1)) as [->|Hne].
    + assert (L = W) as -> by lia.
      destruct (Nat.eqb_spec (W - 1) W); [lia|].
      by replace (W - (W - 1)) with 1 by lia.
    + rewrite Nat.mul_1_r.
      destruct (Nat.eqb_spec t (t + 1)); [lia|].
      by replace (t + 1 - t) with 1 by lia.
Qed.

Lemma worker_indices_concat L W :
  1 ≤ W → seq 0 W ≫= worker_indices L W = seq 0 L.
Proof.
  intros HW. destruct (Nat.ltb_spec W L) as [HWL|HWL].
  - assert (W * (L / W) ≤ L) as Hmul by (apply Nat.Div0.mul_div_le).
    assert (seq 0 W = seq 0 (W - 1) ++ [W - 1]) as ->.
    { rewrite <-seq_S. f_equal. lia. }
    rewrite bind_app. simpl. rewrite app_nil_r.
    rewrite (bind_ext_in _ (λ t, seq (t * (L / W)) (L / W))).
    2:{ intros t Ht%elem_of_seq. rewrite worker_indices_eq by lia.
        destruct (Nat.ltb_spec W L); [|lia].
        by destruct (Nat.eqb_spec t (W - 1)); [lia|]. }
    rewrite bind_seq_blocks, worker_indices_eq by lia.
    destruct (Nat.ltb_spec W L); [|lia]. rewrite Nat.eqb_refl.
    rewrite <-seq_app. f_equal. nia.
  - assert (seq 0 W = seq 0 L ++ seq L (W - L)) as ->.
    { rewrite <-seq_app. f_equal. lia. }
    rewrite bind_app. simpl.
    rewrite (bind_ext_in _ (λ t, [t])).
    2:{ intros t Ht%elem_of_seq. rewrite worker_indices_eq by lia.
        destruct (Nat.ltb_spec W L); [lia|].
        by destruct (Nat.ltb_spec t L); [|lia]. }
    rewrite bind_seq_singleton, bind_nil_in, app_nil_r; [done|].
    intros t Ht%elem_of_seq. rewrite worker_indices_eq by lia.
    destruct (Nat.ltb_spec W L); [lia|].
    by destruct (Nat.ltb_spec t L); [lia|].
Qed.
End StaticMore.

Module ChunkedMore.
Import Chunked.

Section order.
Variables (L cs W : nat).
Hypothesis HW : 1 ≤ W.
Hypothesis Hcs : 1 ≤ cs.

Lemma chunk_loop_bounds fuel i j :
  j ∈ chunk_loop L cs W fuel i → i * cs ≤ j < number_of_chunks L cs * cs.
Proof.
  revert i. induction fuel as [|fuel IH]; intros i; simpl.
  - by intros ?%elem_of_nil.
  - destruct (Nat.ltb_spec i (number_of_chunks L cs)) as [Hi|Hi];
      [|by intros ?%elem_of_nil].
    intros [Hj|Hj]%elem_of_app.
    + unfold chunk_range in Hj. apply elem_of_seq in Hj. nia.
    + apply IH in Hj. nia.
Qed.

Lemma chunk_loop_sorted fuel i : StronglySorted lt (chunk_loop L cs W fuel i).
Proof.
  revert i. induction fuel as [|fuel IH]; intros i; simpl; [constructor|].
  destruct (i <? number_of_chunks L cs); [|constructor].
  apply StronglySorted_app_2.
  - intros x1 x2 Hx1%elem_of_seq Hx2%chunk_loop_bounds. nia.
  - apply StronglySorted_seq.
  - apply IH.
Qed.

Lemma worker_indices_sorted t :
  StronglySorted lt (worker_indices L cs W t).
Proof.
  unfold worker_indices. apply StronglySorted_app_2.
  - intros x1 x2 Hx1%chunk_loop_bounds Hx2.
    destruct (extra_chunk L cs t); [|by apply elem_of_nil in Hx2].
    unfold extra_range in Hx2. apply elem_of_seq in Hx2. lia.
  - apply chunk_loop_sorted.
  - destruct (extra_chunk L cs t); [apply StronglySorted_seq|constructor].
Qed.
End order.

(** A frontier shorter than a chunk is left to worker 0. *)
Lemma worker_indices_short L cs W t :
  L < cs → worker_indices L cs W t = if t =? 0 then seq 0 L else [].
Proof.
  intros HL. unfold worker_indices, extra_chunk, extra_range, number_of_chunks.
  rewrite Nat.div_small, Nat.mod_small by done. simpl.
  destruct (t =? 0); simpl; [|done].
  destruct (Nat.ltb_spec 0 L); [by rewrite Nat.sub_0_r|].
  by replace L with 0 by lia.
Qed.
End ChunkedMore.

(** X20. Each worker of [parallel_bfs] visits its frontier indices in
    strictly increasing order.  With a single worker these are all indices
    in order, [0, 1, ..., L-1]; and a frontier shorter than a chunk is not
    split at all: worker 0 visits all of it, every other worker nothing. *)
Theorem chunked_indices_order (L cs W t : nat) :
  1 ≤ W → 1 ≤ cs →
  StronglySorted lt (Chunked.worker_indices L cs W t) ∧
  Chunked.worker_indices L cs 1 0 = seq 0 L ∧
  (L < cs →
   Chunked.worker_indices L cs W t = if t =? 0 then seq 0 L else []).
Proof.
  intros HW Hcs. split; [by apply ChunkedMore.worker_indices_sorted|].
  split; [|apply ChunkedMore.worker_indices_short].
  apply (StronglySorted_unique_strong lt).
  - intros; lia.
  - by apply ChunkedMore.worker_indices_sorted.
  - apply StronglySorted_seq.
  - pose proof (chunked_policy_ok cs Hcs L 1 (le_n 1)) as Hperm.
    simpl in Hperm. by rewrite app_nil_r in Hperm.
Qed.

Lemma chunked_indices_order_witness :
  StronglySorted lt (Chunked.worker_indices 3 4 2 0) ∧
  Chunked.worker_indices 3 4 1 0 = seq 0 3 ∧
  Chunked.worker_indices 3 4 2 0 = seq 0 3.
Proof.
  destruct (chunked_indices_order 3 4 2 0) as (Hs & H1 & Hshort); [lia..|].
  split; [done|]. split; [done|]. apply Hshort. lia.
Defined.

(** X21. The slices of [__parallel_bfs_static] are contiguous and in worker
    order: put end to end they are [0, 1, ..., L-1].  With fewer workers
    than indices every worker but the last takes [L / W] indices and the
    last takes the rest, [L / W + L mod W]; otherwise the first [L] workers
    take one index each and the others none. *)
Theorem static_slices (L W : nat) :
  1 ≤ W →
  seq 0 W ≫= Static.worker_indices L W = seq 0 L ∧
  ∀ t, t < W →
    Static.worker_indices L W t =
      (if W <? L
       then seq (t * (L / W)) (if t =? W - 1 then L / W + L mod W else L / W)
       else if t <? L then [t] else []).
Proof.
  intros HW. split; [by apply StaticMore.worker_indices_concat|].
  intros t Ht. rewrite StaticMore.worker_indices_eq by done.
  destruct (W <? L); [|done]. destruct (Nat.eqb_spec t (W - 1)) as [->|]; [|done].
  f_equal. pose proof (Nat.div_mod_eq L W). nia.
Qed.

Lemma static_slices_witness :
  seq 0 3 ≫= Static.worker_indices 8 3 = seq 0 8 ∧
  ∀ t, t < 3 →
    Static.worker_indices 8 3 t =
      (if 3 <? 8
       then seq (t * (8 / 3)) (if t =? 3 - 1 then 8 / 3 + 8 mod 3 else 8 / 3)
       else if t <? 8 then [t] else []).
Proof. apply (static_slices 8 3). lia. Defined.

(** * bfs_seq.cpp: the order of the visit *)

Lemma StronglySorted_ext {A} (R R' : relation A) (l : list A) :
  (∀ x y, x ∈ l → y ∈ l → R x y → R' x y) →
  StronglySorted R l → StronglySorted R' l.
Proof.
  intros Hext. induction 1 as [|x l Hl IH Hx]; constructor.
  - apply IH. intros y z Hy Hz. apply Hext; by right.
  - rewrite Forall_forall in *. intros y Hy. apply Hext; [left|by right|auto].
Qed.

Lemma StronglySorted_const {A} (R : relation A) (l : list A) :
  (∀ x y, x ∈ l → y ∈ l → R x y) → StronglySorted R l.
Proof.
  intros HR. induction l as [|x l IH]; constructor.
  - apply IH. intros y z Hy Hz. apply HR; by right.
  - apply Forall_forall. intros y Hy. apply HR; [left|by right].
Qed.

Lemma StronglySorted_lookup {A} (R : relation A) (l : list A) i j x y :
  StronglySorted R l → i < j → l !! i = Some x → l !! j = Some y → R x y.
Proof.
  intros Hl. revert i j. induction Hl as [|a l Hl IH Ha]; intros i j Hij Hi Hj.
  - done.
  - destruct j as [|j]; [lia|]. destruct i as [|i]; simplify_eq/=.
    + rewrite Forall_forall in Ha. apply Ha. by eapply list_elem_of_lookup_2.
    + apply (IH i j); [lia|done..].
Qed.

(** The scan of an adjacency list appends to the queue; what it appends was
    unmarked and comes from the list. *)
Lemma seq_visit_fold_app l q visited :
  ∃ new, (foldl seq_visit (q, visited) l).1 = q ++ new ∧
         ∀ v, v ∈ new → v ∈ l ∧ seq_marked visited v = false.
Proof.
  revert q visited. induction l as [|val l IH]; intros q visited; simpl.
  - exists []. split; [by rewrite app_nil_r|]. by intros v ?%elem_of_nil.
  - destruct (seq_marked visited val) eqn:E.
    + rewrite (seq_visit_marked _ _ _ E).
      destruct (IH q visited) as (new & Hq & Hnew). exists new.
      split; [done|]. intros v Hv. destruct (Hnew v Hv). split; [by right|done].
    + rewrite (seq_visit_unmarked _ _ _ E).
      destruct (IH (q ++ [val]) (<[val:=true]> visited)) as (new & Hq & Hnew).
      exists (val :: new). split; [by rewrite Hq, <-app_assoc|].
      intros v [->|Hv]%elem_of_cons; [split; [left|done]|].
      destruct (Hnew v Hv) as [Hl Hm]. split; [by right|].
      destruct (decide (v = val)) as [->|Hne]; [done|].
      unfold seq_marked in *. by rewrite list_lookup_insert_ne in Hm.
Qed.

Section sequential_levels.
Variables (g : Graph) (start_node : nat) (search_value : Z).
Hypothesis Hwf : wf_graph g.
Hypothesis Hstart : start_node < n_nodes g.

Lemma seq_level_inv_init :
  seq_level_inv g start_node (λ _, 0) [start_node] [].
Proof.
  split; simpl.
  - intros u ->%list_elem_of_singleton. constructor.
  - repeat constructor.
  - by intros u v ?%elem_of_nil.
  - intros c v _ _. apply Nat.le_0_l.
  - done.
Qed.

Lemma seq_level_inv_step lv curr q visited occ hist :
  seq_inv g start_node search_value (curr :: q) visited occ hist →
  seq_level_inv g start_node lv (curr :: q) hist →
  let qv := foldl seq_visit (q, visited) (adj (node_at g curr)) in
  ∃ lv', seq_level_inv g start_node lv' qv.1 (hist ++ [curr]).
Proof.
  intros Hinv [Hwalk Hsort Hcl Hq Hs0]. simpl.
  pose proof (seq_inv_step g start_node search_value Hwf Hstart _ _ _ _ _ Hinv)
    as Hinv'. simpl in Hinv'.
  destruct Hinv as [Hlen Hnd Hm Hr Hcl0 Hocc Hs].
  destruct (seq_visit_fold_app (adj (node_at g curr)) q visited)
    as (new & Hqv & Hnew).
  rewrite Hqv in *.
  assert (∀ x, x ∈ new → x ∉ hist ++ curr :: q) as Hfresh.
  { intros x Hx Hin. apply Hm in Hin. destruct (Hnew x Hx). congruence. }
  assert (∀ x, x ∈ hist ++ curr :: q → lv x ≤ S (lv curr)) as Hbound.
  { intros x [Hx|Hx]%elem_of_app.
    - etrans; [|apply Nat.le_succ_diag_r].
      eapply (StronglySorted_app_1_elem_of _ _ _ _ _ Hsort); [done|left].
    - by apply (Hq curr). }
  assert (∀ x, x ∈ q → lv curr ≤ lv x) as Hfront.
  { intros x Hx. apply StronglySorted_app_1_r in Hsort.
    apply StronglySorted_cons in Hsort as [Hall _].
    rewrite Forall_forall in Hall. by apply Hall. }
  assert (∀ x, x ∈ (hist ++ [curr]) ++ q ↔ x ∈ hist ++ curr :: q) as Hsame.
  { intros x. by rewrite <-app_assoc. }
  set (lv' := λ x, if decide (x ∈ new) then S (lv curr) else lv x).
  assert (∀ x, x ∈ new → lv' x = S (lv curr)) as Hlv_new.
  { intros x Hx. unfold lv'. by rewrite decide_True. }
  assert (∀ x, x ∈ hist ++ curr :: q → lv' x = lv x) as Hlv_old.
  { intros x Hx. unfold lv'. rewrite decide_False; [done|].
    intros Hin. by apply (Hfresh x). }
  assert (curr ∈ hist ++ curr :: q) as Hcurr
    by (apply elem_of_app; right; left).
  exists lv'. split.
  - intros u. rewrite app_assoc, elem_of_app, Hsame. intros [Hu|Hu].
    + rewrite Hlv_old by done. by apply Hwalk.
    + rewrite Hlv_new by done. eapply walk_S; [by apply Hwalk|].
      by apply Hnew.
  - rewrite app_assoc, <-(app_assoc hist). simpl.
    apply StronglySorted_app_2.
    + intros x1 x2 Hx1 Hx2. rewrite Hlv_old, Hlv_new by done. by apply Hbound.
    + eapply StronglySorted_ext; [|exact Hsort].
      intros x y Hx Hy. by rewrite !Hlv_old.
    + apply StronglySorted_const. intros x y Hx Hy. by rewrite !Hlv_new.
  - intros u v [Hu| ->%list_elem_of_singleton]%elem_of_app Hv.
    + destruct (Hcl u v Hu Hv) as [Hin Hle]. split.
      * rewrite app_assoc, elem_of_app, Hsame. by left.
      * rewrite !Hlv_old; [done| |done]. apply elem_of_app. by left.
    + assert (v ∈ (hist ++ [curr]) ++ q ++ new) as Hin.
      { by apply (seq_inv_closed _ _ _ _ _ _ _ Hinv' curr v);
          [apply elem_of_app; right; left|]. }
      split; [done|]. rewrite (Hlv_old curr) by done.
      rewrite app_assoc, elem_of_app, Hsame in Hin. destruct Hin as [Hin|Hin].
      * rewrite Hlv_old by done. by apply Hbound.
      * by rewrite Hlv_new.
  - intros c v Hc Hv.
    assert (lv' v ≤ S (lv curr)) as Hle.
    { apply elem_of_app in Hv as [Hv|Hv].
      - rewrite Hlv_old by (apply elem_of_app; right; by right).
        apply Hbound. apply elem_of_app; right; by right.
      - by rewrite Hlv_new. }
    assert (c ∈ q ++ new) as Hcin.
    { destruct (q ++ new); simplify_eq/=. left. }
    assert (lv curr ≤ lv' c); [|lia].
    apply elem_of_app in Hcin as [Hcin|Hcin].
    + rewrite Hlv_old by (apply elem_of_app; right; by right).
      by apply Hfront.
    + rewrite Hlv_new by done. lia.
  - by rewrite Hlv_old.
Qed.

Lemma seq_loop_levels fuel q visited occ hist lv :
  seq_inv g start_node search_value q visited occ hist →
  seq_level_inv g start_node lv q hist →
  n_nodes g ≤ fuel + length hist →
  ∃ r lv', seq_loop fuel g search_value q visited occ hist = Some r ∧
    seq_inv g start_node search_value [] (seq_visited r) (seq_occ r)
      (dequeued r) ∧
    seq_level_inv g start_node lv' [] (dequeued r).
Proof.
  revert q visited occ hist lv.
  induction fuel as [|fuel IH]; intros q visited occ hist lv Hinv Hlv Hfuel.
  - destruct q as [|curr q].
    + eexists _, lv. split; [done|]. done.
    + exfalso. destruct Hinv as [Hlen Hnd Hm _ _ _ _].
      assert (length (hist ++ curr :: q) ≤ n_nodes g) as Hle.
      { apply NoDup_lt_length; [done|]. intros u Hu%Hm.
        rewrite <-Hlen. by apply seq_marked_lt. }
      rewrite length_app in Hle. simpl in *. lia.
  - destruct q as [|curr q]; simpl.
    + eexists _, lv. split; [done|]. done.
    + destruct (seq_level_inv_step _ _ _ _ _ _ Hinv Hlv) as [lv' Hlv'].
      apply (seq_inv_step g start_node search_value Hwf Hstart) in Hinv.
      simpl in Hinv, Hlv'.
      destruct (IH _ _ _ _ _ Hinv Hlv') as (r & lv'' & Hr & ? & ?).
      { rewrite length_app. simpl. lia. }
      by exists r, lv''.
Qed.

(** On leaving the loop the levels are the distances. *)
Lemma seq_level_inv_final visited occ hist lv :
  seq_inv g start_node search_value [] visited occ hist →
  seq_level_inv g start_node lv [] hist →
  ∀ u, u ∈ hist → at_distance g start_node (lv u) u.
Proof.
  intros [_ _ _ _ _ _ Hs] [Hwalk Hsort Hcl _ Hs0]. rewrite app_nil_r in *.
  assert (∀ n v, walk g start_node n v → v ∈ hist ∧ lv v ≤ n) as Hmin.
  { intros n v. induction 1 as [|n u v _ [Hu Hle] Hv].
    - split; [done|lia].
    - destruct (Hcl u v Hu Hv) as [Hin Hlv]. split; [done|lia]. }
  intros u Hu. split; [by apply Hwalk|].
  intros n Hn Hw. apply Hmin in Hw as [_ ?]. lia.
Qed.
End sequential_levels.

(** X22. [sequential_bfs] visits the nodes level by level: every node it
    dequeues has a distance from the start node, and the distances never
    decrease along the order in which the nodes are dequeued. *)
Theorem sequential_bfs_order
    (g : Graph) (start_node : nat) (search_value : Z) (fuel : nat) :
  wf_graph g → start_node < n_nodes g → n_nodes g ≤ fuel →
  ∃ r,
    sequential_bfs_run fuel g start_node search_value = Some r ∧
    (∀ u, u ∈ dequeued r → ∃ d, at_distance g start_node d u) ∧
    ∀ i j u v du dv,
      i ≤ j → dequeued r !! i = Some u → dequeued r !! j = Some v →
      at_distance g start_node du u → at_distance g start_node dv v →
      du ≤ dv.
Proof.
  intros Hwf Hs Hfuel.
  destruct (seq_loop_levels g start_node search_value Hwf Hs fuel
              [start_node]
              (<[start_node := true]> (replicate (n_nodes g) false)) 0 []
              (λ _, 0))
    as (r & lv & Hr & Hinv & Hlv).
  { by apply seq_inv_init. } { by apply seq_level_inv_init. } { simpl. lia. }
  assert (∀ u, u ∈ dequeued r → at_distance g start_node (lv u) u) as Hdist
    by (by eapply seq_level_inv_final).
  exists r. split; [done|]. split; [by eauto|].
  intros i j u v du dv Hij Hi Hj Hdu Hdv.
  assert (u ∈ dequeued r) as Hu by (by eapply list_elem_of_lookup_2).
  assert (v ∈ dequeued r) as Hv by (by eapply list_elem_of_lookup_2).
  rewrite (at_distance_unique _ _ _ _ _ Hdu (Hdist u Hu)).
  rewrite (at_distance_unique _ _ _ _ _ Hdv (Hdist v Hv)).
  destruct (decide (i = j)) as [->|Hne]; [by simplify_eq|].
  pose proof (sl_sorted _ _ _ _ _ Hlv) as Hsort. rewrite app_nil_r in Hsort.
  apply (StronglySorted_lookup _ _ i j u v Hsort); [lia|done..].
Qed.

Lemma sequential_bfs_order_witness :
  ∃ r,
    sequential_bfs_run 5 g5 0 7 = Some r ∧
    (∀ u, u ∈ dequeued r → ∃ d, at_distance g5 0 d u) ∧
    ∀ i j u v du dv,
      i ≤ j → dequeued r !! i = Some u → dequeued r !! j = Some v →
      at_distance g5 0 du u → at_distance g5 0 dv v →
      du ≤ dv.
Proof.
  apply (sequential_bfs_order g5 0 7 5);
    [apply (bool_decide_unpack _); vm_compute; exact I|simpl; lia|simpl; lia].
Defined.

(** * class Barrier: the only deadlock is the lost wake-up *)

Module BarrierProgressFacts.
Import Barrier BarrierFacts BarrierProgress.

Lemma missing_none r (ws : list wstate) :
  (∀ t w, ws !! t = Some w → arrivedb r w = true) →
  length (filter (λ w, arrivedb r w = false) ws) = 0.
Proof.
  induction ws as [|w ws IH]; intros Hall; [done|].
  rewrite filter_cons_False by (rewrite (Hall 0 w); done).
  apply IH. intros t w' Hw'. by apply (Hall (S t)).
Qed.

Lemma init_progress_inv n_workers : progress_inv (init n_workers).
Proof.
  split; simpl.
  - by left.
  - done.
  - intros t w [-> _]%lookup_replicate [_ [_ Hpc]]. done.
  - intros Hn Hmiss. exfalso. unfold missing in Hmiss. simpl in Hmiss.
    rewrite missing_all in Hmiss.
    + rewrite length_replicate in Hmiss. lia.
    + by intros t w [-> _]%lookup_replicate.
Qed.

Ltac carry Hcomp :=
  let Hn := fresh "Hn" in let Hz := fresh "Hz" in let Hc := fresh "Hc" in
  intros Hn Hz; destruct (Hcomp Hn Hz) as [Hc|[Hc|Hc]];
    [try (by left)|try (by (right; left))|try done; try (by (right; right))].

Lemma master_next_progress s s' :
  inv s → progress_inv s → master_next s = Some s' → progress_inv s'.
Proof.
  intros Hinv [Hm Hown Hrel Hcomp] Hstep.
  inv_fields Hinv. unfold master_next in Hstep.
  destruct (mpc s) eqn:Hpc; simpl in *.
  all: try (destruct (m_mutex s) eqn:Hmmx; [done|]).
  all: try (destruct (w_mutex s) eqn:Hwmx; [done|]).
  all: simplify_eq.
  all: split; unfold missing, released in *; simpl in *;
    try done; try tauto.
  all: try (by right).
  all: try (intros t w Hw Hr Hp; by specialize (Hrel t w Hw Hr Hp)).
  all: try (by carry Hcomp).
  - (* MCheck *) right. by destruct (stop_master s).
  - (* MInc *)
    intros Hn Hmiss. exfalso.
    destruct Hover as [Hz Hnss]; [done|].
    rewrite missing_all in Hmiss; [lia|].
    intros t w Hw. pose proof (missing_0 _ _ Hz t w Hw) as Har.
    unfold arrivedb in *.
    apply andb_true_iff in Har as [Hr%bool_decide_eq_true _].
    rewrite bool_decide_eq_false_2 by lia. done.
  - (* MNotifyAll *) by rewrite length_fmap.
  - intros t w (w0 & Hw0 & ->)%lookup_wake Hr Hp. exfalso.
    destruct (wake_cases w0) as [[Hp0 E]|[Hp0 E]]; rewrite E in Hp; done.
  - rewrite missing_wake. intros Hn Hz.
    destruct (Hcomp Hn Hz) as [?|[(t & w & Hw & Hp)|?]]; [by left| |done].
    right. left. exists t, w. split; [|done].
    rewrite list_lookup_fmap, Hw. simpl. unfold wake.
    rewrite decide_False; [done|]. by rewrite Hp.
Qed.

Lemma complete_carry (ws : list wstate) t w w' (A B : Prop) :
  ws !! t = Some w → wpc w ≠ WSetStop →
  A ∨ (∃ t1 w1, ws !! t1 = Some w1 ∧ wpc w1 = WSetStop) ∨ B →
  A ∨ (∃ t1 w1, <[t := w']> ws !! t1 = Some w1 ∧ wpc w1 = WSetStop) ∨ B.
Proof.
  intros Hw Hpc [?|[(t1 & w1 & Hw1 & Hp1)|?]]; [by left| |by right; right].
  right. left. exists t1, w1. split; [|done].
  destruct (decide (t1 = t)) as [->|Hne]; [congruence|].
  by rewrite list_lookup_insert_ne.
Qed.

Lemma worker_next_progress t s s' :
  inv s → inv s' → progress_inv s → worker_next t s = Some s' →
  progress_inv s'.
Proof.
  intros Hinv Hinv' [Hm Hown Hrel Hcomp] Hstep.
  inv_fields Hinv. unfold worker_next in Hstep.
  destruct (wks s !! t) as [w|] eqn:Hw; [|done].
  pose proof (lookup_lt_Some _ _ _ Hw) as Ht.
  pose proof (Hmw t w Hw) as Hmwt. pose proof (Hcl t w Hw) as Hclt.
  unfold arrived, working, released in Hclt.
  destruct (wpc w) eqn:Hpc; simpl in *.
  all: try (destruct (w_mutex s) eqn:Hwmx; [done|]).
  all: simplify_eq.
  - (* WWork *)
    assert (missing (set_worker t (set_wpc WLock w) s) = missing s) as Hmiss.
    { same_missing Hw Hpc. }
    split; rewrite ?Hmiss; simpl; try done.
    + intros t0 Ht0. rewrite length_insert. by apply Hown.
    + upd Hw; [done|]. by apply (Hrel t0).
    + intros Hn Hz. apply (complete_carry _ _ w); [done|by rewrite Hpc|].
      by apply Hcomp.
  - (* WLock *)
    destruct (bool_decide (m_count s - 1 = 0)) eqn:El;
      [apply bool_decide_eq_true in El|apply bool_decide_eq_false in El].
    + split; simpl; try done.
      * intros t0 [= <-]. by rewrite length_insert.
      * upd Hw; [done|]. by apply (Hrel t0).
      * intros _ _. right. left. eexists t, _.
        split; [by apply list_lookup_insert_eq|done].
    + split; simpl; try done.
      * intros t0 [= <-]. by rewrite length_insert.
      * upd Hw; [done|]. by apply (Hrel t0).
      * intros Hn Hz. exfalso.
        destruct (inv_count _ Hinv') as [_ Hz']. specialize (Hz' Hz).
        simpl in Hz'.
        assert (missing s ≤ length (wks s)) by apply length_filter.
        destruct Hcnt as [Hpos Hzero].
        destruct (decide (missing s = 0)) as [E|E];
          [rewrite Hzero in Hz' by done|rewrite Hpos in Hz' by lia]; lia.
  - (* WSetStop *)
    split; simpl; try done.
    + intros t0 Ht0. rewrite length_insert. by apply Hown.
    + upd Hw; [done|]. by apply (Hrel t0).
    + intros _ _. by left.
  - (* WNotify *)
    assert (∀ s0, mround s0 = mround s → wks s0 = wks s →
              missing (set_worker t (set_wpc WCheck w) s0) = missing s) as Hmiss.
    { intros s0 E1 E2. unfold missing. simpl. rewrite E1, E2.
      apply (missing_update_same _ _ _ _ _ Hw). unfold arrivedb. simpl.
      by rewrite Hpc. }
    unfold notify_master. case_decide as Hmp.
    + split; rewrite ?Hmiss by done; simpl; try done.
      * left. destruct Hm as [?|Hh]; [done|]. by rewrite Hmp in Hh.
      * intros t0 Ht0. rewrite length_insert. by apply Hown.
      * upd Hw; [done|]. intros Hr Hp. specialize (Hrel t0 w0 Hw0 Hr Hp).
        congruence.
      * intros Hn Hz.
        destruct (Hcomp Hn Hz) as [?|[(t1 & w1 & Hw1 & Hp1)|Ho]];
          [by left| |by rewrite Hmp in Ho].
        right. left. exists t1, w1. split; [|done].
        destruct (decide (t1 = t)) as [->|Hne]; [congruence|].
        by rewrite list_lookup_insert_ne.
    + split; rewrite ?Hmiss by done; simpl; try done.
      * intros t0 Ht0. rewrite length_insert. by apply Hown.
      * upd Hw; [done|]. by apply (Hrel t0).
      * intros Hn Hz. apply (complete_carry _ _ w); [done|by rewrite Hpc|].
        by apply Hcomp.
  - (* WCheck *)
    destruct (bool_decide (l_gen w ≠ m_generation s)) eqn:Eg;
      [apply bool_decide_eq_true in Eg|apply bool_decide_eq_false in Eg].
    + assert (S (wround w) = mround s) as Hr by tauto.
      assert (missing (set_worker t (set_wpc WUnlock w) s) = missing s) as Hmiss.
      { same_missing Hw Hpc. by rewrite bool_decide_eq_false_2 by lia. }
      split; rewrite ?Hmiss; simpl; try done.
      * intros t0 Ht0. rewrite length_insert. by apply Hown.
      * upd Hw; [done|]. by apply (Hrel t0).
      * intros Hn Hz. apply (complete_carry _ _ w); [done|by rewrite Hpc|].
        by apply Hcomp.
    + assert (missing (set_worker t (set_wpc WBlock w) s) = missing s) as Hmiss.
      { same_missing Hw Hpc. }
      split; rewrite ?Hmiss; simpl; try done.
      * intros t0 Ht0. rewrite length_insert. by apply Hown.
      * upd Hw; [done|]. by apply (Hrel t0).
      * intros Hn Hz. apply (complete_carry _ _ w); [done|by rewrite Hpc|].
        by apply Hcomp.
  - (* WBlock *)
    assert (missing (set_worker t (set_wpc WWaiting w) (set_w_mutex None s))
            = missing s) as Hmiss.
    { same_missing Hw Hpc. }
    split; rewrite ?Hmiss; simpl; try done.
    + upd Hw; [|by apply (Hrel t0)].
      unfold released. simpl. intros (_ & Hne & _) _. exfalso. tauto.
    + intros Hn Hz. apply (complete_carry _ _ w); [done|by rewrite Hpc|].
      by apply Hcomp.
  - (* WWoken *)
    assert (missing (set_worker t (set_wpc WCheck w)
                       (set_w_mutex (Some (Worker t)) s)) = missing s) as Hmiss.
    { same_missing Hw Hpc. }
    split; rewrite ?Hmiss; simpl; try done.
    + intros t0 [= <-]. by rewrite length_insert.
    + upd Hw; [done|]. by apply (Hrel t0).
    + intros Hn Hz. apply (complete_carry _ _ w); [done|by rewrite Hpc|].
      by apply Hcomp.
  - (* WUnlock *)
    assert (S (wround w) = mround s) as Hr
      by (by destruct Hclt as [(_ & _ & ?)|[[_ ?]|[? _]]]).
    set (w' := {| wpc := WWork; l_gen := l_gen w; wround := S (wround w) |}).
    assert (missing (set_worker t w' (set_w_mutex None s)) = missing s)
      as Hmiss.
    { same_missing Hw Hpc. by rewrite !andb_false_r. }
    split; rewrite ?Hmiss; simpl; try done.
    + upd Hw; [done|]. by apply (Hrel t0).
    + intros Hn Hz. apply (complete_carry _ _ w); [done|by rewrite Hpc|].
      by apply Hcomp.
Qed.

Lemma spurious_progress th s s' :
  inv s → progress_inv s → exec (Spurious th) s = Some s' → progress_inv s'.
Proof.
  intros Hinv [Hm Hown Hrel Hcomp] Hstep. inv_fields Hinv.
  destruct th as [|t]; simpl in Hstep.
  - case_decide as Hpc; [|done]. simplify_eq.
    split; unfold missing, released in *; simpl in *; try done.
    + left. destruct Hm as [?|Hh]; [done|]. by rewrite Hpc in Hh.
    + intros t w Hw Hr Hp. specialize (Hrel t w Hw Hr Hp). congruence.
    + intros Hn Hz. destruct (Hcomp Hn Hz) as [?|[?|Ho]];
        [by left|by right; left|by rewrite Hpc in Ho].
  - destruct (wks s !! t) as [w|] eqn:Hw; [|done].
    case_decide as Hpc; [|done]. simplify_eq.
    assert (missing (set_worker t (set_wpc WWoken w) s) = missing s) as Hmiss.
    { same_missing Hw Hpc. }
    split; rewrite ?Hmiss; simpl; try done.
    + intros t0 Ht0. rewrite length_insert. by apply Hown.
    + upd Hw; [done|]. by apply (Hrel t0).
    + intros Hn Hz. apply (complete_carry _ _ w); [done|by rewrite Hpc|].
      by apply Hcomp.
Qed.

Lemma run_progress_inv trace n_workers s :
  run trace (init n_workers) = Some s → inv s ∧ progress_inv s.
Proof.
  assert (∀ s0, inv s0 → progress_inv s0 → run trace s0 = Some s →
                inv s ∧ progress_inv s) as Hgen.
  { induction trace as [|a trace IH]; intros s0 Hinv Hprog; simpl.
    - by intros [= <-].
    - destruct (exec a s0) as [s1|] eqn:E; [|done].
      pose proof (exec_inv _ _ _ Hinv E) as Hinv1. apply IH; [done|].
      destruct a as [[|t]|th]; simpl in E.
      + by apply (master_next_progress s0).
      + by apply (worker_next_progress t s0).
      + by apply (spurious_progress th s0). }
  apply Hgen; [apply init_inv|apply init_progress_inv].
Qed.

(** A worker that holds [w_mutex] is not blocked. *)
Lemma holder_runs t s w :
  wks s !! t = Some w → holds_w_mutex (wpc w) → worker_next t s ≠ None.
Proof.
  intros Hw Hh. unfold worker_next. rewrite Hw.
  destruct (wpc w); simpl in Hh; done.
Qed.

Lemma stuck_state s :
  inv s → progress_inv s → 1 ≤ m_threshold s → stuck s →
  mpc s = MWaiting ∧ stop_master s = true ∧
  m_mutex s = None ∧ w_mutex s = None ∧
  ∀ t w, wks s !! t = Some w →
    wpc w = WWaiting ∧ wround w = mround s ∧ l_gen w = m_generation s.
Proof.
  intros Hinv [Hm Hown Hrel Hcomp] Hn Hstuck. inv_fields Hinv.
  assert (w_mutex s = None) as Hwfree.
  { assert (∀ th, w_mutex s = Some th → False) as Hno.
    { intros [|t] Hwmx.
      - apply Hmm in Hwmx. specialize (Hstuck Master). simpl in Hstuck.
        unfold master_next in Hstuck. destruct (mpc s); done.
      - destruct (lookup_lt_is_Some_2 _ _ (Hown t Hwmx)) as [w Hw].
        apply (holder_runs t s w); [done|by apply (Hmw t w Hw)|].
        apply (Hstuck (Worker t)). }
    destruct (w_mutex s) as [th|]; [|done]. by destruct (Hno th). }
  assert (mpc s = MWaiting) as Hpc.
  { specialize (Hstuck Master). simpl in Hstuck. unfold master_next in Hstuck.
    rewrite Hwfree in Hstuck.
    destruct (mpc s) eqn:Hpc; try done;
      destruct Hm as [Hm|Hm]; try done; by rewrite Hm in Hstuck. }
  assert (∀ t w, wks s !! t = Some w →
    wpc w = WWaiting ∧ wround w = mround s ∧ l_gen w = m_generation s) as Hall.
  { intros t w Hw.
    assert (wpc w = WWaiting) as Hp.
    { specialize (Hstuck (Worker t)). simpl in Hstuck.
      unfold worker_next in Hstuck. rewrite Hw, Hwfree in Hstuck.
      destruct (wpc w); done. }
    split; [done|].
    destruct (Hcl t w Hw) as [(? & ? & _)|[[_ Hwk]|Hr]]; [done| |].
    - by rewrite Hp in Hwk.
    - specialize (Hrel t w Hw Hr Hp). congruence. }
  split; [done|]. split; [|split; [|done]].
  - assert (missing s = 0) as Hz.
    { unfold missing. apply missing_none. intros t w Hw.
      destruct (Hall t w Hw) as (Hp & Hr & _). unfold arrivedb.
      by rewrite Hp, bool_decide_eq_true_2. }
    destruct (Hcomp Hn Hz) as [?|[(t & w & Hw & Hp)|Ho]]; [done| |].
    + destruct (Hall t w Hw) as [? _]. congruence.
    + by rewrite Hpc in Ho.
  - destruct Hm as [?|Hm]; [done|]. by rewrite Hpc in Hm.
Qed.
End BarrierProgressFacts.

(** X23. The lost wake-up is the only deadlock of the barrier.  With at
    least one worker, on every trace, spurious wake-ups included: if no
    thread can run, the orchestrator is blocked inside [MasterWait] although
    [stop_master] is set, both mutexes are free, and every worker has
    completed the round, has seen no new generation and is blocked inside
    [WorkerWait].  In particular the system never stops while a round is
    incomplete or while [stop_master] is false. *)
Theorem barrier_deadlock (n_workers : nat) (trace : list Barrier.action)
    (s : Barrier.system) :
  Barrier.run trace (Barrier.init n_workers) = Some s →
  1 ≤ n_workers → Barrier.stuck s →
  Barrier.mpc s = Barrier.MWaiting ∧ Barrier.stop_master s = true ∧
  Barrier.m_mutex s = None ∧ Barrier.w_mutex s = None ∧
  ∀ w, w ∈ Barrier.wks s →
    Barrier.wpc w = Barrier.WWaiting ∧
    Barrier.wround w = Barrier.mround s ∧
    Barrier.l_gen w = Barrier.m_generation s.
Proof.
  intros Hrun Hn Hstuck.
  destruct (BarrierProgressFacts.run_progress_inv _ _ _ Hrun) as [Hinv Hprog].
  pose proof (BarrierMore.run_m_threshold _ _ _ Hrun) as Hth. simpl in Hth.
  destruct (BarrierProgressFacts.stuck_state s Hinv Hprog)
    as (? & ? & ? & ? & Hall); [lia|done|].
  split_and!; try done. intros w [t Hw]%list_elem_of_lookup. by apply (Hall t).
Qed.

Lemma barrier_deadlock_witness :
  ∃ s,
    Barrier.run Barrier.lost_wakeup_trace (Barrier.init 1) = Some s ∧
    Barrier.mpc s = Barrier.MWaiting ∧ Barrier.stop_master s = true ∧
    Barrier.m_mutex s = None ∧ Barrier.w_mutex s = None ∧
    ∀ w, w ∈ Barrier.wks s →
      Barrier.wpc w = Barrier.WWaiting ∧
      Barrier.wround w = Barrier.mround s ∧
      Barrier.l_gen w = Barrier.m_generation s.
Proof.
  eexists. split; [vm_compute; reflexivity|].
  apply (barrier_deadlock 1 Barrier.lost_wakeup_trace);
    [vm_compute; reflexivity|lia|].
  intros [|[|t]]; reflexivity.
Defined.

(** * graph.cpp: the generator by edge count *)

Lemma StronglySorted_lt_NoDup (l : list nat) : StronglySorted lt l → NoDup l.
Proof.
  induction 1 as [|x l _ IH Hx]; constructor; [|done].
  rewrite Forall_forall in Hx. intros Hin%Hx. lia.
Qed.

Lemma set_insert_spec x s :
  StronglySorted lt s →
  StronglySorted lt (set_insert x s).1 ∧
  (∀ y, y ∈ (set_insert x s).1 ↔ y = x ∨ y ∈ s) ∧
  length (set_insert x s).1 =
    (if (set_insert x s).2 then S (length s) else length s).
Proof.
  induction 1 as [|y s Hs IH Hy]; simpl.
  - split; [repeat constructor|]. split; [|done].
    intros z. rewrite list_elem_of_singleton, elem_of_nil. tauto.
  - destruct IH as (IHs & IHin & IHlen). rewrite Forall_forall in Hy.
    destruct (Nat.ltb_spec x y) as [Hxy|Hxy]; simpl.
    { split; [|split; [intros z; by rewrite !elem_of_cons|done]].
      constructor; [by constructor; [|apply Forall_forall]|].
      apply Forall_forall. intros z [->|Hz%Hy]%elem_of_cons; lia. }
    destruct (Nat.eqb_spec x y) as [->|Hne]; simpl.
    { split; [by constructor; [|apply Forall_forall]|].
      split; [|done]. intros z. rewrite elem_of_cons. tauto. }
    split; [|split].
    + constructor; [done|]. apply Forall_forall.
      intros z [->|Hz]%IHin; [lia|by apply Hy].
    + intros z. rewrite !elem_of_cons, IHin. tauto.
    + rewrite IHlen. by destruct (set_insert x s).2.
Qed.

Lemma sum_list_insert (l : list nat) i x y :
  l !! i = Some x → sum_list (<[i := y]> l) + x = sum_list l + y.
Proof.
  revert i. induction l as [|a l IH]; intros [|i] Hi; simplify_eq/=; [lia|].
  specialize (IH i Hi). lia.
Qed.

(** At most one set element per pair of nodes. *)
Lemma fast_inv_bound_gen (temp : list (list nat)) a :
  (∀ i s, temp !! i = Some s →
     StronglySorted lt s ∧ ∀ j, j ∈ s → a + i < j < a + length temp) →
  2 * sum_list (length <$> temp) ≤ length temp * (length temp - 1).
Proof.
  revert a. induction temp as [|s temp IH]; intros a Hall; [done|].
  destruct (Hall 0 s eq_refl) as [Hs Hin].
  assert (length s ≤ length temp) as Hle.
  { replace (length temp) with (a + S (length temp) - S a) by lia.
    apply NoDup_range_length; [by apply StronglySorted_lt_NoDup|].
    intros j Hj%Hin. cbn [length] in Hj. lia. }
  assert (2 * sum_list (length <$> temp) ≤ length temp * (length temp - 1))
    as Hsum.
  { apply (IH (S a)). intros i s' Hs'.
    destruct (Hall (S i) s' Hs') as [? Hin'].
    split; [done|]. intros j Hj%Hin'. cbn [length] in Hj. lia. }
  rewrite fmap_cons.
  change (sum_list (length s :: (length <$> temp)))
    with (length s + sum_list (length <$> temp)).
  cbn [length].
  remember (sum_list (length <$> temp)) as T eqn:HT.
  remember (length temp) as L eqn:HL. remember (length s) as m eqn:Hm.
  clear -Hle Hsum.
  replace (S L - 1) with L by lia.
  assert (L * (L - 1) + L = L * L) by (destruct L; simpl; lia). nia.
Qed.

Lemma fast_inv_bound n count temp :
  fast_inv n count temp → 2 * count ≤ n * (n - 1).
Proof.
  intros (Hlen & Hall & ->). rewrite <-Hlen.
  apply (fast_inv_bound_gen temp 0). intros i s Hs.
  destruct (Hall i s Hs) as [? Hin]. split; [done|].
  intros j Hj%Hin. lia.
Qed.

Lemma fast_inv_init n : fast_inv n 0 (replicate n []).
Proof.
  split; [by rewrite length_replicate|]. split.
  - intros i s [-> _]%lookup_replicate. split; [constructor|].
    by intros j ?%elem_of_nil.
  - induction n; simpl; [done|]. done.
Qed.

Section generate_graph_fast_facts.
Variable rand : nat → nat.
Variables (n n_edges : nat) (max_value : Z).

(** The test and the swap make the order of the two calls irrelevant. *)
Lemma fast_loop_order order1 order2 fuel count temp k :
  fast_loop rand order1 n n_edges fuel count temp k =
  fast_loop rand order2 n n_edges fuel count temp k.
Proof.
  revert count temp k. induction fuel as [|fuel IH]; intros count temp k;
    simpl; [done|].
  destruct (n_edges <=? count); [done|]. destruct (n =? 0); [done|].
  unfold draw.
  generalize (ran rand n (2 * k)) as a, (ran rand n (2 * k + 1)) as b.
  intros a b.
  destruct (Nat.lt_trichotomy a b) as [Hab|[Hab|Hab]].
  - assert ((a =? b) = false) as E1 by (apply Nat.eqb_neq; lia).
    assert ((b =? a) = false) as E2 by (apply Nat.eqb_neq; lia).
    assert ((a <? b) = true) as E3 by (apply Nat.ltb_lt; lia).
    assert ((b <? a) = false) as E4 by (apply Nat.ltb_ge; lia).
    destruct (order1 k), (order2 k); rewrite ?E1, ?E2, ?E3, ?E4; apply IH.
  - subst b. destruct (order1 k), (order2 k); rewrite Nat.eqb_refl; apply IH.
  - assert ((a =? b) = false) as E1 by (apply Nat.eqb_neq; lia).
    assert ((b =? a) = false) as E2 by (apply Nat.eqb_neq; lia).
    assert ((a <? b) = false) as E3 by (apply Nat.ltb_ge; lia).
    assert ((b <? a) = true) as E4 by (apply Nat.ltb_lt; lia).
    destruct (order1 k), (order2 k); rewrite ?E1, ?E2, ?E3, ?E4; apply IH.
Qed.

Lemma ran_lt k c : k ≠ 0 → ran rand k c < k.
Proof. intros. unfold ran. by apply Nat.mod_upper_bound. Qed.

(** The loop keeps [fast_inv] and leaves with [count = n_edges]. *)
Lemma fast_loop_inv order fuel count temp k temp' k' :
  fast_inv n count temp → count ≤ n_edges →
  fast_loop rand order n n_edges fuel count temp k = Returns (temp', k') →
  fast_inv n n_edges temp'.
Proof.
  revert count temp k. induction fuel as [|fuel IH]; intros count temp k Hinv Hle;
    simpl.
  - destruct (Nat.leb_spec n_edges count); [|done].
    intros [= <- <-]. by replace n_edges with count by lia.
  - destruct (Nat.leb_spec n_edges count).
    { intros [= <- <-]. by replace n_edges with count by lia. }
    destruct (Nat.eqb_spec n 0) as [|Hn]; [done|].
    destruct (draw rand order n k) as [i0 j0] eqn:Hd.
    assert (i0 < n ∧ j0 < n) as [Hi0 Hj0].
    { unfold draw in Hd. destruct (order k); simplify_eq; split; by apply ran_lt. }
    destruct (Nat.eqb_spec i0 j0) as [|Hne]; [by apply IH|].
    set (ij := if j0 <? i0 then (j0, i0) else (i0, j0)).
    assert (ij.1 < ij.2 < n) as Hij.
    { unfold ij. destruct (Nat.ltb_spec j0 i0); simpl; lia. }
    destruct ij as [i j]. simpl in Hij.
    destruct Hinv as (Hlen & Hall & Hcount).
    assert (is_Some (temp !! i)) as [s Hs]
      by (apply lookup_lt_is_Some_2; lia).
    rewrite (list_lookup_total_correct _ _ _ Hs).
    destruct (Hall i s Hs) as [Hsort Hin].
    destruct (set_insert_spec j s Hsort) as (Hsort' & Hin' & Hlen').
    apply IH.
    + split; [by rewrite length_insert|]. split.
      * intros i1 s1 Hs1.
        destruct (decide (i1 = i)) as [->|Hi1].
        -- rewrite list_lookup_insert_eq in Hs1 by lia. simplify_eq.
           split; [done|]. intros j1 [->|Hj1]%Hin'; [lia|by apply Hin].
        -- rewrite list_lookup_insert_ne in Hs1 by done. by apply Hall.
      * rewrite list_fmap_insert.
        pose proof (sum_list_insert (length <$> temp) i (length s)
                      (length (set_insert j s).1)) as Hsum.
        rewrite list_lookup_fmap, Hs in Hsum. specialize (Hsum eq_refl).
        rewrite Hlen' in *. destruct (set_insert j s).2; lia.
    + destruct (set_insert j s).2; lia.
Qed.

Lemma fast_loop_defined order fuel count temp k :
  n ≠ 0 → fast_loop rand order n n_edges fuel count temp k ≠ Undefined.
Proof.
  intros Hn. revert count temp k.
  induction fuel as [|fuel IH]; intros count temp k; simpl.
  - by destruct (n_edges <=? count).
  - destruct (n_edges <=? count); [done|].
    destruct (Nat.eqb_spec n 0); [done|].
    destruct (draw rand order n k) as [i0 j0].
    destruct (i0 =? j0); [apply IH|].
    destruct (if j0 <? i0 then (j0, i0) else (i0, j0)). apply IH.
Qed.

(** [clear_duplicates] writes every node once. *)
Lemma clear_duplicates_spec dup_set c :
  clear_duplicates rand n max_value (new_Graph n) dup_set c =
  if decide (to_short max_value = 0%Z ∧ 0 < n) then None
  else Some {| n_nodes := n;
               nodes := (λ i, {| value := to_short (Z.rem (Z.of_nat (rand (c + i)))
                                                      (to_short max_value) + 1);
                                 adj := dup_set !!! i |}) <$> seq 0 n |}.
Proof.
  unfold clear_duplicates. case_decide as Hd.
  - destruct Hd as [Hz Hn]. destruct n as [|m]; [lia|].
    rewrite <-cons_seq. cbn [for_loop]. unfold clear_body. cbv zeta.
    by rewrite decide_True by done.
  - destruct (decide (to_short max_value = 0%Z)) as [Hz|Hmax].
    { destruct n; [done|]. exfalso. apply Hd. split; [done|lia]. }
    set (nd := λ i, {| value := to_short (Z.rem (Z.of_nat (rand (c + i)))
                                          (to_short max_value) + 1);
                       adj := dup_set !!! i |}).
    destruct (for_loop_inv
      (λ i g, g = {| n_nodes := n;
                     nodes := (nd <$> seq 0 i) ++
                              replicate (n - i) {| value := 0; adj := [] |} |})
      (clear_body rand max_value dup_set c) 0 n (new_Graph n))
      as (g & -> & ->).
    + unfold new_Graph. simpl. by rewrite Nat.sub_0_r.
    + intros i g Hi ->. eexists. split; [|done].
      unfold clear_body. cbv zeta. rewrite decide_False by done. f_equal.
      unfold set_value, append_adj. cbn [n_nodes nodes]. f_equal.
      rewrite list_alter_alter_eq.
      replace (n - i) with (S (n - S i)) by lia. cbn [replicate].
      rewrite seq_S, fmap_app, <-app_assoc. cbn [fmap list_fmap app].
      assert (length (nd <$> seq 0 i) = i) as Hlen
        by (by rewrite length_fmap, length_seq).
      rewrite <-(Nat.add_0_r i) at 1. rewrite <-Hlen at 1.
      rewrite alter_app_r. done.
    + simpl. rewrite Nat.sub_diag. simpl. by rewrite app_nil_r.
Qed.

Lemma fmap_lookup_total_seq {A} `{!Inhabited A} (l : list A) :
  (λ i, l !!! i) <$> seq 0 (length l) = l.
Proof.
  apply list_eq. intros i. rewrite list_lookup_fmap.
  destruct (decide (i < length l)) as [Hi|Hi].
  - rewrite lookup_seq_lt by done. simpl.
    destruct (lookup_lt_is_Some_2 _ _ Hi) as [x Hx].
    by rewrite Hx, (list_lookup_total_correct _ _ _ Hx).
  - rewrite lookup_seq_ge by lia. by rewrite lookup_ge_None_2 by lia.
Qed.

Lemma generate_graph_fast_Returns order fuel g :
  generate_graph_fast rand order n n_edges max_value fuel = Returns g →
  ∃ temp, fast_inv n n_edges temp ∧ n_nodes g = n ∧
          adj <$> nodes g = temp.
Proof.
  unfold generate_graph_fast.
  destruct (fast_loop rand order n n_edges fuel 0 (replicate n []) 0)
    as [[temp k]| |] eqn:Hloop; [|done..].
  apply fast_loop_inv in Hloop; [|apply fast_inv_init|lia].
  rewrite clear_duplicates_spec. case_decide; [done|].
  intros [= <-]. exists temp. split; [done|]. split; [done|].
  cbn [nodes]. rewrite <-list_fmap_compose.
  destruct Hloop as (Hlen & _). rewrite <-Hlen at 1.
  apply fmap_lookup_total_seq.
Qed.
End generate_graph_fast_facts.

(** X24. A graph that [generate_graph_fast] returns has [n_nodes] nodes and
    exactly [n_edges] edges; every adjacency list is strictly increasing and
    holds only ids above its own node and below [n_nodes].  So no edge is
    drawn twice, and [n_edges] is at most [n (n - 1) / 2]. *)
Theorem generate_graph_fast_edges (rand : nat → nat) (order : nat → bool)
    (n n_edges : nat) (max_value : Z) (fuel : nat) (g : Graph) :
  generate_graph_fast rand order n n_edges max_value fuel = Returns g →
  wf_graph g ∧ n_nodes g = n ∧
  (∀ u, StronglySorted lt (adj (node_at g u)) ∧
        ∀ v, v ∈ adj (node_at g u) → u < v < n) ∧
  sum_list (length <$> (adj <$> nodes g)) = n_edges ∧
  2 * n_edges ≤ n * (n - 1).
Proof.
  intros (temp & Hinv & Hn & Hadj)%generate_graph_fast_Returns.
  pose proof (fast_inv_bound _ _ _ Hinv) as Hbound.
  destruct Hinv as (Hlen & Hall & Hcount).
  assert (length (nodes g) = n) as Hlen'.
  { by rewrite <-(length_fmap adj), Hadj. }
  assert (∀ u, StronglySorted lt (adj (node_at g u)) ∧
               ∀ v, v ∈ adj (node_at g u) → u < v < n) as Hnodes.
  { intros u. unfold node_at. rewrite list_lookup_total_alt.
    destruct (nodes g !! u) as [nd|] eqn:Hnd; simpl.
    - apply (Hall u). by rewrite <-Hadj, list_lookup_fmap, Hnd.
    - split; [constructor|]. by intros v ?%elem_of_nil. }
  split_and!; [|done|done|by rewrite Hadj|done].
  split; [congruence|]. apply Forall_lookup. intros u nd Hnd.
  apply Forall_forall. intros v Hv.
  assert (node_at g u = nd) as Hu by (by apply list_lookup_total_correct).
  rewrite <-Hu in Hv. apply Hnodes in Hv. lia.
Qed.

Lemma generate_graph_fast_edges_witness :
  ∃ g,
    generate_graph_fast (λ c, c * c + c / 2 + 1) (λ _, false) 4 3 6 10 = Returns g ∧
    wf_graph g ∧ n_nodes g = 4 ∧
    (∀ u, StronglySorted lt (adj (node_at g u)) ∧
          ∀ v, v ∈ adj (node_at g u) → u < v < 4) ∧
    sum_list (length <$> (adj <$> nodes g)) = 3 ∧
    2 * 3 ≤ 4 * (4 - 1).
Proof.
  eexists. split; [vm_compute; reflexivity|].
  apply (generate_graph_fast_edges (λ c, c * c + c / 2 + 1) (λ _, false) 4 3 6 10).
  vm_compute. reflexivity.
Defined.

(** X25. [generate_graph_fast] asked for more edges than there are pairs of
    nodes never returns: its loop is still running after any number of
    iterations.  With no node at all and an edge asked for, it divides by
    zero in its first iteration. *)
Theorem generate_graph_fast_too_many_edges (rand : nat → nat)
    (order : nat → bool) (n n_edges : nat) (max_value : Z) (fuel : nat) :
  n * (n - 1) < 2 * n_edges →
  (1 ≤ n →
   generate_graph_fast rand order n n_edges max_value fuel = OutOfFuel) ∧
  (n = 0 →
   generate_graph_fast rand order n n_edges max_value (S fuel) = Undefined).
Proof.
  intros Hmany. split.
  - intros Hn. unfold generate_graph_fast.
    destruct (fast_loop rand order n n_edges fuel 0 (replicate n []) 0)
      as [[temp k]| |] eqn:Hloop; [| |done]; exfalso.
    + apply fast_loop_inv in Hloop; [|apply fast_inv_init|lia].
      apply fast_inv_bound in Hloop. lia.
    + revert Hloop. apply fast_loop_defined. lia.
  - intros ->. unfold generate_graph_fast. simpl.
    destruct (Nat.leb_spec n_edges 0); [lia|done].
Qed.

Lemma generate_graph_fast_too_many_edges_witness :
  (1 ≤ 3 →
   generate_graph_fast (λ c, c * c + c / 2 + 1) (λ _, false) 3 4 6 50 = OutOfFuel) ∧
  (3 = 0 →
   generate_graph_fast (λ c, c * c + c / 2 + 1) (λ _, false) 3 4 6 51 = Undefined).
Proof.
  apply (generate_graph_fast_too_many_edges (λ c, c * c + c / 2 + 1) (λ _, false)
           3 4 6 50).
  simpl. lia.
Defined.

(** X26. In [(i = ran(n_nodes)) == (j = ran(n_nodes))] the order of the two
    calls is unspecified; the test for equality and the swap that follow
    make it irrelevant: [generate_graph_fast] computes the same result
    whichever operand is evaluated first in each iteration. *)
Theorem generate_graph_fast_order (rand : nat → nat)
    (order1 order2 : nat → bool) (n n_edges : nat) (max_value : Z)
    (fuel : nat) :
  generate_graph_fast rand order1 n n_edges max_value fuel =
  generate_graph_fast rand order2 n n_edges max_value fuel.
Proof.
  unfold generate_graph_fast.
  by rewrite (fast_loop_order rand n n_edges order1 order2).
Qed.

(** * The race on [visited] duplicates a node at most once per worker *)

Lemma buffer_ok_mono vis vis' w :
  (∀ u, marked vis u → marked vis' u) → buffer_ok vis w → buffer_ok vis' w.
Proof.
  intros Hmono (Hnd & Hm & Hp). split; [done|]. split; [|done].
  intros u Hu. destruct (Hm u Hu); auto.
Qed.

Lemma worker_step_buffer g search_value frontier vis w :
  (∀ u, pc w = Mark u → u < length vis) →
  buffer_ok vis w →
  buffer_ok (worker_step g search_value frontier vis w).1
            (worker_step g search_value frontier vis w).2.
Proof.
  intros Hlt (Hnd & Hm & Hp). unfold worker_step.
  destruct (pc w) as [|val|val] eqn:Hpc.
  - destruct (nbrs w) as [|val rest] eqn:Hn.
    + destruct (todo w) as [|j rest] eqn:Ht; simpl.
      * split; [done|]. split; [|by rewrite Hpc].
        intros u Hu. destruct (Hm u Hu) as [?|?]; [by left|congruence].
      * split; [done|]. split; [|done].
        intros u Hu. destruct (Hm u Hu) as [?|?]; [by left|congruence].
    + simpl. split; [done|]. split.
      * intros u Hu. destruct (Hm u Hu) as [?|?]; [by left|congruence].
      * intros u Hu. destruct (unvisited vis val) eqn:E; [|done].
        simpl in Hu. injection Hu as <-. simpl. intros Hin.
        destruct (Hm val Hin) as [Hmk|?]; [|congruence].
        unfold marked in Hmk. congruence.
  - simpl. split; [|split; [|done]].
    + apply NoDup_app. split; [done|]. split; [|apply NoDup_singleton].
      intros u Hu ->%list_elem_of_singleton. by apply (Hp val).
    + intros u [Hu| ->%list_elem_of_singleton]%elem_of_app; [|by right].
      destruct (Hm u Hu) as [?|?]; [by left|congruence].
  - simpl. split; [done|]. split; [|done]. intros u Hu. left.
    apply unvisited_insert; [by apply Hlt|].
    destruct (Hm u Hu) as [?|?]; [by right|left; congruence].
Qed.

Section buffers.
Variables (g : Graph) (search_value : Z) (n_workers : nat).
Variables (assign : policy) (normalize : list nat → list nat).
Variables (sched : nat → list nat) (uset_iter : nat → list nat → list nat).
Variable start_node : nat.
Hypothesis Hwf : wf_graph g.
Hypothesis Hworkers : 1 ≤ n_workers.
Hypothesis Hassign : policy_ok assign.
Hypothesis Hnormalize : ∀ l, normalize l ≡ₚ l.
Hypothesis Huset : uset_iter_ok uset_iter.
Hypothesis Hstart : start_node < n_nodes g.

Lemma sched_step_buffer F V t st :
  length V = n_nodes g → (∀ x, x ∈ F → x < n_nodes g) →
  round_inv g F V st ∧ Forall (buffer_ok st.1) st.2 →
  round_inv g F V (sched_step g search_value F t st) ∧
  Forall (buffer_ok (sched_step g search_value F t st).1)
         (sched_step g search_value F t st).2.
Proof.
  intros HV HF [Hinv Hbuf].
  split; [by apply sched_step_inv|].
  unfold sched_step. destruct (st.2 !! t) as [w|] eqn:Hw; [|done]. simpl.
  apply Forall_insert.
  - eapply Forall_impl; [exact Hbuf|]. intros w0.
    apply buffer_ok_mono. intros u. apply worker_step_mono.
  - apply worker_step_buffer; [|by eapply Forall_lookup_1].
    intros u Hpc. rewrite (ri_length _ _ _ _ Hinv), HV.
    apply (discovered_lt g F V Hwf HF).
    pose proof (ri_sound _ _ _ _ Hinv) as Hsound.
    apply (Forall_lookup_1 _ _ _ _ Hsound Hw). right. by right.
Qed.

(** When the round is over no worker's buffer holds a node twice. *)
Lemma round_end_buffers k done_ st :
  orch_inv g start_node search_value n_workers done_ st →
  Forall (λ w, NoDup (partial_new_frontier w))
    (round_end g search_value n_workers assign sched k st).2.
Proof.
  intros [Hlen Hws Hbuf Hnd Hm Hre Hcl Hocc Hs Htk]. unfold round_end.
  set (F := curr_frontier st). set (V := visited st).
  assert (∀ x, x ∈ F → x < n_nodes g) as HF.
  { intros x Hx. rewrite <-Hlen. apply marked_lt, Hm, elem_of_app. by right. }
  destruct (run_round_ind g search_value F
    (λ st', round_inv g F V st' ∧ Forall (buffer_ok st'.1) st'.2)
    (λ t st', sched_step_buffer F V t st' Hlen HF) (sched k)
    (V, imap (begin_round n_workers assign F) (workers st))) as [_ Hok].
  - split; [by apply (round_inv_begin g n_workers assign start_node)|].
    simpl. apply Forall_lookup. intros t w. rewrite list_lookup_imap.
    destruct (workers st !! t) as [w0|] eqn:Hw0; [|done]. intros [= <-].
    unfold buffer_ok. simpl. rewrite (Forall_lookup_1 _ _ _ _ Hbuf Hw0).
    split; [apply NoDup_nil_2|]. split; [by intros u ?%elem_of_nil|done].
  - eapply Forall_impl; [exact Hok|]. by intros w [? _].
Qed.
End buffers.

(** X27. The race on [visited] can make several workers push the same node
    in a round, but no worker pushes a node twice: when a round of
    [parallel_bfs] is over every worker's buffer is free of duplicates.
    With a single worker the buffer is therefore the new frontier up to
    order, and the merging set removes nothing. *)
Theorem worker_buffer_no_duplicates
    (g : Graph) (start_node : nat) (search_value : Z) (n_workers : nat)
    (sched : nat → list nat) (uset_iter : nat → list nat → list nat)
    (k : nat) :
  wf_graph g → start_node < n_nodes g → 1 ≤ n_workers →
  uset_iter_ok uset_iter →
  let state :=
    parallel_bfs_state sched uset_iter g start_node search_value n_workers in
  let ws :=
    (round_end g search_value n_workers (chunked_policy CHUNK_SIZE) sched k
       (state k)).2 in
  Forall (λ w, NoDup (partial_new_frontier w)) ws ∧
  (n_workers = 1 →
   NoDup (ws ≫= partial_new_frontier) ∧
   curr_frontier (state (S k)) ≡ₚ ws ≫= partial_new_frontier).
Proof.
  intros Hwf Hs HW Hu state ws.
  assert (policy_ok (chunked_policy CHUNK_SIZE)) as Hpol
    by (apply chunked_policy_ok; unfold CHUNK_SIZE; lia).
  pose proof (state_at_inv g search_value n_workers (chunked_policy CHUNK_SIZE)
    sort sched uset_iter start_node Hwf HW Hpol sort_Permutation Hu Hs k)
    as Hinv.
  assert (Forall (λ w, NoDup (partial_new_frontier w)) ws) as Hnd.
  { by eapply (round_end_buffers g search_value n_workers
                 (chunked_policy CHUNK_SIZE) sched start_node). }
  split; [done|]. intros ->.
  assert (length ws = 1) as Hlen.
  { unfold ws, round_end. rewrite run_round_length. simpl.
    rewrite length_imap. apply (oi_workers _ _ _ _ _ _ Hinv). }
  assert (NoDup (ws ≫= partial_new_frontier)) as Hcat.
  { destruct ws as [|w [|? ?]]; simplify_eq/=.
    apply Forall_cons in Hnd as [Hnd _]. by rewrite app_nil_r. }
  split; [done|].
  change (curr_frontier (state (S k)))
    with (merge_frontier sort uset_iter k ws).
  rewrite (merge_frontier_perm sort uset_iter sort_Permutation Hu).
  apply NoDup_Permutation; [apply NoDup_remove_dups|done|].
  intros u. apply elem_of_remove_dups.
Qed.

Lemma worker_buffer_no_duplicates_witness :
  let state := parallel_bfs_state sched_lockstep uset_reverse diamond 0 1 1 in
  let ws :=
    (round_end diamond 1 1 (chunked_policy CHUNK_SIZE) sched_lockstep 1
       (state 1)).2 in
  Forall (λ w, NoDup (partial_new_frontier w)) ws ∧
  (1 = 1 →
   NoDup (ws ≫= partial_new_frontier) ∧
   curr_frontier (state 2) ≡ₚ ws ≫= partial_new_frontier).
Proof.
  apply (worker_buffer_no_duplicates diamond 0 1 1 sched_lockstep uset_reverse
           1);
    [apply (bool_decide_unpack _); vm_compute; exact I|simpl; lia|lia
    |apply uset_reverse_ok].
Defined.

(** * The two functions and their barrier *)

Lemma rendezvous_zero_workers trace b :
  WithBarrier.rendezvous 0 trace (Barrier.init 0) ≠ WithBarrier.Done b.
Proof.
  intros [Hrun [Hpc _]%WithBarrierFacts.at_merge_spec]%WithBarrierFacts.await_Done.
  destruct (BarrierMore.run_master_waits trace (Barrier.init 0) b)
    as (_ & _ & _ & Hin); [|done|].
  { split_and!; [done..|]. apply list_elem_of_here. }
  rewrite Hpc in Hin.
  repeat (apply elem_of_cons in Hin as [?|Hin]; [done|]).
  by apply elem_of_nil in Hin.
Qed.

Lemma engine_zero_workers g search_value assign normalize bsched bexit sched
    uset_iter fuel start_node c :
  WithBarrier.engine g search_value 0 assign normalize bsched bexit sched
    uset_iter fuel start_node ≠ WithBarrier.Done c.
Proof.
  unfold WithBarrier.engine, WithBarrier.run.
  intros ([[K st] b] & Hloop & _)%WithBarrierFacts.call_bind_Done.
  destruct fuel as [|fuel]; [done|].
  cbn [WithBarrier.orch_loop init_state curr_frontier] in Hloop.
  apply WithBarrierFacts.call_bind_Done in Hloop as (b' & Hr & _).
  by apply rendezvous_zero_workers in Hr.
Qed.

Lemma rendezvous_zero_workers_blocks :
  WithBarrier.rendezvous 0 (WithBarrier.steps 3 Barrier.Master)
    (Barrier.init 0) = WithBarrier.Deadlock.
Proof. vm_compute. reflexivity. Qed.

(** X28. Called with [n_workers = 0], [parallel_bfs] and
    [__parallel_bfs_static] never return, whatever the graph and the
    schedule: no thread is there to set [stop_master], so the first
    [MasterWait] cannot return, and once the orchestrator has blocked in it
    no thread can run. *)
Theorem parallel_bfs_zero_workers
    (g : Graph) (start_node : nat) (search_value : Z)
    (sched : nat → list nat) (uset_iter : nat → list nat → list nat)
    (fuel : nat) (bsched : nat → list Barrier.action)
    (bexit : list Barrier.action) (c : nat) :
  WithBarrier.parallel_bfs fuel bsched bexit sched uset_iter g start_node
    search_value 0 ≠ WithBarrier.Done c ∧
  WithBarrier.__parallel_bfs_static fuel bsched bexit sched uset_iter g
    start_node search_value 0 ≠ WithBarrier.Done c ∧
  WithBarrier.parallel_bfs (S fuel) (λ _, WithBarrier.steps 3 Barrier.Master)
    bexit sched uset_iter g start_node search_value 0
    = WithBarrier.Deadlock ∧
  WithBarrier.__parallel_bfs_static (S fuel)
    (λ _, WithBarrier.steps 3 Barrier.Master) bexit sched uset_iter g
    start_node search_value 0 = WithBarrier.Deadlock.
Proof.
  split; [apply engine_zero_workers|]. split; [apply engine_zero_workers|].
  unfold WithBarrier.parallel_bfs, WithBarrier.__parallel_bfs_static,
    WithBarrier.engine, WithBarrier.run.
  cbn [WithBarrier.orch_loop init_state curr_frontier].
  by rewrite rendezvous_zero_workers_blocks.
Qed.

(** X29. When the orchestrator calls [MasterWait] only after every worker
    has gone through [WorkerWait] to its wait, no notification is lost: for
    every worker count [n_workers >= 1] and every iteration [k], the
    schedule in turn takes the barrier from the head of iteration [k] to the
    return of [MasterWait], with every worker blocked in [WorkerWait] and
    [k] calls of [StartWorkers] made, and the [StartWorkers] after the loop
    lets every worker leave [WorkerWait]. *)
Theorem barrier_in_turn (n_workers k : nat) :
  1 ≤ n_workers →
  WithBarrier.rendezvous k (WithBarrier.bsched_in_turn n_workers k)
    (WithBarrier.barrier_at n_workers k)
  = WithBarrier.Done (WithBarrier.round_merged n_workers k) ∧
  Barrier.mpc (WithBarrier.round_merged n_workers k) = Barrier.MMerge ∧
  Barrier.mround (WithBarrier.round_merged n_workers k) = k ∧
  Barrier.wks (WithBarrier.round_merged n_workers k)
  = replicate n_workers
      {| Barrier.wpc := Barrier.WWaiting;
         Barrier.l_gen := WithBarrier.generation k; Barrier.wround := k |} ∧
  ∃ b, WithBarrier.release (S k) (WithBarrier.bexit_in_turn n_workers)
         (WithBarrier.round_merged n_workers k) = WithBarrier.Done b ∧
       Barrier.wks b
       = replicate n_workers
           {| Barrier.wpc := Barrier.WWork;
              Barrier.l_gen := WithBarrier.generation k;
              Barrier.wround := S k |}.
Proof.
  intros HW. split; [by apply InTurn.rendezvous_in_turn|].
  split; [done|]. split; [done|]. split; [done|].
  eexists. split; [apply (InTurn.release_in_turn n_workers k)|].
  unfold WithBarrier.arriving. cbn [Barrier.wks replicate app].
  by rewrite Nat.sub_0_r.
Qed.

Lemma barrier_in_turn_witness :
  WithBarrier.rendezvous 2 (WithBarrier.bsched_in_turn 3 2)
    (WithBarrier.barrier_at 3 2)
  = WithBarrier.Done (WithBarrier.round_merged 3 2) ∧
  Barrier.mpc (WithBarrier.round_merged 3 2) = Barrier.MMerge ∧
  Barrier.mround (WithBarrier.round_merged 3 2) = 2 ∧
  Barrier.wks (WithBarrier.round_merged 3 2)
  = replicate 3
      {| Barrier.wpc := Barrier.WWaiting;
         Barrier.l_gen := WithBarrier.generation 2; Barrier.wround := 2 |} ∧
  ∃ b, WithBarrier.release 3 (WithBarrier.bexit_in_turn 3)
         (WithBarrier.round_merged 3 2) = WithBarrier.Done b ∧
       Barrier.wks b
       = replicate 3
           {| Barrier.wpc := Barrier.WWork;
              Barrier.l_gen := WithBarrier.generation 2;
              Barrier.wround := 3 |}.
Proof. apply (barrier_in_turn 3 2). lia. Defined.

(** X30. The merging phase runs while no worker does.  In an iteration in
    which [MasterWait] returns, each of the [n_workers] workers has finished
    that round, has announced its arrival and is inside [WorkerWait], not
    yet released: the orchestrator reads and clears the buffers the workers
    have left.  The barrier is then again in a state reached from its
    construction, so the same holds in the next iteration. *)
Theorem merging_phase_exclusive (n_workers k : nat)
    (trace0 trace : list Barrier.action) (b b' : Barrier.system) :
  Barrier.run trace0 (Barrier.init n_workers) = Some b →
  WithBarrier.rendezvous k trace b = WithBarrier.Done b' →
  Barrier.run (trace0 ++ trace) (Barrier.init n_workers) = Some b' ∧
  Barrier.mpc b' = Barrier.MMerge ∧
  Barrier.mround b' = k ∧
  length (Barrier.wks b') = n_workers ∧
  ∀ w, w ∈ Barrier.wks b' →
    Barrier.wround w = k ∧
    Barrier.l_gen w = Barrier.m_generation b' ∧
    Barrier.wpc w ∈ [Barrier.WNotify; Barrier.WCheck; Barrier.WBlock;
                     Barrier.WWaiting; Barrier.WWoken].
Proof.
  intros Hb [Hrun [Hpc Hk]%WithBarrierFacts.at_merge_spec]%WithBarrierFacts.await_Done.
  pose proof (InTurn.run_app_Some _ _ _ _ _ Hb Hrun) as Hreach.
  split; [done|]. split; [done|]. split; [done|]. split.
  - pose proof (BarrierFacts.run_inv _ _ _ (BarrierFacts.init_inv n_workers)
                  Hreach) as Hinv.
    rewrite (Barrier.inv_workers _ Hinv).
    by rewrite (BarrierMore.run_m_threshold _ _ _ Hreach).
  - intros w Hw.
    destruct (BarrierFacts.barrier_safe n_workers _ _ Hreach) as [Hsafe _].
    rewrite <-Hk. by apply Hsafe.
Qed.

Lemma merging_phase_exclusive_witness :
  Barrier.run ([] ++ WithBarrier.bsched_in_turn 2 0) (Barrier.init 2)
    = Some (WithBarrier.round_merged 2 0) ∧
  Barrier.mpc (WithBarrier.round_merged 2 0) = Barrier.MMerge ∧
  Barrier.mround (WithBarrier.round_merged 2 0) = 0 ∧
  length (Barrier.wks (WithBarrier.round_merged 2 0)) = 2 ∧
  ∀ w, w ∈ Barrier.wks (WithBarrier.round_merged 2 0) →
    Barrier.wround w = 0 ∧
    Barrier.l_gen w = Barrier.m_generation (WithBarrier.round_merged 2 0) ∧
    Barrier.wpc w ∈ [Barrier.WNotify; Barrier.WCheck; Barrier.WBlock;
                     Barrier.WWaiting; Barrier.WWoken].
Proof.
  apply (merging_phase_exclusive 2 0 [] (WithBarrier.bsched_in_turn 2 0)
           (Barrier.init 2) (WithBarrier.round_merged 2 0)).
  - reflexivity.
  - vm_compute. reflexivity.
Defined.
